(** * Auto-route core of grinder-maker: spatial grid, neighbour counts,
      dense-cluster avoidance, greedy route construction, parameter tuning.

    Shallow embedding of the auto-route module ([@/lib/auto-route]), and of
    the arithmetic of the viewer component that calls it.

    Numbers.  A JavaScript [number] that carries a coordinate, a radius or a
    squared distance is an exact rational ([Q]); the binary64 rounding of the
    arithmetic, NaN and overflow are outside this model.  The literal
    [Infinity] the code uses as a sentinel is kept ([ext], [PosInf]).
    Identifiers, cell coordinates, counts and lengths are integers ([Z]).

    Containers.  [Map<string, T[]>] keyed by [cellKey(cx, cy)] is a
    [gmap (Z * Z) (list T)] (the key string determines the pair and back);
    [Map<number, number>] is a [gmap Z Z]; [Set<number>] is a [gset Z].
    Arrays are lists, [push] appends at the end.

    Errors.  Reading a property of [undefined] raises a [TypeError]; the
    functions that index arrays live in the [result] monad below. *)

From Stdlib Require Import ZArith QArith Qround Qminmax Qabs Lqa Lia List Sorted.
From stdpp Require Import base option list gmap strings.

Local Open Scope Z_scope.

(** ** Numbers *)

Module Num.

Definition ltb (a b : Q) : bool := negb (Qle_bool b a).
Definition leb (a b : Q) : bool := Qle_bool a b.
Definition eqb (a b : Q) : bool := Qeq_bool a b.

(** [Math.max], [Math.min] on two numbers. *)
Definition max (a b : Q) : Q := if leb a b then b else a.
Definition min (a b : Q) : Q := if leb a b then a else b.

(** [Math.floor], [Math.ceil]. *)
Definition floor (a : Q) : Z := Qfloor a.
Definition ceil (a : Q) : Z := Qceiling a.

(** [Math.abs]. *)
Definition abs (a : Q) : Q := if leb 0 a then a else Qopp a.

(** A number that may be the sentinel [Infinity] or [-Infinity]. *)
Inductive ext : Type :=
| NegInf : ext
| Fin : Q -> ext
| PosInf : ext.

(** [a <= e], [a < e], [a > e] for a finite [a]. *)
Definition le_ext (a : Q) (e : ext) : bool :=
  match e with
  | NegInf => false
  | Fin b => leb a b
  | PosInf => true
  end.

Definition lt_ext (a : Q) (e : ext) : bool :=
  match e with
  | NegInf => false
  | Fin b => ltb a b
  | PosInf => true
  end.

Definition gt_ext (a : Q) (e : ext) : bool :=
  match e with
  | NegInf => true
  | Fin b => ltb b a
  | PosInf => false
  end.

(** [e > a] for a finite [a]. *)
Definition ext_gt (e : ext) (a : Q) : bool :=
  match e with
  | NegInf => false
  | Fin b => ltb a b
  | PosInf => true
  end.

(** [Math.abs(value - last)] where [last] may still be [-Infinity]. *)
Definition absDiff (value : Q) (last : ext) : ext :=
  match last with
  | Fin l => Fin (abs (value - l))
  | _ => PosInf
  end.

(** [Number.isFinite]. *)
Definition isFinite (e : ext) : bool :=
  match e with
  | Fin _ => true
  | _ => false
  end.

(** The decimal literals of the source. *)
Definition lit_1e_6 : Q := 1 # 1000000.
Definition lit_1e_9 : Q := 1 # 1000000000.
Definition lit_1e_12 : Q := 1 # 1000000000000.

End Num.

(** ** Errors *)

Inductive error : Type :=
| TypeError : error       (* property read on [undefined] *)
| OutOfFuel : error.      (* the loop model ran out of steps *)

Inductive result (A : Type) : Type :=
| Ok : A -> result A
| Throw : error -> result A.
Arguments Ok {A} _.
Arguments Throw {A} _.

Definition bind {A B : Type} (m : result A) (k : A -> result B) : result B :=
  match m with
  | Ok a => k a
  | Throw e => Throw e
  end.

Notation "'let*' x ':=' m 'in' k" := (bind m (fun x => k))
  (at level 10, x pattern, m at level 100, k at level 200).

(** Reading [o.field] where [o] may be [undefined]. *)
Definition deref {A : Type} (o : option A) : result A :=
  match o with
  | Some a => Ok a
  | None => Throw TypeError
  end.

(** ** Data *)

Record XY : Type := mkXY { xy_x : Q; xy_y : Q }.

Record SpawnXYZ : Type := mkSpawn {
  spawn_id : Z;
  spawn_x : Q;
  spawn_y : Q;
  spawn_z : Q
}.

(** A [SpawnXYZ] used where an [XY] is expected (structural typing), and the
    projection [(item) => ({ x: item.x, y: item.y })]. *)
Definition xy_of (p : SpawnXYZ) : XY := mkXY (spawn_x p) (spawn_y p).

Record SpatialIndex (T : Type) : Type := mkIndex {
  cellSize : Q;
  cells : gmap (Z * Z) (list T)
}.
Arguments mkIndex {T} _ _.
Arguments cellSize {T} _.
Arguments cells {T} _.

(** [cellKey]: the string [cx,cy], one per pair of integers. *)
Definition cellKey (cx cy : Z) : Z * Z := (cx, cy).

Definition toCell (value cellSize : Q) : Z := Num.floor (value / cellSize).

Definition dist2 (a b : XY) : Q :=
  let dx := (xy_x a - xy_x b)%Q in
  let dy := (xy_y a - xy_y b)%Q in
  (dx * dx + dy * dy)%Q.

(** [for (index = 0; index + 1 < route.length; index += 1)
      cost += dist2(route[index], route[index + 1])] *)
Fixpoint routeCost_from (cost : Q) (route : list SpawnXYZ) : Q :=
  match route with
  | a :: (b :: _) as rest =>
      routeCost_from (cost + dist2 (xy_of a) (xy_of b))%Q rest
  | _ => cost
  end.

Definition routeCost (route : list SpawnXYZ) : Q := routeCost_from 0%Q route.

(** ** The uniform grid *)

Definition bucket_push {T : Type} (getXY : T -> XY) (safeCellSize : Q)
    (cells : gmap (Z * Z) (list T)) (item : T) : gmap (Z * Z) (list T) :=
  let p := getXY item in
  let cx := toCell (xy_x p) safeCellSize in
  let cy := toCell (xy_y p) safeCellSize in
  let key := cellKey cx cy in
  match cells !! key with
  | Some bucket => <[key := bucket ++ [item]]> cells
  | None => <[key := [item]]> cells
  end.

Definition buildSpatialIndex {T : Type} (items : list T) (cellSize : Q)
    (getXY : T -> XY) : SpatialIndex T :=
  let safeCellSize := Num.max Num.lit_1e_6 cellSize in
  mkIndex safeCellSize (fold_left (bucket_push getXY safeCellSize) items ∅).

(** The integers [lo, lo+1, ..., hi] a [for (v = lo; v <= hi; v += 1)] loop
    visits. *)
Definition zrange (lo hi : Z) : list Z := seqZ lo (hi - lo + 1).

(** The test of the inner loops of [queryPointsWithin] and
    [computeNeighborCounts]. *)
Definition within (center : XY) (r2 : Q) (point : SpawnXYZ) : bool :=
  let dxw := (spawn_x point - xy_x center)%Q in
  let dyw := (spawn_y point - xy_y center)%Q in
  Num.leb (dxw * dxw + dyw * dyw) r2.

Definition queryPointsWithin (index : SpatialIndex SpawnXYZ) (center : XY)
    (radius : Q) : list SpawnXYZ :=
  if negb (Num.ltb 0 radius) then []
  else if (Z.of_nat (size (cells index)) =? 0) then []
  else
    let r2 := (radius * radius)%Q in
    let cx := toCell (xy_x center) (cellSize index) in
    let cy := toCell (xy_y center) (cellSize index) in
    let range := Num.ceil (radius / cellSize index) in
    flat_map (fun dy =>
      flat_map (fun dx =>
        match cells index !! cellKey (cx + dx) (cy + dy) with
        | None => []
        | Some bucket => filter (fun point => within center r2 point = true) bucket
        end)
      (zrange (- range) range))
    (zrange (- range) range).

Definition dist2PointToSegment (p a b : XY) : Q :=
  let abx := (xy_x b - xy_x a)%Q in
  let aby := (xy_y b - xy_y a)%Q in
  let apx := (xy_x p - xy_x a)%Q in
  let apy := (xy_y p - xy_y a)%Q in
  let abLen2 := (abx * abx + aby * aby)%Q in
  if Num.ltb abLen2 Num.lit_1e_12 then (apx * apx + apy * apy)%Q
  else
    let t := ((apx * abx + apy * aby) / abLen2)%Q in
    let t := Num.max 0 (Num.min 1 t) in
    let cx := (xy_x a + t * abx)%Q in
    let cy := (xy_y a + t * aby)%Q in
    let dx := (xy_x p - cx)%Q in
    let dy := (xy_y p - cy)%Q in
    (dx * dx + dy * dy)%Q.

(** ** Neighbour counts *)

(** The count of one point: the three nested loops over the cell window. *)
Definition countAround (index : SpatialIndex SpawnXYZ) (r2 : Q) (range : Z)
    (point : SpawnXYZ) : Z :=
  let cx := toCell (spawn_x point) (cellSize index) in
  let cy := toCell (spawn_y point) (cellSize index) in
  fold_left (fun count dy =>
    fold_left (fun count dx =>
      match cells index !! cellKey (cx + dx) (cy + dy) with
      | None => count
      | Some bucket =>
          fold_left (fun count other =>
            if within (xy_of point) r2 other then count + 1 else count)
            bucket count
      end)
      (zrange (- range) range) count)
    (zrange (- range) range) 0.

Definition computeNeighborCounts (points : list SpawnXYZ) (radius : Q)
    : gmap Z Z :=
  if (Z.of_nat (length points) =? 0) then ∅
  else if negb (Num.ltb 0 radius) then
    fold_left (fun counts point => <[spawn_id point := 1]> counts) points ∅
  else
    let index := buildSpatialIndex points radius xy_of in
    let r2 := (radius * radius)%Q in
    let range := Num.ceil (radius / cellSize index) in
    fold_left (fun counts point =>
      <[spawn_id point := countAround index r2 range point]> counts) points ∅.

(** ** Dense-cluster avoidance *)

Definition segmentAvoidsDense (a b : XY)
    (denseIndex : option (SpatialIndex SpawnXYZ)) (avoidRadius : Q) : bool :=
  match denseIndex with
  | None => true
  | Some denseIndex =>
      if negb (Num.ltb 0 avoidRadius) then true
      else if (Z.of_nat (size (cells denseIndex)) =? 0) then true
      else
        let minX := (Num.min (xy_x a) (xy_x b) - avoidRadius)%Q in
        let maxX := (Num.max (xy_x a) (xy_x b) + avoidRadius)%Q in
        let minY := (Num.min (xy_y a) (xy_y b) - avoidRadius)%Q in
        let maxY := (Num.max (xy_y a) (xy_y b) + avoidRadius)%Q in
        let minCx := toCell minX (cellSize denseIndex) in
        let maxCx := toCell maxX (cellSize denseIndex) in
        let minCy := toCell minY (cellSize denseIndex) in
        let maxCy := toCell maxY (cellSize denseIndex) in
        let r2 := (avoidRadius * avoidRadius)%Q in
        forallb (fun cy =>
          forallb (fun cx =>
            match cells denseIndex !! cellKey cx cy with
            | None => true
            | Some bucket =>
                forallb (fun dense =>
                  let d2 :=
                    dist2PointToSegment (mkXY (spawn_x dense) (spawn_y dense)) a b in
                  negb (Num.leb d2 r2))
                  bucket
            end)
          (zrange minCx maxCx))
        (zrange minCy maxCy)
  end.

(** ** Route construction *)

Module Settings.
Record t : Type := mk {
  center : XY;
  maxAreaRadius : Q;
  maxStepDistance : Q;
  maxWaypoints : Q;
  avoidDenseTravelRadius : Q
}.
End Settings.
Abbreviation AutoRouteSettings := Settings.t.

Module Stats.
Record t : Type := mk {
  total : Z;
  inArea : Z;
  denseInArea : Z;
  safeInArea : Z;
  picked : Z
}.
End Stats.
Abbreviation AutoRouteStats := Stats.t.

Record AutoRouteResult : Type := mkResult {
  route : list SpawnXYZ;
  stats : AutoRouteStats
}.

(** [Array.prototype.sort(cmp)]: a stable sort; [a] goes before [b] when
    [cmp(a, b) < 0].  Each element is inserted behind the elements already
    placed that do not come strictly after it. *)
Fixpoint sort_insert {A : Type} (cmp : A -> A -> Q) (a : A) (l : list A)
    : list A :=
  match l with
  | [] => [a]
  | b :: l' => if Num.ltb (cmp a b) 0 then a :: l else b :: sort_insert cmp a l'
  end.

Definition sort {A : Type} (cmp : A -> A -> Q) (l : list A) : list A :=
  fold_left (fun acc a => sort_insert cmp a acc) l [].

(** [counts.get(id) ?? 1]. *)
Definition countOr1 (counts : gmap Z Z) (id : Z) : Z :=
  match counts !! id with
  | Some c => c
  | None => 1
  end.

Record ScoredStart : Type := mkScored {
  point : SpawnXYZ;
  local : Z;
  centerD2 : Q
}.

Definition compareStarts (a b : ScoredStart) : Q :=
  if negb (local a =? local b) then inject_Z (local b - local a)
  else if negb (Num.eqb (centerD2 a) (centerD2 b)) then (centerD2 a - centerD2 b)%Q
  else inject_Z (spawn_id (point a) - spawn_id (point b)).

(** The running best of the candidate loop of [buildGreedyPath]. *)
Record Pick : Type := mkPick {
  best : option SpawnXYZ;
  bestDegree : Z;
  bestLocal : Z;
  bestStepD2 : Num.ext;
  bestCenterD2 : Num.ext
}.

Definition noPick : Pick := mkPick None (-1) (-1) Num.PosInf Num.PosInf.

(** The closure [buildGreedyPath] and the variables of [generateAutoRoute] it
    captures. *)
Section GreedyPath.

Variable settings : AutoRouteSettings.
Variable safeInArea : list SpawnXYZ.
Variable safeIndex : option (SpatialIndex SpawnXYZ).
Variable denseIndex : option (SpatialIndex SpawnXYZ).
Variable stepNeighborCounts : gmap Z Z.
Variable maxWaypoints : Z.
Variable maxStep : Q.
Variable maxStep2 : Num.ext.
Variable avoidRadius : Q.

(** [safeIndex && maxStep > 0 && Number.isFinite(maxStep2)], with the index
    at hand when it holds. *)
Definition indexed : option (SpatialIndex SpawnXYZ) :=
  match safeIndex with
  | Some index =>
      if Num.ltb 0 maxStep && Num.isFinite maxStep2 then Some index else None
  | None => None
  end.

Definition forwardDegree (visited : gset Z) (candidate : SpawnXYZ) : Z :=
  match indexed with
  | Some index =>
      fold_left (fun degree neighbor =>
        if spawn_id neighbor =? spawn_id candidate then degree
        else if bool_decide (spawn_id neighbor ∈ visited) then degree
        else degree + 1)
        (queryPointsWithin index (xy_of candidate) maxStep) 0
  | None => Z.of_nat (length safeInArea) - Z.of_nat (size visited)
  end.

(** One turn of [for (const candidate of candidates)]. *)
Definition consider (visited : gset Z) (current : SpawnXYZ) (st : Pick)
    (candidate : SpawnXYZ) : Pick :=
  if spawn_id candidate =? spawn_id current then st
  else if bool_decide (spawn_id candidate ∈ visited) then st
  else
    let stepD2 := dist2 (xy_of current) (xy_of candidate) in
    if Num.gt_ext stepD2 maxStep2 then st
    else if negb (segmentAvoidsDense (xy_of current) (xy_of candidate)
                    denseIndex avoidRadius) then st
    else
      let degree := forwardDegree visited candidate in
      let local := countOr1 stepNeighborCounts (spawn_id candidate) - 1 in
      let centerD2 := dist2 (Settings.center settings) (xy_of candidate) in
      if bestDegree st <? degree then
        mkPick (Some candidate) degree local (Num.Fin stepD2) (Num.Fin centerD2)
      else if degree <? bestDegree st then st
      else if bestLocal st <? local then
        mkPick (Some candidate) (bestDegree st) local (Num.Fin stepD2)
               (Num.Fin centerD2)
      else if local <? bestLocal st then st
      else if Num.lt_ext stepD2 (bestStepD2 st) then
        mkPick (Some candidate) (bestDegree st) (bestLocal st) (Num.Fin stepD2)
               (Num.Fin centerD2)
      else if Num.gt_ext stepD2 (bestStepD2 st) then st
      else if Num.lt_ext centerD2 (bestCenterD2 st) then
        mkPick (Some candidate) (bestDegree st) (bestLocal st) (bestStepD2 st)
               (Num.Fin centerD2)
      else st.

(** [while (route.length < maxWaypoints) { ... }].  [current] is
    [route[route.length - 1]]; the body reads [current.x], [current.y] and
    [current.id], which raises when it is [undefined]: the model raises as
    soon as [current] is missing.  [fuel] bounds the number of turns. *)
Fixpoint greedyLoop (fuel : nat) (route : list SpawnXYZ) (visited : gset Z)
    : result (list SpawnXYZ) :=
  if negb (Z.of_nat (length route) <? maxWaypoints) then Ok route
  else
    match fuel with
    | O => Throw OutOfFuel
    | S fuel' =>
        let* current := deref (last route) in
        let candidates :=
          match indexed with
          | Some index => queryPointsWithin index (xy_of current) maxStep
          | None => safeInArea
          end in
        let st := fold_left (consider visited current) candidates noPick in
        match best st with
        | None => Ok route
        | Some b => greedyLoop fuel' (route ++ [b]) ({[spawn_id b]} ∪ visited)
        end
    end.

(** [route.push(start); visited.add(start.id)] and the loop.  The loop adds
    one waypoint per turn and stops at [maxWaypoints]: [maxWaypoints] turns
    are more than it can take ([greedyLoop_ok]). *)
Definition buildGreedyPath (start : option SpawnXYZ)
    : result (list SpawnXYZ) :=
  let* start := deref start in
  greedyLoop (Z.to_nat maxWaypoints) [start] {[spawn_id start]}.

End GreedyPath.

(** ** [generateAutoRoute] *)

(** The [closestToCenter] loop. *)
Definition closestStep (center : XY) (st : option SpawnXYZ * Num.ext)
    (point : SpawnXYZ) : option SpawnXYZ * Num.ext :=
  let d2 := dist2 center (xy_of point) in
  if Num.lt_ext d2 (snd st) then (Some point, Num.Fin d2) else st.

Definition closestToCenter (center : XY) (safeInArea : list SpawnXYZ)
    : option SpawnXYZ :=
  fst (fold_left (closestStep center) safeInArea (None, Num.PosInf)).

(** [for (index = 0; index < maxStartCandidates; index += 1)
      startCandidates.push(scoredStarts[index].point)] *)
Fixpoint takeStarts (scoredStarts : list ScoredStart) (indices : list nat)
    (startCandidates : list SpawnXYZ) : result (list SpawnXYZ) :=
  match indices with
  | [] => Ok startCandidates
  | index :: rest =>
      let* s := deref (scoredStarts !! index) in
      takeStarts scoredStarts rest (startCandidates ++ [point s])
  end.

(** [for (const start of startCandidates.slice(1))]: keep the longer route,
    the cheaper one among equally long ones. *)
Fixpoint bestOfStarts (build : option SpawnXYZ -> result (list SpawnXYZ))
    (starts : list SpawnXYZ) (bestRoute : list SpawnXYZ) (bestCost : Q)
    : result (list SpawnXYZ) :=
  match starts with
  | [] => Ok bestRoute
  | start :: rest =>
      let* route := build (Some start) in
      if Z.of_nat (length bestRoute) <? Z.of_nat (length route) then
        bestOfStarts build rest route (routeCost route)
      else if Z.of_nat (length route) =? Z.of_nat (length bestRoute) then
        let cost := routeCost route in
        if Num.ltb cost bestCost then bestOfStarts build rest route cost
        else bestOfStarts build rest bestRoute bestCost
      else bestOfStarts build rest bestRoute bestCost
  end.

(** The locals of [generateAutoRoute] the claims speak of. *)
Definition cappedWaypoints (maxWaypoints : Q) : Z :=
  let safeMax := Z.max 0 (Num.floor maxWaypoints) in
  if 0 <? safeMax then safeMax else 0.

Definition maxAreaR2 (settings : AutoRouteSettings) : Num.ext :=
  let maxAreaRadius := Settings.maxAreaRadius settings in
  if Num.ltb 0 maxAreaRadius then Num.Fin (maxAreaRadius * maxAreaRadius)
  else Num.PosInf.

Definition inArea (points : list SpawnXYZ) (settings : AutoRouteSettings)
    : list SpawnXYZ :=
  filter (fun point =>
    Num.le_ext (dist2 (Settings.center settings) (xy_of point))
      (maxAreaR2 settings) = true)
    points.

Definition denseInArea (points : list SpawnXYZ) (denseIds : gset Z)
    (settings : AutoRouteSettings) : list SpawnXYZ :=
  filter (fun point => spawn_id point ∈ denseIds) (inArea points settings).

Definition safeInArea (points : list SpawnXYZ) (denseIds : gset Z)
    (settings : AutoRouteSettings) : list SpawnXYZ :=
  filter (fun point => spawn_id point ∉ denseIds) (inArea points settings).

Definition denseIndexOf (points : list SpawnXYZ) (denseIds : gset Z)
    (settings : AutoRouteSettings) : option (SpatialIndex SpawnXYZ) :=
  let maxAreaRadius := Settings.maxAreaRadius settings in
  let avoidRadius := Settings.avoidDenseTravelRadius settings in
  let travelR2 :=
    if Num.ltb 0 maxAreaRadius && Num.ltb 0 avoidRadius
    then Num.Fin ((maxAreaRadius + avoidRadius) * (maxAreaRadius + avoidRadius))
    else Num.PosInf in
  let denseForTravel :=
    if Num.ltb 0 avoidRadius then
      filter (fun point =>
        spawn_id point ∈ denseIds ∧
        Num.le_ext (dist2 (Settings.center settings) (xy_of point)) travelR2 = true)
        points
    else [] in
  if Num.ltb 0 avoidRadius && (0 <? Z.of_nat (length denseForTravel))
  then Some (buildSpatialIndex denseForTravel avoidRadius xy_of)
  else None.

Definition generateAutoRoute (points : list SpawnXYZ) (denseIds : gset Z)
    (settings : AutoRouteSettings) : result AutoRouteResult :=
  let total := Z.of_nat (length points) in
  let maxWaypoints := cappedWaypoints (Settings.maxWaypoints settings) in
  let maxStep := Settings.maxStepDistance settings in
  let avoidRadius := Settings.avoidDenseTravelRadius settings in
  let inArea := inArea points settings in
  let denseInArea := denseInArea points denseIds settings in
  let safeInArea := safeInArea points denseIds settings in
  let denseIndex := denseIndexOf points denseIds settings in
  if (maxWaypoints =? 0) || (Z.of_nat (length safeInArea) =? 0) then
    Ok (mkResult []
          (Stats.mk total (Z.of_nat (length inArea))
             (Z.of_nat (length denseInArea)) (Z.of_nat (length safeInArea)) 0))
  else
    let maxStep2 :=
      if Num.ltb 0 maxStep then Num.Fin (maxStep * maxStep) else Num.PosInf in
    let safeIndex :=
      if Num.ltb 0 maxStep then Some (buildSpatialIndex safeInArea maxStep xy_of)
      else None in
    let stepNeighborCounts :=
      if Num.ltb 0 maxStep then computeNeighborCounts safeInArea maxStep else ∅ in
    let closest := closestToCenter (Settings.center settings) safeInArea in
    let scoredStarts :=
      sort compareStarts
        (map (fun point =>
           mkScored point
             (countOr1 stepNeighborCounts (spawn_id point) - 1)
             (dist2 (Settings.center settings) (xy_of point)))
           safeInArea) in
    let maxStartCandidates := Z.min 12 (Z.of_nat (length scoredStarts)) in
    let* startCandidates :=
      takeStarts scoredStarts (seq 0 (Z.to_nat maxStartCandidates)) [] in
    let startCandidates :=
      match closest with
      | Some c =>
          if negb (existsb (fun point => spawn_id point =? spawn_id c)
                     startCandidates)
          then startCandidates ++ [c] else startCandidates
      | None => startCandidates
      end in
    let build :=
      buildGreedyPath settings safeInArea safeIndex denseIndex
        stepNeighborCounts maxWaypoints maxStep maxStep2 avoidRadius in
    let* bestRoute :=
      build (match head startCandidates with
             | Some s => Some s
             | None => head safeInArea
             end) in
    let bestCost := routeCost bestRoute in
    let* bestRoute := bestOfStarts build (tail startCandidates) bestRoute bestCost in
    Ok (mkResult bestRoute
          (Stats.mk total (Z.of_nat (length inArea))
             (Z.of_nat (length denseInArea)) (Z.of_nat (length safeInArea))
             (Z.of_nat (length bestRoute)))).

(** ** Parameter tuning *)

Module Tuned.
Record t : Type := mk {
  clusterRadius : Q;
  maxAreaRadius : Q;
  maxStepDistance : Q;
  avoidDenseTravelRadius : Q;
  dirtySupportRadius : Q
}.
End Tuned.
Abbreviation TunedAutoRouteParams := Tuned.t.

(** [array[i]] for a computed index [i]: [undefined] out of range. *)
Definition at_index {A : Type} (l : list A) (i : Z) : option A :=
  if i <? 0 then None else l !! Z.to_nat i.

Definition uniqueStep (st : list Q * Num.ext) (value : Q) : list Q * Num.ext :=
  let '(result, last) := st in
  if (Z.of_nat (length result) =? 0)
     || Num.ext_gt (Num.absDiff value last) Num.lit_1e_9
  then (result ++ [value], Num.Fin value)
  else st.

(** Every value handed to [uniqueSorted] is a finite number here, so
    [Number.isFinite(value)] holds of each. *)
Definition uniqueSorted (values : list Q) : list Q :=
  let cleaned := filter (fun value => Num.ltb 0 value = true) values in
  let cleaned := sort (fun a b => (a - b)%Q) cleaned in
  fst (fold_left uniqueStep cleaned ([], Num.NegInf)).

Record Bounds : Type := mkBounds {
  minX : Num.ext;
  maxX : Num.ext;
  minY : Num.ext;
  maxY : Num.ext
}.

Definition boundsStep (b : Bounds) (point : SpawnXYZ) : Bounds :=
  let b := if Num.lt_ext (spawn_x point) (minX b)
           then mkBounds (Num.Fin (spawn_x point)) (maxX b) (minY b) (maxY b) else b in
  let b := if Num.gt_ext (spawn_x point) (maxX b)
           then mkBounds (minX b) (Num.Fin (spawn_x point)) (minY b) (maxY b) else b in
  let b := if Num.lt_ext (spawn_y point) (minY b)
           then mkBounds (minX b) (maxX b) (Num.Fin (spawn_y point)) (maxY b) else b in
  if Num.gt_ext (spawn_y point) (maxY b)
  then mkBounds (minX b) (maxX b) (minY b) (Num.Fin (spawn_y point)) else b.

Record Best : Type := mkBest {
  params : TunedAutoRouteParams;
  len : Z;
  cost : Q
}.

Section Tuner.

(** [Math.sqrt], which has no exact value in [Q]: any function may stand for
    it. *)
Variable sqrt : Q -> Q.

(** With no point the bounds stay infinite: [width] and [height] are
    [-Infinity], [area] is [Infinity > 0] and the result is
    [Math.sqrt(Infinity / 1) = Infinity]. *)
Definition estimateBaseSpacing (points : list SpawnXYZ) : Num.ext :=
  let b := fold_left boundsStep points
             (mkBounds Num.PosInf Num.NegInf Num.PosInf Num.NegInf) in
  match minX b, maxX b, minY b, maxY b with
  | Num.Fin minX, Num.Fin maxX, Num.Fin minY, Num.Fin maxY =>
      let n := inject_Z (Z.max 1 (Z.of_nat (length points))) in
      let width := (maxX - minX)%Q in
      let height := (maxY - minY)%Q in
      let area := (width * height)%Q in
      if Num.ltb 0 area then Num.Fin (sqrt (area / n))
      else
        let extent := Num.max (Num.abs width) (Num.abs height) in
        if Num.ltb 0 extent then Num.Fin (extent / sqrt n)
        else Num.Fin 0
  | _, _, _, _ => Num.PosInf
  end.

(** The ids whose count satisfies [test]. *)
Definition idsWhere (test : Z -> bool) (counts : gmap Z Z)
    (points : list SpawnXYZ) : gset Z :=
  fold_left (fun ids point =>
    let count := countOr1 counts (spawn_id point) in
    if test count then {[spawn_id point]} ∪ ids else ids)
    points ∅.

(** The body of [for (const maxStepDistance of stepCandidates)]. *)
Definition tryStep (basePoints : list SpawnXYZ) (denseIds : gset Z)
    (center : XY) (cappedWaypoints : Z) (clusterRadius areaBase
    dirtySupportRadius : Q) (best : option Best) (maxStepDistance : Q)
    : result (option Best) :=
  let maxAreaRadius := (areaBase + maxStepDistance * (7 # 20))%Q in
  let avoidDenseTravelRadius :=
    Num.max (clusterRadius * (23 # 20)) (maxStepDistance * (1 # 4)) in
  let* result :=
    generateAutoRoute basePoints denseIds
      (Settings.mk center maxAreaRadius maxStepDistance
         (inject_Z cappedWaypoints) avoidDenseTravelRadius) in
  let len' := Z.of_nat (length (route result)) in
  let cost' := routeCost (route result) in
  let here :=
    mkBest (Tuned.mk clusterRadius maxAreaRadius maxStepDistance
              avoidDenseTravelRadius dirtySupportRadius) len' cost' in
  match best with
  | None => Ok (Some here)
  | Some b =>
      if len b <? len' then Ok (Some here)
      else if len' <? len b then Ok best
      else if Num.ltb maxStepDistance (Tuned.maxStepDistance (params b))
      then Ok (Some here)
      else if Num.ltb (Tuned.maxStepDistance (params b)) maxStepDistance
      then Ok best
      else if Num.ltb cost' (cost b) then Ok (Some here)
      else Ok best
  end.

Fixpoint forSteps (step : option Best -> Q -> result (option Best))
    (stepCandidates : list Q) (best : option Best) : result (option Best) :=
  match stepCandidates with
  | [] => Ok best
  | maxStepDistance :: rest =>
      let* best := step best maxStepDistance in
      forSteps step rest best
  end.

(** The body of [for (const clusterRadius of clusterCandidates)]. *)
Definition tryCluster (basePoints : list SpawnXYZ) (center : XY)
    (cappedWaypoints : Z) (baseSpacing dirtySupportRadius : Q)
    (best : option Best) (clusterRadius : Q) : result (option Best) :=
  let counts := computeNeighborCounts basePoints clusterRadius in
  let denseIds := idsWhere (fun count => 3 <=? count) counts basePoints in
  let safePoints :=
    filter (fun point => spawn_id point ∉ denseIds) basePoints in
  if Z.of_nat (length safePoints) =? 0 then Ok best
  else
    let safeDistances :=
      sort (fun a b => (a - b)%Q)
        (map (fun point => sqrt (dist2 center (xy_of point))) safePoints) in
    let targetSafe :=
      Z.min (Z.of_nat (length safeDistances))
        (Z.max (cappedWaypoints * 6) (Z.min 400 (cappedWaypoints * 12))) in
    let areaBase :=
      match at_index safeDistances (targetSafe - 1) with
      | Some d => d
      | None =>
          match at_index safeDistances (Z.of_nat (length safeDistances) - 1) with
          | Some d => d
          | None => 0%Q
          end
      end in
    let stepCandidates :=
      filter (fun value => Num.ltb (clusterRadius * (21 # 20)) value = true)
        (uniqueSorted
           [ (baseSpacing * (4 # 5))%Q; (baseSpacing * 1)%Q;
             (baseSpacing * (13 # 10))%Q; (baseSpacing * (17 # 10))%Q;
             (baseSpacing * (11 # 5))%Q; (baseSpacing * 3)%Q;
             (clusterRadius * (13 # 10))%Q; (clusterRadius * (9 # 5))%Q;
             (clusterRadius * (12 # 5))%Q; (clusterRadius * (16 # 5))%Q ]) in
    forSteps
      (tryStep basePoints denseIds center cappedWaypoints clusterRadius areaBase
         dirtySupportRadius)
      stepCandidates best.

Fixpoint forClusters (body : option Best -> Q -> result (option Best))
    (clusterCandidates : list Q) (best : option Best) : result (option Best) :=
  match clusterCandidates with
  | [] => Ok best
  | clusterRadius :: rest =>
      let* best := body best clusterRadius in
      forClusters body rest best
  end.

(** [null] is [None]. *)
Definition tuneAutoRouteParams (points : list SpawnXYZ) (center : XY)
    (maxWaypoints : Q) : result (option TunedAutoRouteParams) :=
  let cappedWaypoints := Z.max 0 (Num.floor maxWaypoints) in
  if cappedWaypoints =? 0 then Ok None
  else if Z.of_nat (length points) =? 0 then Ok None
  else
    let localCount :=
      Z.min (Z.of_nat (length points))
        (Z.max 2000 (Z.min 5000 (cappedWaypoints * 200))) in
    let byDistance :=
      map fst
        (take (Z.to_nat localCount)
           (sort (fun a b => (snd a - snd b)%Q)
              (map (fun point => (point, dist2 center (xy_of point))) points))) in
    let baseSpacingRaw := estimateBaseSpacing byDistance in
    let baseSpacing :=
      match baseSpacingRaw with
      | Num.Fin raw => if Num.ltb 0 raw then raw else 200%Q
      | _ => 200%Q
      end in
    let dirtySupportRadius := (baseSpacing * 6)%Q in
    let dirtyCounts := computeNeighborCounts points dirtySupportRadius in
    let dirtyIds := idsWhere (fun count => count <? 3) dirtyCounts points in
    let cleanedPoints :=
      filter (fun point => spawn_id point ∉ dirtyIds) points in
    let basePoints :=
      if Z.min (Z.of_nat (length points)) (Z.max 100 (cappedWaypoints * 5))
         <=? Z.of_nat (length cleanedPoints)
      then cleanedPoints else points in
    let clusterCandidates :=
      uniqueSorted
        [ (baseSpacing * (1 # 4))%Q; (baseSpacing * (7 # 20))%Q;
          (baseSpacing * (1 # 2))%Q; (baseSpacing * (7 # 10))%Q;
          (baseSpacing * 1)%Q; (baseSpacing * (7 # 5))%Q;
          (baseSpacing * 2)%Q ] in
    let* best :=
      forClusters
        (tryCluster basePoints center cappedWaypoints baseSpacing
           dirtySupportRadius)
        clusterCandidates None in
    Ok (match best with
        | Some b => Some (params b)
        | None => None
        end).

End Tuner.

(** * The map viewer

    The part of the viewer component that does arithmetic: the helpers
    [clamp], [levelColor] and [solveLinear3x3], the affine map baked from
    the three anchors, the projections between world, image and screen, the
    wheel zoom, and the preparation of the points in [createAutoRoute].
    A closure over the component's state takes that state as arguments.
    Division by zero gives [Infinity] or [NaN] in the source and is outside
    the rationals: the properties below assume the divisor is not zero where
    the code does not test it. *)

(** ** [clamp] and [levelColor] *)

Definition MIN_ZOOM : Q := 1 # 20.
Definition MAX_ZOOM : Q := 24.

Definition clamp (value min max : Q) : Q :=
  Num.min max (Num.max min value).

(** [Math.round]: the nearest integer, a half going up. *)
Definition Math_round (a : Q) : Z := Qfloor (a + (1 # 2)).

Definition palette : list string :=
  ["#ef4444"; "#22c55e"; "#3b82f6"; "#f59e0b"; "#a855f7"; "#06b6d4"]%string.

(** [%] is the remainder with the sign of the dividend, [Z.rem]. *)
Definition levelColor (level : Q) : option string :=
  let index :=
    Z.max 0 (Z.rem (Math_round level - 1) (Z.of_nat (length palette))) in
  at_index palette index.

(** ** [solveLinear3x3]

    The matrix is a list of rows.  Reading [m[row][column]] raises a
    [TypeError] when the row is missing; a missing number read in an
    arithmetic expression is [NaN], which the rationals do not have: such a
    run ends in [NotANumber].  Every write is at a position read just
    before, so it never extends an array. *)

Inductive outcome (A : Type) : Type :=
| Done : A -> outcome A
| Raised : outcome A
| NotANumber : outcome A.
Arguments Done {A} _.
Arguments Raised {A}.
Arguments NotANumber {A}.

Definition andThen {A B : Type} (m : outcome A) (k : A -> outcome B)
    : outcome B :=
  match m with
  | Done a => k a
  | Raised => Raised
  | NotANumber => NotANumber
  end.

Notation "'let+' x ':=' m 'in' k" := (andThen m (fun x => k))
  (at level 10, x pattern, m at level 100, k at level 200).

Definition rowAt (m : list (list Q)) (row : nat) : outcome (list Q) :=
  match m !! row with
  | Some r => Done r
  | None => Raised
  end.

Definition numberAt (v : list Q) (i : nat) : outcome Q :=
  match v !! i with
  | Some q => Done q
  | None => NotANumber
  end.

Definition entryAt (m : list (list Q)) (row column : nat) : outcome Q :=
  let+ r := rowAt m row in numberAt r column.

(** [for (row = index + 1; row < 3; row += 1)
      if (Math.abs(m[row][index]) > Math.abs(m[pivot][index])) pivot = row] *)
Fixpoint choosePivot (m : list (list Q)) (index : nat) (rows : list nat)
    (pivot : nat) : outcome nat :=
  match rows with
  | [] => Done pivot
  | row :: rest =>
      let+ candidate := entryAt m row index in
      let+ held := entryAt m pivot index in
      choosePivot m index rest
        (if Num.ltb (Num.abs held) (Num.abs candidate) then row else pivot)
  end.

(** The columns [index], ..., 2 of the two inner loops. *)
Definition columnsFrom (index : nat) : list nat := seq index (3 - index).

(** [for (column ...) m[index][column] /= factor], on the row. *)
Fixpoint divideRow (r : list Q) (columns : list nat) (factor : Q)
    : outcome (list Q) :=
  match columns with
  | [] => Done r
  | column :: rest =>
      let+ x := numberAt r column in
      divideRow (<[column := (x / factor)%Q]> r) rest factor
  end.

(** [for (column ...) m[row][column] -= multiplier * m[index][column]]. *)
Fixpoint subtractRow (r pivotRow : list Q) (columns : list nat)
    (multiplier : Q) : outcome (list Q) :=
  match columns with
  | [] => Done r
  | column :: rest =>
      let+ x := numberAt r column in
      let+ y := numberAt pivotRow column in
      subtractRow (<[column := (x - multiplier * y)%Q]> r) pivotRow rest
        multiplier
  end.

(** The loop over the rows other than [index]. *)
Fixpoint eliminate (m : list (list Q)) (v : list Q) (index : nat)
    (rows : list nat) : outcome (list (list Q) * list Q) :=
  match rows with
  | [] => Done (m, v)
  | row :: rest =>
      if Nat.eqb row index then eliminate m v index rest
      else
        let+ multiplier := entryAt m row index in
        let+ r := rowAt m row in
        let+ pivotRow := rowAt m index in
        let+ r' := subtractRow r pivotRow (columnsFrom index) multiplier in
        let+ x := numberAt v row in
        let+ y := numberAt v index in
        eliminate (<[row := r']> m) (<[row := (x - multiplier * y)%Q]> v)
          index rest
  end.

(** One turn of the outer loop; [None] is the [return null]. *)
Definition pivotStep (m : list (list Q)) (v : list Q) (index : nat)
    : outcome (option (list (list Q) * list Q)) :=
  let+ pivot := choosePivot m index (seq (S index) (3 - S index)) index in
  let+ p := entryAt m pivot index in
  if Num.ltb (Num.abs p) Num.lit_1e_12 then Done None
  else
    let+ rowP := rowAt m pivot in
    let+ rowI := rowAt m index in
    let m := <[pivot := rowI]> (<[index := rowP]> m) in
    let+ vP := numberAt v pivot in
    let+ vI := numberAt v index in
    let v := <[pivot := vI]> (<[index := vP]> v) in
    let+ factor := entryAt m index index in
    let+ r := rowAt m index in
    let+ r' := divideRow r (columnsFrom index) factor in
    let m := <[index := r']> m in
    let+ x := numberAt v index in
    let v := <[index := (x / factor)%Q]> v in
    let+ mv := eliminate m v index [0; 1; 2]%nat in
    Done (Some mv).

Fixpoint solveLoop (indices : list nat) (m : list (list Q)) (v : list Q)
    : outcome (option (list Q)) :=
  match indices with
  | [] => Done (Some v)
  | index :: rest =>
      let+ next := pivotStep m v index in
      match next with
      | None => Done None
      | Some (m', v') => solveLoop rest m' v'
      end
  end.

(** The copies [matrix.map(row => row.slice())] and [vector.slice()] are the
    values themselves here: the arguments are never written. *)
Definition solveLinear3x3 (matrix : list (list Q)) (vector : list Q)
    : outcome (option (list Q)) :=
  solveLoop [0; 1; 2]%nat matrix vector.

(** ** The affine map of the anchors *)

Inductive AnchorKey : Type := KeyA | KeyB | KeyC.

Definition sameKey (k1 k2 : AnchorKey) : bool :=
  match k1, k2 with
  | KeyA, KeyA | KeyB, KeyB | KeyC, KeyC => true
  | _, _ => false
  end.

Record AnchorPoint : Type := mkAnchor {
  anchor_key : AnchorKey;
  anchor_x : Q;
  anchor_y : Q
}.

Module Affine.
Record t : Type := mk { a : Q; b : Q; c : Q; d : Q; e : Q; f : Q }.
End Affine.
Abbreviation AffineWorldToImage := Affine.t.

Definition KINGDOMS_ANCHOR_WORLD (key : AnchorKey) : XY :=
  match key with
  | KeyA => mkXY (-10629) 1037
  | KeyB => mkXY 3149 (-3400)
  | KeyC => mkXY (-11143) (-2100)
  end.

(** [anchors.find((anchor) => anchor.key === key)]. *)
Definition findAnchor (anchors : list AnchorPoint) (key : AnchorKey)
    : option AnchorPoint :=
  List.find (fun anchor => sameKey (anchor_key anchor) key) anchors.

Definition bakedKingdomsAffine (anchors : list AnchorPoint)
    : outcome (option AffineWorldToImage) :=
  match findAnchor anchors KeyA, findAnchor anchors KeyB,
        findAnchor anchors KeyC with
  | Some anchorA, Some anchorB, Some anchorC =>
      let m :=
        [ [xy_x (KINGDOMS_ANCHOR_WORLD KeyA);
           xy_y (KINGDOMS_ANCHOR_WORLD KeyA); 1%Q];
          [xy_x (KINGDOMS_ANCHOR_WORLD KeyB);
           xy_y (KINGDOMS_ANCHOR_WORLD KeyB); 1%Q];
          [xy_x (KINGDOMS_ANCHOR_WORLD KeyC);
           xy_y (KINGDOMS_ANCHOR_WORLD KeyC); 1%Q] ] in
      let+ sx :=
        solveLinear3x3 m
          [anchor_x anchorA; anchor_x anchorB; anchor_x anchorC] in
      let+ sy :=
        solveLinear3x3 m
          [anchor_y anchorA; anchor_y anchorB; anchor_y anchorC] in
      match sx, sy with
      | Some sx, Some sy =>
          let+ a := numberAt sx 0 in
          let+ b := numberAt sx 1 in
          let+ c := numberAt sx 2 in
          let+ d := numberAt sy 0 in
          let+ e := numberAt sy 1 in
          let+ f := numberAt sy 2 in
          Done (Some (Affine.mk a b c d e f))
      | _, _ => Done None
      end
  | _, _, _ => Done None
  end.

(** ** World, image and screen *)

Record Calibration : Type := mkCalibration {
  cal_scale : Q;
  rotationRad : Q;
  translation : XY
}.

Module Viewport.
Record t : Type := mk {
  width : Q;
  height : Q;
  baseScale : Q;
  scale : Q;
  offsetX : Q;
  offsetY : Q
}.
End Viewport.
Abbreviation Viewport := Viewport.t.

Definition effectiveScale (viewport : Viewport) : Q :=
  (Viewport.baseScale viewport * Viewport.scale viewport)%Q.

Definition screenToImage (viewport : Viewport) (screenX screenY : Q) : XY :=
  mkXY ((screenX - Viewport.offsetX viewport) / effectiveScale viewport)
       ((screenY - Viewport.offsetY viewport) / effectiveScale viewport).

Section Projection.

(** [Math.cos], [Math.sin] and [Math.exp] are not rational functions: the
    model is over any three functions in their place. *)
Variable cos : Q -> Q.
Variable sin : Q -> Q.
Variable exp : Q -> Q.

Definition worldToImage (currentAffine : option AffineWorldToImage)
    (calibration : option Calibration) (world : XY) : option XY :=
  match currentAffine with
  | Some affine =>
      Some (mkXY
        (Affine.a affine * xy_x world + Affine.b affine * xy_y world
         + Affine.c affine)
        (Affine.d affine * xy_x world + Affine.e affine * xy_y world
         + Affine.f affine))
  | None =>
      match calibration with
      | None => None
      | Some calibration =>
          let dx := (xy_x world - xy_x (translation calibration))%Q in
          let dy := (xy_y world - xy_y (translation calibration))%Q in
          let cos := cos (rotationRad calibration) in
          let sin := sin (rotationRad calibration) in
          Some (mkXY ((cos * dx + sin * dy) / cal_scale calibration)
                     ((- sin * dx + cos * dy) / cal_scale calibration))
      end
  end.

Definition imageToWorld (currentAffine : option AffineWorldToImage)
    (calibration : option Calibration) (pixel : XY) : option XY :=
  match currentAffine with
  | Some affine =>
      let a := Affine.a affine in
      let b := Affine.b affine in
      let c := Affine.c affine in
      let d := Affine.d affine in
      let e := Affine.e affine in
      let f := Affine.f affine in
      let det := (a * e - b * d)%Q in
      if Num.ltb (Num.abs det) Num.lit_1e_12 then None
      else
        let px := (xy_x pixel - c)%Q in
        let py := (xy_y pixel - f)%Q in
        Some (mkXY ((e * px - b * py) / det) ((- d * px + a * py) / det))
  | None =>
      match calibration with
      | None => None
      | Some calibration =>
          let dx := xy_x pixel in
          let dy := xy_y pixel in
          let cos := cos (rotationRad calibration) in
          let sin := sin (rotationRad calibration) in
          Some (mkXY
            (xy_x (translation calibration)
             + (cos * dx + sin * dy) / cal_scale calibration)
            (xy_y (translation calibration)
             + (- sin * dx + cos * dy) / cal_scale calibration))
      end
  end.

(** [onViewerWheel] with a map shown: the viewport it sets, from the
    viewport of the render and the cursor position in the viewer.  The
    update function is applied to the viewport of the same render. *)
Definition onViewerWheel (viewport : Viewport) (cursorX cursorY deltaY : Q)
    : Viewport :=
  let imageBefore := screenToImage viewport cursorX cursorY in
  let factor := exp (- deltaY * (3 # 2000)) in
  let newScale :=
    clamp (Viewport.scale viewport * factor) MIN_ZOOM MAX_ZOOM in
  let newEffectiveScale := (Viewport.baseScale viewport * newScale)%Q in
  Viewport.mk (Viewport.width viewport) (Viewport.height viewport)
    (Viewport.baseScale viewport) newScale
    (cursorX - xy_x imageBefore * newEffectiveScale)
    (cursorY - xy_y imageBefore * newEffectiveScale).

End Projection.

(** ** [createAutoRoute]

    What the handler computes up to the call of [generateAutoRoute]; the
    marks and the info text it then sets in the component's state are not
    modelled. *)

(** The auto-route fields of the component's state. *)
Module Auto.
Record t : Type := mk {
  autoClusterRadius : Q;
  autoMaxAreaRadius : Q;
  autoMaxStepDistance : Q;
  autoMaxWaypoints : Q;
  autoAvoidTravelRadius : Q;
  autoTuneEnabled : bool
}.
End Auto.

(** [for (index = 0; index < points.length; index += stride)
      sampled.push(points[index])]: [points !! index] is there exactly when
    [index < points.length]. *)
Fixpoint sampleLoop (fuel : nat) (points : list SpawnXYZ) (stride index : nat)
    (sampled : list SpawnXYZ) : result (list SpawnXYZ) :=
  match points !! index with
  | None => Ok sampled
  | Some point =>
      match fuel with
      | O => Throw OutOfFuel
      | S fuel' =>
          sampleLoop fuel' points stride (index + stride) (sampled ++ [point])
      end
  end.

Definition tuneLimit : Z := 8000.

(** The points handed to [tuneAutoRouteParams]. *)
Definition tunePointsOf (points : list SpawnXYZ) : result (list SpawnXYZ) :=
  if tuneLimit <? Z.of_nat (length points) then
    let stride :=
      Num.ceil (inject_Z (Z.of_nat (length points)) / inject_Z tuneLimit) in
    sampleLoop (length points) points (Z.to_nat stride) 0 []
  else Ok points.

(** The points left after the dirty-point filter, with the set of dirty ids
    and the support count used. *)
Record Usable : Type := mkUsable {
  usablePoints : list SpawnXYZ;
  dirtyIds : gset Z;
  usedSupportCount : Z
}.

Definition usableOf (points : list SpawnXYZ) (dirtyCounts : gmap Z Z)
    (autoMaxWaypoints : Q) : Usable :=
  let minSupportCount := 3 in
  let dirtyIds :=
    idsWhere (fun count => count <? minSupportCount) dirtyCounts points in
  let usablePoints :=
    filter (fun point => spawn_id point ∉ dirtyIds) points in
  if Num.ltb (inject_Z (Z.of_nat (length usablePoints)))
       (Num.min (inject_Z (Z.of_nat (length points)))
          (Num.max 60 (autoMaxWaypoints * 3)))
  then
    let relaxedMin := 2 in
    let relaxedDirtyIds :=
      idsWhere (fun count => count <? relaxedMin) dirtyCounts points in
    let relaxedUsable :=
      filter (fun point => spawn_id point ∉ relaxedDirtyIds) points in
    if (length usablePoints <=? length relaxedUsable)%nat
    then mkUsable relaxedUsable relaxedDirtyIds relaxedMin
    else mkUsable usablePoints dirtyIds minSupportCount
  else mkUsable usablePoints dirtyIds minSupportCount.

(** What [createAutoRoute] has computed when it sets the marks: the five
    parameters after tuning, the usable points, the dense ids among them and
    the result of [generateAutoRoute]. *)
Record Created : Type := mkCreated {
  created_params : TunedAutoRouteParams;
  created_usable : Usable;
  created_denseIds : gset Z;
  created_result : AutoRouteResult
}.

Section CreateAutoRoute.

Variable sqrt : Q -> Q.
Variable cos : Q -> Q.
Variable sin : Q -> Q.

(** [None] is one of the two early returns, which only set the info
    text. *)
Definition createAutoRoute (viewport : Viewport)
    (currentAffine : option AffineWorldToImage)
    (calibration : option Calibration) (points : list SpawnXYZ)
    (state : Auto.t) : result (option Created) :=
  let worldCenter :=
    imageToWorld cos sin currentAffine calibration
      (screenToImage viewport (Viewport.width viewport / 2)
         (Viewport.height viewport / 2)) in
  match worldCenter with
  | None => Ok None
  | Some worldCenter =>
      if Z.of_nat (length points) =? 0 then Ok None
      else
        let clusterRadius := Auto.autoClusterRadius state in
        let maxAreaRadius := Auto.autoMaxAreaRadius state in
        let maxStepDistance := Auto.autoMaxStepDistance state in
        let avoidDenseTravelRadius := Auto.autoAvoidTravelRadius state in
        let dirtySupportRadius :=
          Num.max (maxStepDistance * 2) (clusterRadius * 4) in
        let untuned :=
          Tuned.mk clusterRadius maxAreaRadius maxStepDistance
            avoidDenseTravelRadius dirtySupportRadius in
        let* params :=
          if Auto.autoTuneEnabled state then
            let* tunePoints := tunePointsOf points in
            let* tuned :=
              tuneAutoRouteParams sqrt tunePoints worldCenter
                (Auto.autoMaxWaypoints state) in
            match tuned with
            | Some tuned =>
                Ok (Tuned.mk
                      (Num.max 0 (Tuned.clusterRadius tuned))
                      (Num.max 0 (Tuned.maxAreaRadius tuned))
                      (Num.max 0 (Tuned.maxStepDistance tuned))
                      (Num.max 0 (Tuned.avoidDenseTravelRadius tuned))
                      (Num.max 0 (Tuned.dirtySupportRadius tuned)))
            | None => Ok untuned
            end
          else Ok untuned in
        let dirtyCounts :=
          computeNeighborCounts points (Tuned.dirtySupportRadius params) in
        let usable :=
          usableOf points dirtyCounts (Auto.autoMaxWaypoints state) in
        let denseCounts :=
          computeNeighborCounts (usablePoints usable)
            (Tuned.clusterRadius params) in
        let denseIds :=
          idsWhere (fun count => 3 <=? count) denseCounts
            (usablePoints usable) in
        let* result :=
          generateAutoRoute (usablePoints usable) denseIds
            (Settings.mk worldCenter (Tuned.maxAreaRadius params)
               (Tuned.maxStepDistance params) (Auto.autoMaxWaypoints state)
               (Tuned.avoidDenseTravelRadius params)) in
        Ok (Some (mkCreated params usable denseIds result))
  end.

End CreateAutoRoute.

(** ** The viewport after a resize *)

Record MapMeta : Type := mkMapMeta {
  map_key : string;
  map_src : string;
  map_width : Q;
  map_height : Q;
  map_tileSize : Q;
  map_maxZoom : Q
}.

(** [resize] in the effect that watches the viewer, with a map shown: the
    viewport it sets for a viewer of the given size. *)
Definition resize (currentMap : MapMeta) (rectWidth rectHeight : Q)
    : Viewport :=
  let fitScale :=
    Num.min (rectWidth / map_width currentMap)
            (rectHeight / map_height currentMap) in
  let safeBaseScale := Num.max fitScale Num.lit_1e_6 in
  Viewport.mk rectWidth rectHeight safeBaseScale 1
    ((rectWidth - map_width currentMap * safeBaseScale) / 2)
    ((rectHeight - map_height currentMap * safeBaseScale) / 2).

(** * Vocabulary of the properties *)

(** [R] holds of every two consecutive waypoints. *)
Definition consecutive (R : SpawnXYZ -> SpawnXYZ -> Prop)
    (route : list SpawnXYZ) : Prop :=
  forall (i : nat) (a b : SpawnXYZ),
    route !! i = Some a -> route !! S i = Some b -> R a b.

(** [maxStep2] of [generateAutoRoute]. *)
Definition maxStep2Of (settings : AutoRouteSettings) : Num.ext :=
  let maxStep := Settings.maxStepDistance settings in
  if Num.ltb 0 maxStep then Num.Fin (maxStep * maxStep) else Num.PosInf.

(** The step from [a] to [b] is short enough and clear of dense points. *)
Definition stepOk (denseIndex : option (SpatialIndex SpawnXYZ))
    (bound : Num.ext) (avoidRadius : Q) (a b : SpawnXYZ) : Prop :=
  Num.gt_ext (dist2 (xy_of a) (xy_of b)) bound = false /\
  segmentAvoidsDense (xy_of a) (xy_of b) denseIndex avoidRadius = true.

(** A candidate the loop may pick. *)
Definition eligible (denseIndex : option (SpatialIndex SpawnXYZ))
    (bound : Num.ext) (avoidRadius : Q) (visited : gset Z)
    (current b : SpawnXYZ) : Prop :=
  (spawn_id b ∉ visited) /\ stepOk denseIndex bound avoidRadius current b.

(** What every route under construction satisfies. *)
Record routeInv (safePoints : list SpawnXYZ)
    (denseIndex : option (SpatialIndex SpawnXYZ)) (bound : Num.ext)
    (avoidRadius : Q) (route : list SpawnXYZ) (visited : gset Z) : Prop :=
  mkInv {
    inv_nonempty : route <> [];
    inv_visited : forall i : Z, i ∈ visited <-> i ∈ map spawn_id route;
    inv_nodup : NoDup (map spawn_id route);
    inv_safe : Forall (fun p => p ∈ safePoints) route;
    inv_steps : consecutive (stepOk denseIndex bound avoidRadius) route
  }.

(** The cell an item is filed under. *)
Definition cellOf {T : Type} (getXY : T -> XY) (cs : Q) (item : T) : Z * Z :=
  cellKey (toCell (xy_x (getXY item)) cs) (toCell (xy_y (getXY item)) cs).

(** The bucket of a cell, empty when the map has none. *)
Definition bucketAt {T : Type} (m : gmap (Z * Z) (list T)) (key : Z * Z)
    : list T :=
  default [] (m !! key).

(** The sum of [f] over a list. *)
Definition sumZ {A : Type} (f : A -> Z) (l : list A) : Z :=
  foldr (fun x acc => f x + acc) 0 l.

#[global] Instance Qle_decision (a b : Q) : Decision (a <= b)%Q :=
  match Qlt_le_dec b a with
  | left H => right (Qlt_not_le _ _ H)
  | right H => left H
  end.

(** The count the neighbour map is specified by: the points of the list, the
    point itself among them, whose planar squared distance to [p] is at most
    [radius * radius]. *)
Definition bruteForceCount (points : list SpawnXYZ) (radius : Q)
    (p : SpawnXYZ) : Z :=
  Z.of_nat (length (filter (fun other =>
    (dist2 (xy_of other) (xy_of p) <= radius * radius)%Q) points)).

(** The squared distance from [p] to the closest point of the segment from
    [a] to [b], as the contract words it: the projection parameter [t] clamped
    to [0, 1], with no special case.  (For [a = b] the quotient is 0 and the
    closest point is [a].) *)
Definition closestPointDist2 (p a b : XY) : Q :=
  let abx := (xy_x b - xy_x a)%Q in
  let aby := (xy_y b - xy_y a)%Q in
  let t := (((xy_x p - xy_x a) * abx + (xy_y p - xy_y a) * aby)
            / (abx * abx + aby * aby))%Q in
  let t := Num.max 0 (Num.min 1 t) in
  let dx := (xy_x p - (xy_x a + t * abx))%Q in
  let dy := (xy_y p - (xy_y a + t * aby))%Q in
  (dx * dx + dy * dy)%Q.

(** [p] is the midpoint of the segment from [a] to [b]. *)
Definition isMidpoint (p a b : XY) : Prop :=
  (2 * xy_x p == xy_x a + xy_x b)%Q /\ (2 * xy_y p == xy_y a + xy_y b)%Q.

(** The squared length of the segment from [a] to [b]. *)
Definition segLen2 (a b : XY) : Q :=
  ((xy_x b - xy_x a) * (xy_x b - xy_x a)
   + (xy_y b - xy_y a) * (xy_y b - xy_y a))%Q.

#[global] Instance Qlt_decision (a b : Q) : Decision (a < b)%Q :=
  match Qlt_le_dec a b with
  | left H => left H
  | right H => right (Qle_not_lt _ _ H)
  end.

(** The point of the segment from [a] to [b] at parameter [s]. *)
Definition pointAt (a b : XY) (s : Q) : XY :=
  mkXY (xy_x a + s * (xy_x b - xy_x a)) (xy_y a + s * (xy_y b - xy_y a)).

(** The squared length of the step that reaches [b] from the last waypoint,
    0 when there is none. *)
Definition stepFrom (c : option SpawnXYZ) (b : SpawnXYZ) : Q :=
  match c with
  | Some c => dist2 (xy_of c) (xy_of b)
  | None => 0
  end.

(** [travelR2] of [generateAutoRoute]: how far from the centre a dense point
    may be and still bar a step. *)
Definition travelR2Of (settings : AutoRouteSettings) : Num.ext :=
  let maxAreaRadius := Settings.maxAreaRadius settings in
  let avoidRadius := Settings.avoidDenseTravelRadius settings in
  if Num.ltb 0 maxAreaRadius && Num.ltb 0 avoidRadius
  then Num.Fin ((maxAreaRadius + avoidRadius) * (maxAreaRadius + avoidRadius))
  else Num.PosInf.

(** [safeIndex], [stepNeighborCounts] and [startCandidates] of
    [generateAutoRoute], and [buildGreedyPath] with what it captures
    there. *)
Definition safeIndexOf (points : list SpawnXYZ) (denseIds : gset Z)
    (settings : AutoRouteSettings) : option (SpatialIndex SpawnXYZ) :=
  let maxStep := Settings.maxStepDistance settings in
  if Num.ltb 0 maxStep
  then Some (buildSpatialIndex (safeInArea points denseIds settings) maxStep xy_of)
  else None.

Definition stepNeighborCountsOf (points : list SpawnXYZ) (denseIds : gset Z)
    (settings : AutoRouteSettings) : gmap Z Z :=
  let maxStep := Settings.maxStepDistance settings in
  if Num.ltb 0 maxStep
  then computeNeighborCounts (safeInArea points denseIds settings) maxStep
  else ∅.

Definition startCandidatesOf (points : list SpawnXYZ) (denseIds : gset Z)
    (settings : AutoRouteSettings) : result (list SpawnXYZ) :=
  let safeInArea := safeInArea points denseIds settings in
  let stepNeighborCounts := stepNeighborCountsOf points denseIds settings in
  let scoredStarts :=
    sort compareStarts
      (map (fun point =>
         mkScored point
           (countOr1 stepNeighborCounts (spawn_id point) - 1)
           (dist2 (Settings.center settings) (xy_of point)))
         safeInArea) in
  let maxStartCandidates := Z.min 12 (Z.of_nat (length scoredStarts)) in
  let* startCandidates :=
    takeStarts scoredStarts (seq 0 (Z.to_nat maxStartCandidates)) [] in
  Ok (match closestToCenter (Settings.center settings) safeInArea with
      | Some c =>
          if negb (existsb (fun point => spawn_id point =? spawn_id c)
                     startCandidates)
          then startCandidates ++ [c] else startCandidates
      | None => startCandidates
      end).

Definition greedyFrom (points : list SpawnXYZ) (denseIds : gset Z)
    (settings : AutoRouteSettings) (start : SpawnXYZ)
    : result (list SpawnXYZ) :=
  buildGreedyPath settings (safeInArea points denseIds settings)
    (safeIndexOf points denseIds settings)
    (denseIndexOf points denseIds settings)
    (stepNeighborCountsOf points denseIds settings)
    (cappedWaypoints (Settings.maxWaypoints settings))
    (Settings.maxStepDistance settings) (maxStep2Of settings)
    (Settings.avoidDenseTravelRadius settings) (Some start).

(** The step from [c] to [q] is not open to the route: too long for a
    bounded step, or barred by a dense point. *)
Definition barred (points : list SpawnXYZ) (denseIds : gset Z)
    (settings : AutoRouteSettings) (c q : SpawnXYZ) : Prop :=
  ((0 < Settings.maxStepDistance settings)%Q /\
   (Settings.maxStepDistance settings * Settings.maxStepDistance settings
    < dist2 (xy_of c) (xy_of q))%Q) \/
  segmentAvoidsDense (xy_of c) (xy_of q)
    (denseIndexOf points denseIds settings)
    (Settings.avoidDenseTravelRadius settings) = false.

(** [b] lies more than 1e-9 above [a]. *)
Definition apart (a b : Q) : Prop := (a + Num.lit_1e_9 < b)%Q.

(** What every set of tuned parameters satisfies: a positive cluster radius,
    a step more than 1.05 times it, the avoidance radius derived from both,
    and a positive dirty-support radius. *)
Definition tunedOk (p : TunedAutoRouteParams) : Prop :=
  (0 < Tuned.clusterRadius p)%Q /\
  (Tuned.clusterRadius p * (21 # 20) < Tuned.maxStepDistance p)%Q /\
  Tuned.avoidDenseTravelRadius p
  = Num.max (Tuned.clusterRadius p * (23 # 20))
      (Tuned.maxStepDistance p * (1 # 4)) /\
  (0 < Tuned.avoidDenseTravelRadius p)%Q /\
  (0 < Tuned.dirtySupportRadius p)%Q.

(** The bounds [estimateBaseSpacing] has after the points [seen]: still the
    infinite ones before any point, the bounding box of [seen] after. *)
Definition boxOf (b : Bounds) (seen : list SpawnXYZ) : Prop :=
  match minX b, maxX b, minY b, maxY b with
  | Num.Fin x0, Num.Fin x1, Num.Fin y0, Num.Fin y1 =>
      (forall p, p ∈ seen ->
         (x0 <= spawn_x p)%Q /\ (spawn_x p <= x1)%Q /\
         (y0 <= spawn_y p)%Q /\ (spawn_y p <= y1)%Q) /\
      (exists p, p ∈ seen /\ spawn_x p = x0) /\
      (exists p, p ∈ seen /\ spawn_x p = x1) /\
      (exists p, p ∈ seen /\ spawn_y p = y0) /\
      (exists p, p ∈ seen /\ spawn_y p = y1)
  | Num.PosInf, Num.NegInf, Num.PosInf, Num.NegInf => seen = []
  | _, _, _, _ => False
  end.

(** All the points are at one position. *)
Definition coincide (points : list SpawnXYZ) : Prop :=
  forall a b : SpawnXYZ,
    a ∈ points -> b ∈ points ->
    (spawn_x a == spawn_x b)%Q /\ (spawn_y a == spawn_y b)%Q.

(** Two points with equal coordinates. *)
Definition sameXY (p q : XY) : Prop :=
  (xy_x p == xy_x q)%Q /\ (xy_y p == xy_y q)%Q.

(** The determinant [a * e - b * d] of an affine map. *)
Definition detOf (affine : AffineWorldToImage) : Q :=
  (Affine.a affine * Affine.e affine - Affine.b affine * Affine.d affine)%Q.

(** The product of a row and a vector, and a vector solving a system. *)
Definition dot (r x : list Q) : Q :=
  foldr Qplus 0%Q (zip_with Qmult r x).

Definition solves (m : list (list Q)) (v x : list Q) : Prop :=
  Forall2 (fun r b => (dot r x == b)%Q) m v.

(** The first [k] columns of [m] are those of the identity matrix. *)
Definition unitColumns (k : nat) (m : list (list Q)) : Prop :=
  forall (i j : nat) (r : list Q) (q : Q),
    (j < k)%nat -> m !! i = Some r -> r !! j = Some q ->
    (q == if Nat.eqb i j then 1 else 0)%Q.

Definition is3x3 (m : list (list Q)) (v : list Q) : Prop :=
  length m = 3%nat /\ Forall (fun r => length r = 3%nat) m /\
  length v = 3%nat.

(** ** Sample inputs *)

(** A point at integer coordinates, at height 0. *)
Definition spawnAt (id x y : Z) : SpawnXYZ :=
  mkSpawn id (inject_Z x) (inject_Z y) 0.

(** Four points, the last one far away, and the settings of the scenario:
    centre (0,0), area radius 50, step 15, ten waypoints, no avoidance. *)
Definition scenarioPoints : list SpawnXYZ :=
  [spawnAt 1 0 0; spawnAt 2 10 0; spawnAt 3 20 0; spawnAt 4 100 100].

Definition scenarioSettings : AutoRouteSettings :=
  Settings.mk (mkXY 0 0) 50 15 10 0.

(** The same four points with other ids. *)
Definition scenarioWithIds (ids : list Z) : list SpawnXYZ :=
  zip_with (fun id xy => spawnAt id (fst xy) (snd xy)) ids
    [(0, 0); (10, 0); (20, 0); (100, 100)].

(** A segment shorter than a millionth, its midpoint, and a smaller radius. *)
Definition shortA : XY := mkXY 0 0.
Definition shortB : XY := mkXY (2 # 10000000) 0.
Definition shortMid : SpawnXYZ := mkSpawn 1 (1 # 10000000) 0 0.
Definition tinyRadius : Q := 1 # 100000000.

(** * Properties *)

(** ** The definitions on small inputs *)

Example counts_sample :
  computeNeighborCounts scenarioPoints 15 !! 2 = Some 3 /\
  computeNeighborCounts scenarioPoints 15 !! 4 = Some 1 /\
  computeNeighborCounts scenarioPoints 15 !! 5 = None.
Proof. repeat split; vm_compute; reflexivity. Qed.

Example bruteForceCount_sample :
  bruteForceCount scenarioPoints 15 (spawnAt 2 10 0) = 3.
Proof. vm_compute. reflexivity. Qed.

Example query_sample :
  queryPointsWithin (buildSpatialIndex scenarioPoints 15 xy_of) (mkXY 0 0) 15
  = [spawnAt 1 0 0; spawnAt 2 10 0].
Proof. vm_compute. reflexivity. Qed.

(** A dense point 3 off the middle of a segment blocks it at radius 4 and
    lets it pass at radius 2. *)
Example avoidance_sample :
  segmentAvoidsDense (mkXY 0 0) (mkXY 10 0)
    (Some (buildSpatialIndex [spawnAt 9 5 3] 4 xy_of)) 4 = false /\
  segmentAvoidsDense (mkXY 0 0) (mkXY 10 0)
    (Some (buildSpatialIndex [spawnAt 9 5 3] 2 xy_of)) 2 = true.
Proof. split; vm_compute; reflexivity. Qed.

(** On the short segment the distance of the code is the distance to [a]. *)
Example short_segment_sample :
  (dist2PointToSegment (xy_of shortMid) shortA shortB == 1 # 100000000000000)%Q /\
  (closestPointDist2 (xy_of shortMid) shortA shortB == 0)%Q.
Proof. split; vm_compute; reflexivity. Qed.

(** A dense point between two safe ones: the direct step is barred, and the
    route stops at one waypoint. *)
Example avoidance_route_sample :
  route <$> match generateAutoRoute
                    [spawnAt 1 0 0; spawnAt 2 10 0; spawnAt 3 20 0] {[2]}
                    (Settings.mk (mkXY 0 0) 0 25 10 5) with
            | Ok r => Some r
            | Throw _ => None
            end
  = Some [spawnAt 1 0 0].
Proof. vm_compute. reflexivity. Qed.

Example sort_sample :
  sort (fun a b => (a - b)%Q) [3; 1; 2; 1]%Q = [1; 1; 2; 3]%Q.
Proof. vm_compute. reflexivity. Qed.

Example tuner_sample :
  exists params : TunedAutoRouteParams,
    tuneAutoRouteParams (fun q => inject_Z (Z.sqrt (Qfloor q)))
      (scenarioPoints ++ [spawnAt 5 50 50]) (mkXY 0 0) 3 = Ok (Some params) /\
    (Tuned.dirtySupportRadius params == 264)%Q.
Proof. eexists. split; [vm_compute; reflexivity | reflexivity]. Qed.

(** ** Comparisons *)

Lemma leb_le (a b : Q) : Num.leb a b = true <-> (a <= b)%Q.
Proof. apply Qle_bool_iff. Qed.

Lemma ltb_lt (a b : Q) : Num.ltb a b = true <-> (a < b)%Q.
Proof.
  unfold Num.ltb. rewrite negb_true_iff, <- not_true_iff_false, Qle_bool_iff.
  split; [apply Qnot_le_lt | apply Qlt_not_le].
Qed.

Lemma ltb_ge (a b : Q) : Num.ltb a b = false <-> (b <= a)%Q.
Proof.
  unfold Num.ltb. rewrite negb_false_iff. apply Qle_bool_iff.
Qed.

Lemma leb_gt (a b : Q) : Num.leb a b = false <-> (b < a)%Q.
Proof.
  rewrite <- not_true_iff_false, leb_le.
  split; [apply Qnot_le_lt | apply Qlt_not_le].
Qed.

Lemma max_spec (a b : Q) :
  ((a <= b)%Q /\ Num.max a b = b) \/ ((b < a)%Q /\ Num.max a b = a).
Proof.
  unfold Num.max. destruct (Num.leb a b) eqn:E.
  - left. split; [by apply leb_le | done].
  - right. split; [by apply leb_gt | done].
Qed.

Lemma min_spec (a b : Q) :
  ((a <= b)%Q /\ Num.min a b = a) \/ ((b < a)%Q /\ Num.min a b = b).
Proof.
  unfold Num.min. destruct (Num.leb a b) eqn:E.
  - left. split; [by apply leb_le | done].
  - right. split; [by apply leb_gt | done].
Qed.

(** ** Routes: the loop of [buildGreedyPath] *)

Lemma consecutive_single R (a : SpawnXYZ) : consecutive R [a].
Proof. intros i x y Hx Hy. destruct i; discriminate. Qed.

Lemma consecutive_nil R : consecutive R [].
Proof. intros i x y Hx Hy. discriminate. Qed.

Lemma consecutive_snoc R (route : list SpawnXYZ) (c b : SpawnXYZ) :
  consecutive R route -> last route = Some c -> R c b ->
  consecutive R (route ++ [b]).
Proof.
  intros Hr Hlast Hcb i x y Hx Hy.
  destruct (decide (S i < length route)%nat) as [Hlt|Hge].
  - rewrite lookup_app_l in Hx by lia. rewrite lookup_app_l in Hy by lia.
    eauto.
  - assert (S i = length route) as Hi.
    { apply lookup_lt_Some in Hy. rewrite length_app in Hy. simpl in Hy. lia. }
    rewrite lookup_app_l in Hx by lia.
    rewrite last_lookup in Hlast.
    replace (pred (length route)) with i in Hlast by lia.
    rewrite Hi, lookup_app_r, Nat.sub_diag in Hy by lia.
    simpl in Hy. congruence.
Qed.

Section GreedyFacts.

Variable settings : AutoRouteSettings.
Variable safePoints : list SpawnXYZ.
Variable safeIndex : option (SpatialIndex SpawnXYZ).
Variable denseIndex : option (SpatialIndex SpawnXYZ).
Variable stepNeighborCounts : gmap Z Z.
Variable maxWaypoints : Z.
Variable maxStep : Q.
Variable maxStep2 : Num.ext.
Variable avoidRadius : Q.

(** What the grid returns are points it was built from. *)
Hypothesis index_sound :
  forall (index : SpatialIndex SpawnXYZ) (c : XY) (p : SpawnXYZ),
    safeIndex = Some index ->
    p ∈ queryPointsWithin index c maxStep -> p ∈ safePoints.

Local Abbreviation consider' :=
  (consider settings safePoints safeIndex denseIndex stepNeighborCounts maxStep
     maxStep2 avoidRadius).
Local Abbreviation greedyLoop' :=
  (greedyLoop settings safePoints safeIndex denseIndex stepNeighborCounts
     maxWaypoints maxStep maxStep2 avoidRadius).
Local Abbreviation eligible' := (eligible denseIndex maxStep2 avoidRadius).
Local Abbreviation routeInv' :=
  (routeInv safePoints denseIndex maxStep2 avoidRadius).

Lemma consider_best (visited : gset Z) (current : SpawnXYZ) (st : Pick)
    (candidate : SpawnXYZ) :
  best (consider' visited current st candidate) = best st \/
  (best (consider' visited current st candidate) = Some candidate /\
   eligible' visited current candidate).
Proof.
  unfold consider, eligible, stepOk.
  destruct (spawn_id candidate =? spawn_id current); [by left|].
  case_bool_decide as Hv; [by left|].
  destruct (Num.gt_ext _ maxStep2) eqn:Hstep; [by left|].
  destruct (segmentAvoidsDense _ _ _ _) eqn:Hseg; simpl; [|by left].
  repeat match goal with
         | |- context [if ?c then _ else _] => destruct c
         end; simpl; auto.
Qed.

Lemma pick_fold (visited : gset Z) (current : SpawnXYZ)
    (candidates : list SpawnXYZ) (st : Pick) :
  best (fold_left (consider' visited current) candidates st) = best st \/
  exists b : SpawnXYZ,
    best (fold_left (consider' visited current) candidates st) = Some b /\
    b ∈ candidates /\ eligible' visited current b.
Proof.
  revert st. induction candidates as [|cand rest IH]; intros st; simpl.
  - by left.
  - destruct (IH (consider' visited current st cand)) as [Heq|(b & Hb & Hin & He)].
    + rewrite Heq.
      destruct (consider_best visited current st cand) as [H|[H He]].
      * by left.
      * right. exists cand. split; [done|]. split; [apply list_elem_of_here | done].
    + right. exists b. split; [done|]. split; [by apply list_elem_of_further | done].
Qed.

Lemma candidates_safe (current : SpawnXYZ) (p : SpawnXYZ) :
  p ∈ match indexed safeIndex maxStep maxStep2 with
      | Some index => queryPointsWithin index (xy_of current) maxStep
      | None => safePoints
      end ->
  p ∈ safePoints.
Proof.
  unfold indexed. destruct safeIndex as [index|] eqn:Hidx; [|done].
  destruct (Num.ltb 0 maxStep && Num.isFinite maxStep2); [|done].
  intros Hp. by eapply index_sound.
Qed.

Lemma routeInv_snoc (route : list SpawnXYZ) (visited : gset Z)
    (current b : SpawnXYZ) :
  routeInv' route visited -> last route = Some current ->
  b ∈ safePoints -> eligible' visited current b ->
  routeInv' (route ++ [b]) ({[spawn_id b]} ∪ visited).
Proof.
  intros [Hne Hvis Hnd Hsafe Hsteps] Hlast Hb (Hnv & Hstep).
  split.
  - by destruct route.
  - intros i. rewrite map_app, elem_of_app, elem_of_union, elem_of_singleton.
    simpl. rewrite list_elem_of_singleton, Hvis. tauto.
  - rewrite map_app. apply NoDup_app. split; [done|]. split.
    + intros i Hi. simpl. rewrite list_elem_of_singleton. intros ->.
      apply Hnv. by apply Hvis.
    + simpl. apply NoDup_singleton.
  - apply Forall_app. split; [done|]. by apply Forall_singleton.
  - by apply consecutive_snoc with current.
Qed.

(** The loop returns, with at most [maxWaypoints] waypoints, whenever it has
    one turn left per missing waypoint. *)
Lemma greedyLoop_ok (fuel : nat) :
  forall (route : list SpawnXYZ) (visited : gset Z),
    routeInv' route visited ->
    Z.of_nat (length route) <= maxWaypoints ->
    maxWaypoints - Z.of_nat (length route) <= Z.of_nat fuel ->
    exists (route' : list SpawnXYZ) (visited' : gset Z),
      greedyLoop' fuel route visited = Ok route' /\
      routeInv' route' visited' /\
      Z.of_nat (length route') <= maxWaypoints.
Proof.
  induction fuel as [|fuel IH]; intros route visited Hinv Hlen Hfuel.
  - exists route, visited. simpl.
    destruct (Z.ltb_spec (Z.of_nat (length route)) maxWaypoints); [lia|done].
  - simpl.
    destruct (Z.ltb_spec (Z.of_nat (length route)) maxWaypoints) as [Hlt|Hge]; simpl.
    2:{ exists route, visited. done. }
    destruct (last route) as [current|] eqn:Hlast.
    2:{ apply last_None in Hlast. by destruct Hinv. }
    simpl.
    match goal with
    | |- context [fold_left ?f ?cands noPick] =>
        destruct (pick_fold visited current cands noPick)
          as [Hnone|(b & Hb & Hin & He)]
    end.
    + rewrite Hnone. simpl. exists route, visited. done.
    + rewrite Hb.
      apply candidates_safe in Hin.
      destruct (IH (route ++ [b]) ({[spawn_id b]} ∪ visited)) as (r' & v' & Hr' & Hi' & Hl').
      * by eapply routeInv_snoc.
      * rewrite length_app. simpl. lia.
      * rewrite length_app. simpl. lia.
      * exists r', v'. done.
Qed.

Lemma buildGreedyPath_ok (start : SpawnXYZ) :
  start ∈ safePoints -> 1 <= maxWaypoints ->
  exists (route' : list SpawnXYZ) (visited' : gset Z),
    buildGreedyPath settings safePoints safeIndex denseIndex stepNeighborCounts
      maxWaypoints maxStep maxStep2 avoidRadius (Some start) = Ok route' /\
    routeInv' route' visited' /\
    Z.of_nat (length route') <= maxWaypoints.
Proof.
  intros Hstart Hmax. unfold buildGreedyPath. simpl.
  apply greedyLoop_ok.
  - split.
    + done.
    + intros i. simpl. rewrite elem_of_singleton, list_elem_of_singleton. done.
    + simpl. apply NoDup_singleton.
    + by apply Forall_singleton.
    + apply consecutive_single.
  - simpl. lia.
  - simpl. lia.
Qed.

End GreedyFacts.

(** ** The grid holds exactly the items it was built from *)

Section GridFacts.

Context {T : Type}.
Variable getXY : T -> XY.
Variable cs : Q.

Local Abbreviation cellOf' := (cellOf getXY cs).

Lemma bucketAt_push (m : gmap (Z * Z) (list T)) (item : T) (key : Z * Z) :
  bucketAt (bucket_push getXY cs m item) key =
  bucketAt m key ++ (if decide (cellOf' item = key) then [item] else []).
Proof.
  unfold bucketAt, bucket_push. fold (cellOf getXY cs item).
  destruct (m !! cellOf' item) as [bucket|] eqn:Hb.
  - case_decide as Hk.
    + subst key. by rewrite lookup_insert_eq, Hb.
    + rewrite lookup_insert_ne by done. by rewrite app_nil_r.
  - case_decide as Hk.
    + subst key. by rewrite lookup_insert_eq, Hb.
    + rewrite lookup_insert_ne by done. by rewrite app_nil_r.
Qed.

Lemma bucketAt_fold (items : list T) (m : gmap (Z * Z) (list T)) (key : Z * Z) :
  bucketAt (fold_left (bucket_push getXY cs) items m) key =
  bucketAt m key ++ filter (fun item => cellOf' item = key) items.
Proof.
  revert m. induction items as [|item items IH]; intros m; simpl.
  - by rewrite app_nil_r.
  - rewrite IH, bucketAt_push, filter_cons.
    case_decide; by rewrite <- app_assoc.
Qed.

(** No bucket of a built grid is empty. *)
Lemma push_nonempty (m : gmap (Z * Z) (list T)) (item : T) :
  (forall key, m !! key <> Some []) ->
  forall key, bucket_push getXY cs m item !! key <> Some [].
Proof.
  intros Hm key. unfold bucket_push. fold (cellOf getXY cs item).
  destruct (m !! cellOf' item) as [bucket|] eqn:Hb.
  - destruct (decide (cellOf' item = key)) as [<-|Hk].
    + rewrite lookup_insert_eq. intros [= H]. by destruct bucket.
    + by rewrite lookup_insert_ne.
  - destruct (decide (cellOf' item = key)) as [<-|Hk].
    + by rewrite lookup_insert_eq.
    + by rewrite lookup_insert_ne.
Qed.

Lemma fold_nonempty (items : list T) (m : gmap (Z * Z) (list T)) :
  (forall key, m !! key <> Some []) ->
  forall key, fold_left (bucket_push getXY cs) items m !! key <> Some [].
Proof.
  revert m. induction items as [|item items IH]; intros m Hm; simpl; [done|].
  apply IH. by apply push_nonempty.
Qed.

End GridFacts.

Lemma build_bucketAt {T : Type} (items : list T) (cellSize : Q)
    (getXY : T -> XY) (key : Z * Z) :
  bucketAt (cells (buildSpatialIndex items cellSize getXY)) key =
  filter (fun item => cellOf getXY (Num.max Num.lit_1e_6 cellSize) item = key)
    items.
Proof.
  unfold buildSpatialIndex. simpl. by rewrite bucketAt_fold.
Qed.

Lemma build_cellSize_pos {T : Type} (items : list T) (c : Q) (getXY : T -> XY) :
  (0 < cellSize (buildSpatialIndex items c getXY))%Q.
Proof.
  unfold buildSpatialIndex. simpl.
  destruct (max_spec Num.lit_1e_6 c) as [[H ->]|[H ->]];
    unfold Num.lit_1e_6 in *; lra.
Qed.

(** Reading a bucket through [bucketAt] when a missing bucket counts as an
    empty one. *)
Lemma lookup_bucketAt {T A : Type} (m : gmap (Z * Z) (list T)) (key : Z * Z)
    (f : list T -> A) (a : A) :
  f [] = a ->
  match m !! key with
  | None => a
  | Some bucket => f bucket
  end = f (bucketAt m key).
Proof.
  intros Ha. unfold bucketAt. by destruct (m !! key).
Qed.

Lemma query_sound (items : list SpawnXYZ) (c : Q) (center : XY) (radius : Q)
    (p : SpawnXYZ) :
  p ∈ queryPointsWithin (buildSpatialIndex items c xy_of) center radius ->
  p ∈ items /\ within center (radius * radius) p = true.
Proof.
  unfold queryPointsWithin.
  destruct (negb (Num.ltb 0 radius)); [by rewrite elem_of_nil|].
  destruct (_ =? 0); [by rewrite elem_of_nil|].
  rewrite list_elem_of_In, in_flat_map. intros (dy & _ & Hp).
  rewrite in_flat_map in Hp. destruct Hp as (dx & _ & Hp).
  rewrite (lookup_bucketAt _ _
             (fun bucket => filter (fun point => within center (radius * radius) point = true) bucket) [])
    in Hp by done.
  rewrite build_bucketAt in Hp.
  apply list_elem_of_In in Hp.
  rewrite !list_elem_of_filter in Hp. tauto.
Qed.

(** ** Sorting keeps the elements *)

Lemma sort_insert_perm {A : Type} (cmp : A -> A -> Q) (a : A) (l : list A) :
  sort_insert cmp a l ≡ₚ a :: l.
Proof.
  induction l as [|b l IH]; simpl; [done|].
  destruct (Num.ltb (cmp a b) 0); [done|].
  rewrite IH. apply Permutation_swap.
Qed.

Lemma sort_perm {A : Type} (cmp : A -> A -> Q) (l : list A) :
  sort cmp l ≡ₚ l.
Proof.
  unfold sort.
  assert (forall acc, fold_left (fun acc a => sort_insert cmp a acc) l acc ≡ₚ l ++ acc)
    as H.
  { induction l as [|a l IH]; intros acc; simpl; [done|].
    rewrite IH, sort_insert_perm. by rewrite Permutation_middle. }
  by rewrite H, app_nil_r.
Qed.

(** ** Start candidates *)

Lemma takeStarts_ok (scoredStarts : list ScoredStart) (indices : list nat)
    (acc : list SpawnXYZ) :
  Forall (fun index => (index < length scoredStarts)%nat) indices ->
  exists starts : list SpawnXYZ,
    takeStarts scoredStarts indices acc = Ok starts /\
    (forall p, p ∈ starts -> p ∈ acc \/ p ∈ map point scoredStarts) /\
    (length acc + length indices = length starts)%nat.
Proof.
  revert acc. induction indices as [|index rest IH]; intros acc Hall; simpl.
  - exists acc. split; [done|]. split; [auto | lia].
  - apply Forall_cons in Hall as [Hi Hrest].
    destruct (lookup_lt_is_Some_2 scoredStarts index Hi) as [s Hs].
    rewrite Hs. simpl.
    destruct (IH (acc ++ [point s]) Hrest) as (starts & Hok & Hin & Hlen).
    exists starts. split; [done|]. split.
    + intros p Hp. destruct (Hin p Hp) as [H|H]; [|by right].
      apply elem_of_app in H as [H|H]; [by left|].
      apply list_elem_of_singleton in H as ->. right.
      apply list_elem_of_fmap. exists s. split; [done|].
      by eapply list_elem_of_lookup_2.
    + rewrite length_app in Hlen. simpl in Hlen. lia.
Qed.

Lemma closestToCenter_in (center : XY) (points : list SpawnXYZ) (c : SpawnXYZ) :
  closestToCenter center points = Some c -> c ∈ points.
Proof.
  unfold closestToCenter.
  assert (forall st,
            fst (fold_left (closestStep center) points st) = Some c ->
            fst st = Some c \/ c ∈ points) as H.
  { induction points as [|p points IH]; intros st Hst; simpl in *; [by left|].
    destruct (IH _ Hst) as [H|H].
    - unfold closestStep in H. destruct (Num.lt_ext _ _); simpl in H.
      + injection H as ->. right. apply list_elem_of_here.
      + by left.
    - right. by apply list_elem_of_further. }
  intros Hc. by destruct (H _ Hc).
Qed.

(** ** Choosing among the starts *)

Lemma bestOfStarts_ok (build : option SpawnXYZ -> result (list SpawnXYZ))
    (Good : list SpawnXYZ -> Prop) (starts : list SpawnXYZ) :
  (forall s, s ∈ starts -> exists r, build (Some s) = Ok r /\ Good r) ->
  forall (bestRoute : list SpawnXYZ) (bestCost : Q),
    Good bestRoute ->
    exists r, bestOfStarts build starts bestRoute bestCost = Ok r /\ Good r.
Proof.
  induction starts as [|s starts IH]; intros Hbuild bestRoute bestCost Hgood; simpl.
  - by exists bestRoute.
  - destruct (Hbuild s) as (r & Hr & Hgr); [apply list_elem_of_here|].
    rewrite Hr. simpl.
    assert (forall s', s' ∈ starts -> exists r, build (Some s') = Ok r /\ Good r)
      as Hrest.
    { intros s' Hs'. apply Hbuild. by apply list_elem_of_further. }
    repeat match goal with
           | |- context [if ?c then _ else _] => destruct c
           end; by apply IH.
Qed.

(** ** [generateAutoRoute]: it returns, and what it returns *)

Lemma cappedWaypoints_nonneg (w : Q) : 0 <= cappedWaypoints w.
Proof.
  unfold cappedWaypoints. destruct (Z.ltb_spec 0 (Z.max 0 (Num.floor w))); lia.
Qed.

Lemma cappedWaypoints_max (w : Q) : cappedWaypoints w = Z.max 0 (Num.floor w).
Proof.
  unfold cappedWaypoints. destruct (Z.ltb_spec 0 (Z.max 0 (Num.floor w))); lia.
Qed.

Lemma generateAutoRoute_spec (points : list SpawnXYZ) (denseIds : gset Z)
    (settings : AutoRouteSettings) :
  exists r : AutoRouteResult,
    generateAutoRoute points denseIds settings = Ok r /\
    stats r =
      Stats.mk (Z.of_nat (length points))
        (Z.of_nat (length (inArea points settings)))
        (Z.of_nat (length (denseInArea points denseIds settings)))
        (Z.of_nat (length (safeInArea points denseIds settings)))
        (Z.of_nat (length (route r))) /\
    (cappedWaypoints (Settings.maxWaypoints settings) = 0 \/
     safeInArea points denseIds settings = [] -> route r = []) /\
    NoDup (map spawn_id (route r)) /\
    Forall (fun p => p ∈ safeInArea points denseIds settings) (route r) /\
    consecutive
      (stepOk (denseIndexOf points denseIds settings) (maxStep2Of settings)
         (Settings.avoidDenseTravelRadius settings)) (route r) /\
    Z.of_nat (length (route r)) <= cappedWaypoints (Settings.maxWaypoints settings).
Proof.
  unfold generateAutoRoute. cbv zeta.
  fold (maxStep2Of settings).
  set (safe := safeInArea points denseIds settings).
  set (cap := cappedWaypoints (Settings.maxWaypoints settings)).
  pose proof (cappedWaypoints_nonneg (Settings.maxWaypoints settings)) as Hcap.
  fold cap in Hcap.
  destruct (Z.eqb_spec cap 0) as [Hc0|Hc0]; simpl.
  { eexists. split; [reflexivity|]. simpl.
    split; [reflexivity|]. split; [reflexivity|]. split; [apply NoDup_nil_2|].
    split; [apply Forall_nil_2|]. split; [apply consecutive_nil | lia]. }
  destruct (Z.eqb_spec (Z.of_nat (length safe)) 0) as [Hlen0|Hlen0]; simpl.
  { eexists. split; [reflexivity|]. simpl.
    split; [reflexivity|]. split; [reflexivity|]. split; [apply NoDup_nil_2|].
    split; [apply Forall_nil_2|]. split; [apply consecutive_nil | lia]. }
  set (safeIndex := if Num.ltb 0 (Settings.maxStepDistance settings)
                    then Some (buildSpatialIndex safe (Settings.maxStepDistance settings) xy_of)
                    else None).
  set (counts := if Num.ltb 0 (Settings.maxStepDistance settings)
                 then computeNeighborCounts safe (Settings.maxStepDistance settings)
                 else ∅).
  set (scored := sort compareStarts _).
  assert (forall p, p ∈ map point scored -> p ∈ safe) as Hscored.
  { intros p Hp. unfold scored in Hp. rewrite sort_perm in Hp.
    rewrite map_map in Hp. simpl in Hp. by rewrite map_id in Hp. }
  destruct (takeStarts_ok scored
              (seq 0 (Z.to_nat (Z.min 12 (Z.of_nat (length scored))))) [])
    as (starts & Hstarts & Hin & _).
  { apply Forall_forall. intros i Hi. apply list_elem_of_In, in_seq in Hi. lia. }
  rewrite Hstarts. simpl.
  set (starts' := match closestToCenter (Settings.center settings) safe with
                  | Some c => _
                  | None => starts
                  end).
  assert (forall p, p ∈ starts' -> p ∈ safe) as Hstarts'.
  { assert (forall p, p ∈ starts -> p ∈ safe) as Hs.
    { intros p Hp. destruct (Hin p Hp) as [H|H]; [by apply elem_of_nil in H|auto]. }
    unfold starts'.
    destruct (closestToCenter _ safe) as [c|] eqn:Hc; [|done].
    destruct (negb _); [|done].
    intros p Hp. apply elem_of_app in Hp as [Hp|Hp]; [auto|].
    apply list_elem_of_singleton in Hp as ->.
    by eapply closestToCenter_in. }
  set (build := buildGreedyPath settings safe safeIndex _ counts cap _ _ _).
  set (Good := fun r : list SpawnXYZ =>
         (exists visited,
            routeInv safe (denseIndexOf points denseIds settings)
              (maxStep2Of settings) (Settings.avoidDenseTravelRadius settings)
              r visited) /\
         Z.of_nat (length r) <= cap).
  assert (forall s, s ∈ safe -> exists r, build (Some s) = Ok r /\ Good r) as Hbuild.
  { intros s Hs.
    destruct (buildGreedyPath_ok settings safe safeIndex
                (denseIndexOf points denseIds settings) counts cap
                (Settings.maxStepDistance settings) (maxStep2Of settings)
                (Settings.avoidDenseTravelRadius settings)) with (start := s)
      as (r & v & Hr & Hinv & Hlen); [|done|lia|].
    - intros index c p Hidx Hp. unfold safeIndex in Hidx.
      destruct (Num.ltb 0 _); [|done]. injection Hidx as <-.
      by apply query_sound in Hp as [Hp _].
    - exists r. split; [done|]. split; [by exists v | done]. }
  set (first := match head starts' with
                | Some s => Some s
                | None => head safe
                end).
  assert (exists s, first = Some s /\ s ∈ safe) as (s0 & Hfirst & Hs0).
  { unfold first. destruct starts' as [|s rest] eqn:Hst; simpl.
    - destruct safe as [|s rest]; [done|]. exists s. split; [done|].
      apply list_elem_of_here.
    - exists s. split; [done|]. apply Hstarts'. apply list_elem_of_here. }
  rewrite Hfirst.
  destruct (Hbuild s0 Hs0) as (r0 & Hr0 & Hg0). rewrite Hr0. simpl.
  destruct (bestOfStarts_ok build Good (tail starts')) with
    (bestRoute := r0) (bestCost := routeCost r0) as (r & Hr & Hg); [|done|].
  { intros s Hs. apply Hbuild, Hstarts'.
    destruct starts'; [done|]. by apply list_elem_of_further. }
  rewrite Hr. simpl. eexists. split; [reflexivity|]. simpl.
  destruct Hg as [[v [Hne Hvis Hnd Hsafe Hsteps]] Hlen].
  split; [done|]. split.
  { intros [H|H]; [lia|]. fold safe in H. rewrite H in Hs0. by apply elem_of_nil in Hs0. }
  done.
Qed.

(** ** Sums and filters *)

Lemma fold_left_sum {A : Type} (F : Z -> A -> Z) (f : A -> Z) (l : list A) :
  (forall c x, F c x = c + f x) ->
  forall c0, fold_left F l c0 = c0 + sumZ f l.
Proof.
  intros HF. induction l as [|x l IH]; intros c0; simpl; [lia|].
  rewrite IH, HF. lia.
Qed.

Lemma sumZ_ext {A : Type} (f g : A -> Z) (l : list A) :
  (forall x, x ∈ l -> f x = g x) -> sumZ f l = sumZ g l.
Proof.
  induction l as [|x l IH]; intros H; simpl; [done|].
  rewrite H by apply list_elem_of_here.
  rewrite IH; [done|]. intros y Hy. apply H. by apply list_elem_of_further.
Qed.

Lemma length_filter_split {A : Type} (P R : A -> Prop)
    `{!forall x, Decision (P x)} `{!forall x, Decision (R x)} (l : list A) :
  (forall x, P x -> R x -> False) ->
  (length (filter P l) + length (filter R l))%nat =
  length (filter (fun x => P x \/ R x) l).
Proof.
  intros Hdisj. induction l as [|x l IH]; simpl; [done|].
  rewrite !filter_cons.
  destruct (decide (P x)) as [HP|HP]; destruct (decide (R x)) as [HR|HR];
    destruct (decide (P x \/ R x)) as [HPR|HPR];
    try (exfalso; tauto); try (exfalso; by eauto); rewrite ?length_cons; lia.
Qed.

Lemma length_filter_none {A : Type} (P : A -> Prop)
    `{!forall x, Decision (P x)} (l : list A) :
  (forall x, ~ P x) -> length (filter P l) = 0%nat.
Proof.
  intros HP. induction l as [|x l IH]; [done|].
  by rewrite filter_cons_False.
Qed.

(** Summing, over distinct offsets [v], the items whose key is [c + v] counts
    the items whose key is one of them. *)
Lemma sum_filter_keys {A : Type} (P : A -> Prop) `{!forall x, Decision (P x)}
    (k : A -> Z) (c : Z) (vs : list Z) (l : list A) :
  NoDup vs ->
  sumZ (fun v => Z.of_nat (length (filter (fun o => P o /\ k o = c + v) l))) vs =
  Z.of_nat (length (filter (fun o => P o /\ (k o - c) ∈ vs) l)).
Proof.
  intros Hnd. induction Hnd as [|v vs Hv Hnd IH]; simpl.
  - rewrite length_filter_none; [done|].
    intros o [_ Ho]. by apply elem_of_nil in Ho.
  - rewrite IH, <- Nat2Z.inj_add, length_filter_split.
    + f_equal. f_equal. apply list_filter_iff. intros o.
      rewrite elem_of_cons. split.
      * intros [[? ?]|[? ?]]; (split; [done|]); [left; lia | by right].
      * intros [? [?|?]]; [left; split; [done | lia] | by right].
    + intros o [_ Hk] [_ Hin]. apply Hv. by replace v with (k o - c) by lia.
Qed.

Lemma elem_of_zrange (lo hi v : Z) : v ∈ zrange lo hi <-> lo <= v <= hi.
Proof. unfold zrange. rewrite elem_of_seqZ. lia. Qed.

Lemma NoDup_zrange (lo hi : Z) : NoDup (zrange lo hi).
Proof. apply NoDup_seqZ. Qed.

(** ** Cells and distances *)

Lemma floor_le_lt (a b : Q) (n : Z) :
  (a <= b + inject_Z n)%Q -> Num.floor a <= Num.floor b + n.
Proof.
  intros Hab. unfold Num.floor.
  pose proof (Qfloor_le a) as Ha. pose proof (Qlt_floor b) as Hb.
  assert (inject_Z (Qfloor a) < inject_Z (Qfloor b + 1 + n))%Q as H.
  { rewrite !inject_Z_plus in *. simpl in *. lra. }
  rewrite <- Zlt_Qlt in H. lia.
Qed.

(** Two abscissas no more than [r] apart fall in cells no more than
    [ceil(r / c)] apart. *)
Lemma toCell_window (c r x0 x : Q) :
  (0 < c)%Q -> (x0 - r <= x)%Q -> (x <= x0 + r)%Q ->
  toCell x0 c - Num.ceil (r / c) <= toCell x c <= toCell x0 c + Num.ceil (r / c).
Proof.
  intros Hc Hlo Hhi. unfold toCell.
  pose proof (Qle_ceiling (r / c)) as HR. fold (Num.ceil (r / c)) in HR.
  pose proof (Qinv_lt_0_compat c Hc) as Hq.
  unfold Qdiv in *.
  assert (x * / c <= x0 * / c + r * / c)%Q as H1.
  { generalize dependent (/ c)%Q. intros q. intros. nra. }
  assert (x0 * / c - r * / c <= x * / c)%Q as H2.
  { generalize dependent (/ c)%Q. intros q. intros. nra. }
  split.
  - assert (Num.floor (x0 * / c) <= Num.floor (x * / c) + Num.ceil (r * / c)); [|lia].
    apply floor_le_lt. lra.
  - apply floor_le_lt. lra.
Qed.

Lemma toCell_mono (c x x' : Q) :
  (0 < c)%Q -> (x <= x')%Q -> toCell x c <= toCell x' c.
Proof.
  intros Hc Hx. unfold toCell, Num.floor. apply Qfloor_resp_le.
  unfold Qdiv. apply Qmult_le_compat_r; [done|].
  apply Qlt_le_weak. by apply Qinv_lt_0_compat.
Qed.

Lemma square_bound (dx dy r : Q) :
  (0 <= r)%Q -> (dx * dx + dy * dy <= r * r)%Q -> (- r <= dx)%Q /\ (dx <= r)%Q.
Proof. intros Hr H. split; nra. Qed.

Lemma within_spec (center : XY) (r2 : Q) (o : SpawnXYZ) :
  within center r2 o = true <-> (dist2 (xy_of o) center <= r2)%Q.
Proof. unfold within, dist2. simpl. apply leb_le. Qed.

(** ** The count of one point *)

Lemma count_fold (center : XY) (r2 : Q) (bucket : list SpawnXYZ) (c : Z) :
  fold_left (fun count other => if within center r2 other then count + 1 else count)
    bucket c =
  c + Z.of_nat (length (filter (fun o => within center r2 o = true) bucket)).
Proof.
  revert c. induction bucket as [|o bucket IH]; intros c; simpl; [lia|].
  rewrite IH, filter_cons.
  destruct (within center r2 o) eqn:Hw.
  - rewrite decide_True by done. rewrite length_cons. lia.
  - rewrite decide_False by done. lia.
Qed.

Lemma countAround_sum (index : SpatialIndex SpawnXYZ) (r2 : Q) (range : Z)
    (p : SpawnXYZ) :
  countAround index r2 range p =
  sumZ (fun dy =>
    sumZ (fun dx =>
      Z.of_nat (length (filter (fun o => within (xy_of p) r2 o = true)
        (bucketAt (cells index)
           (cellKey (toCell (spawn_x p) (cellSize index) + dx)
                    (toCell (spawn_y p) (cellSize index) + dy))))))
      (zrange (- range) range))
    (zrange (- range) range).
Proof.
  unfold countAround.
  erewrite fold_left_sum; [apply Z.add_0_l|].
  intros c dy. cbv beta.
  erewrite fold_left_sum; [reflexivity|].
  intros c' dx. cbv beta.
  rewrite (lookup_bucketAt _ _
    (fun bucket => fold_left (fun count other =>
       if within (xy_of p) r2 other then count + 1 else count) bucket c') c')
    by done.
  apply count_fold.
Qed.

(** The grid count of a point is the brute-force count. *)
Lemma countAround_brute (points : list SpawnXYZ) (radius : Q) (p : SpawnXYZ) :
  (0 < radius)%Q ->
  let index := buildSpatialIndex points radius xy_of in
  countAround index (radius * radius) (Num.ceil (radius / cellSize index)) p =
  bruteForceCount points radius p.
Proof.
  intros Hr index. rewrite countAround_sum.
  pose proof (build_cellSize_pos points radius xy_of) as Hc. fold index in Hc.
  set (c := cellSize index) in *.
  set (R := Num.ceil (radius / c)).
  set (kx := fun o : SpawnXYZ => toCell (spawn_x o) c).
  set (ky := fun o : SpawnXYZ => toCell (spawn_y o) c).
  set (W := fun o : SpawnXYZ => within (xy_of p) (radius * radius) o = true).
  rewrite (sumZ_ext _ (fun dy =>
    Z.of_nat (length (filter (fun o =>
      (W o /\ ky o = ky p + dy) /\ (kx o - kx p) ∈ zrange (- R) R) points)))).
  2:{ intros dy _.
      rewrite <- (sum_filter_keys (fun o => W o /\ ky o = ky p + dy) kx (kx p))
        by apply NoDup_zrange.
      apply sumZ_ext. intros dx _. unfold index at 1.
      rewrite build_bucketAt, list_filter_filter.
      f_equal. f_equal. apply list_filter_iff. intros o.
      change ((W o /\ (kx o, ky o) = (kx p + dx, ky p + dy)) <->
              ((W o /\ ky o = ky p + dy) /\ kx o = kx p + dx)).
      split.
      - intros [Hw [= Hx Hy]]. done.
      - intros [[Hw Hy] Hx]. split; [done|]. by rewrite Hx, Hy. }
  rewrite (sumZ_ext _ (fun dy =>
    Z.of_nat (length (filter (fun o =>
      (W o /\ (kx o - kx p) ∈ zrange (- R) R) /\ ky o = ky p + dy) points)))).
  2:{ intros dy _. f_equal. f_equal. apply list_filter_iff. intros o. tauto. }
  rewrite (sum_filter_keys (fun o => W o /\ (kx o - kx p) ∈ zrange (- R) R) ky (ky p))
    by apply NoDup_zrange.
  unfold bruteForceCount. f_equal. f_equal. apply list_filter_iff. intros o.
  unfold W. rewrite within_spec, !elem_of_zrange. split; [tauto|].
  intros Hd. split; [split; [done|]|].
  - unfold dist2 in Hd. simpl in Hd.
    apply square_bound in Hd as [H1 H2]; [|lra].
    pose proof (toCell_window c radius (spawn_x p) (spawn_x o) Hc) as H.
    unfold kx, R. lapply H; [|lra]. intros H'. lapply H'; [|lra]. lia.
  - unfold dist2 in Hd. simpl in Hd.
    rewrite Qplus_comm in Hd.
    apply square_bound in Hd as [H1 H2]; [|lra].
    pose proof (toCell_window c radius (spawn_y p) (spawn_y o) Hc) as H.
    unfold ky, R. lapply H; [|lra]. intros H'. lapply H'; [|lra]. lia.
Qed.

(** ** The map of counts *)

Lemma fold_insert_other (f : SpawnXYZ -> Z) (points : list SpawnXYZ)
    (m : gmap Z Z) (k : Z) :
  k ∉ map spawn_id points ->
  fold_left (fun counts point => <[spawn_id point := f point]> counts) points m
    !! k = m !! k.
Proof.
  revert m. induction points as [|q points IH]; intros m Hk; simpl; [done|].
  simpl in Hk. apply not_elem_of_cons in Hk as [Hq Hk].
  rewrite IH by done. by rewrite lookup_insert_ne.
Qed.

Lemma fold_insert_at (f : SpawnXYZ -> Z) (points : list SpawnXYZ)
    (m : gmap Z Z) (p : SpawnXYZ) :
  NoDup (map spawn_id points) -> p ∈ points ->
  fold_left (fun counts point => <[spawn_id point := f point]> counts) points m
    !! spawn_id p = Some (f p).
Proof.
  revert m. induction points as [|q points IH]; intros m Hnd Hp; simpl.
  - by apply elem_of_nil in Hp.
  - simpl in Hnd. apply NoDup_cons in Hnd as [Hq Hnd].
    apply elem_of_cons in Hp as [->|Hp].
    + rewrite fold_insert_other by done. apply lookup_insert_eq.
    + by apply IH.
Qed.

Lemma fold_insert_in (f : SpawnXYZ -> Z) (v : Z) (points : list SpawnXYZ)
    (m : gmap Z Z) (k : Z) :
  (forall p, f p = v) -> k ∈ map spawn_id points ->
  fold_left (fun counts point => <[spawn_id point := f point]> counts) points m
    !! k = Some v.
Proof.
  intros Hf. revert m. induction points as [|q points IH]; intros m Hk; simpl.
  - by apply elem_of_nil in Hk.
  - destruct (decide (k ∈ map spawn_id points)) as [Hin|Hout].
    + by apply IH.
    + rewrite fold_insert_other by done.
      simpl in Hk. apply elem_of_cons in Hk as [->|Hk]; [|done].
      by rewrite lookup_insert_eq, Hf.
Qed.

Lemma counts_one (points : list SpawnXYZ) (radius : Q) (p : SpawnXYZ) :
  Num.ltb 0 radius = false -> p ∈ points ->
  computeNeighborCounts points radius !! spawn_id p = Some 1.
Proof.
  intros Hr Hp. unfold computeNeighborCounts.
  destruct points as [|q points]; [by apply elem_of_nil in Hp|].
  rewrite Hr. apply (fold_insert_in (fun _ => 1)); [done|].
  apply list_elem_of_fmap. by exists p.
Qed.


(** C7.  With a radius that is not positive, [computeNeighborCounts] sends
    the id of every input point to 1 and has no other key. *)
Theorem computeNeighborCounts_degenerate (points : list SpawnXYZ) (radius : Q) :
  (radius <= 0)%Q ->
  forall k : Z,
    computeNeighborCounts points radius !! k
    = if decide (k ∈ map spawn_id points) then Some 1 else None.
Proof.
  intros Hr k. unfold computeNeighborCounts.
  destruct (Z.eqb_spec (Z.of_nat (length points)) 0) as [H0|H0].
  { destruct points; [|discriminate].
    rewrite decide_False by apply not_elem_of_nil. apply lookup_empty. }
  apply ltb_ge in Hr. rewrite Hr. simpl.
  case_decide as Hk.
  - by apply (fold_insert_in (fun _ => 1)).
  - rewrite (fold_insert_other (fun _ => 1)) by done. apply lookup_empty.
Qed.


Lemma computeNeighborCounts_degenerate_witness :
  computeNeighborCounts scenarioPoints (-1) !! 3 = Some 1.
Proof.
  rewrite (computeNeighborCounts_degenerate scenarioPoints (-1)
             ltac:(discriminate)).
  reflexivity.
Defined.

(** ** The claims about [generateAutoRoute] *)

Lemma nodup_length_le (ids safeIds : list Z) :
  NoDup ids -> (forall i, i ∈ ids -> i ∈ safeIds) ->
  (length ids <= length safeIds)%nat.
Proof.
  intros Hnd Hsub. apply submseteq_length. by apply NoDup_submseteq.
Qed.

(** C2.  [generateAutoRoute] returns a route without duplicate ids, of at most
    [max(0, floor(settings.maxWaypoints))] waypoints and of at most
    [stats.safeInArea] waypoints. *)
Theorem generateAutoRoute_route_bounds (points : list SpawnXYZ)
    (denseIds : gset Z) (settings : AutoRouteSettings) :
  exists r : AutoRouteResult,
    generateAutoRoute points denseIds settings = Ok r /\
    NoDup (map spawn_id (route r)) /\
    Z.of_nat (length (route r))
      <= Z.max 0 (Num.floor (Settings.maxWaypoints settings)) /\
    Z.of_nat (length (route r)) <= Stats.safeInArea (stats r).
Proof.
  destruct (generateAutoRoute_spec points denseIds settings)
    as (r & Hr & Hstats & _ & Hnd & Hsafe & _ & Hlen).
  exists r. split; [done|]. split; [done|]. split.
  - by rewrite <- cappedWaypoints_max.
  - rewrite Hstats. simpl. apply inj_le.
    rewrite <- (length_map spawn_id (route r)).
    rewrite <- (length_map spawn_id (safeInArea points denseIds settings)).
    apply nodup_length_le; [done|].
    intros i Hi. apply list_elem_of_fmap in Hi as (p & -> & Hp).
    apply list_elem_of_fmap. exists p. split; [done|].
    rewrite Forall_forall in Hsafe. by apply Hsafe.
Qed.



(** C5.  When [max(0, floor(settings.maxWaypoints))] is 0, or when no in-area
    point is safe, [generateAutoRoute] returns the empty route and the stats
    [total = |points|], [inArea], [denseInArea], [safeInArea] as counted,
    [picked = 0]. *)
Theorem generateAutoRoute_degenerate (points : list SpawnXYZ)
    (denseIds : gset Z) (settings : AutoRouteSettings) :
  Z.max 0 (Num.floor (Settings.maxWaypoints settings)) = 0 \/
  safeInArea points denseIds settings = [] ->
  generateAutoRoute points denseIds settings
  = Ok (mkResult []
          (Stats.mk (Z.of_nat (length points))
             (Z.of_nat (length (inArea points settings)))
             (Z.of_nat (length (denseInArea points denseIds settings)))
             (Z.of_nat (length (safeInArea points denseIds settings)))
             0)).
Proof.
  intros Hdeg.
  destruct (generateAutoRoute_spec points denseIds settings)
    as (r & Hr & Hstats & Hempty & _).
  rewrite Hr. f_equal. destruct r as [rt st]. simpl in *.
  rewrite cappedWaypoints_max in Hempty.
  rewrite (Hempty Hdeg) in *. by rewrite Hstats.
Qed.

Lemma generateAutoRoute_degenerate_witness :
  generateAutoRoute scenarioPoints ∅ (Settings.mk (mkXY 0 0) 50 15 0 0)
  = Ok (mkResult [] (Stats.mk 4 3 0 3 0)).
Proof.
  rewrite (generateAutoRoute_degenerate scenarioPoints ∅
             (Settings.mk (mkXY 0 0) 50 15 0 0) (or_introl eq_refl)).
  reflexivity.
Defined.

Lemma length_filter_complement {A : Type} (P : A -> Prop)
    `{!forall x, Decision (P x)} (l : list A) :
  (length (filter P l) + length (filter (fun x => ~ P x) l))%nat = length l.
Proof.
  rewrite <- length_app. apply Permutation_length, filter_app_complement.
Qed.


(** ** Dense-cluster avoidance *)

(** The clamped parameter and the point it selects stay on the segment. *)
Lemma clamp_between (a0 d t : Q) :
  (0 <= t)%Q -> (t <= 1)%Q ->
  (Num.min a0 (a0 + d) <= a0 + t * d)%Q /\ (a0 + t * d <= Num.max a0 (a0 + d))%Q.
Proof.
  intros H0 H1.
  destruct (min_spec a0 (a0 + d)) as [[Hm ->]|[Hm ->]];
    destruct (max_spec a0 (a0 + d)) as [[HM ->]|[HM ->]]; split; nra.
Qed.

Lemma clamp01 (t : Q) :
  (0 <= Num.max 0 (Num.min 1 t))%Q /\ (Num.max 0 (Num.min 1 t) <= 1)%Q.
Proof.
  destruct (min_spec 1 t) as [[Hm ->]|[Hm ->]];
    [destruct (max_spec 0 1) as [[HM ->]|[HM ->]]
    |destruct (max_spec 0 t) as [[HM ->]|[HM ->]]]; split; lra.
Qed.

Lemma min_le_l (u v : Q) : (Num.min u v <= u)%Q.
Proof. destruct (min_spec u v) as [[H ->]|[H ->]]; lra. Qed.

Lemma max_ge_l (u v : Q) : (u <= Num.max u v)%Q.
Proof. destruct (max_spec u v) as [[H ->]|[H ->]]; lra. Qed.

(** A point within [r] of the segment lies in the bounding box of the segment
    grown by [r]. *)
Lemma segment_box (p a b : XY) (r : Q) :
  (0 <= r)%Q -> (dist2PointToSegment p a b <= r * r)%Q ->
  ((Num.min (xy_x a) (xy_x b) - r <= xy_x p)%Q /\
   (xy_x p <= Num.max (xy_x a) (xy_x b) + r)%Q) /\
  ((Num.min (xy_y a) (xy_y b) - r <= xy_y p)%Q /\
   (xy_y p <= Num.max (xy_y a) (xy_y b) + r)%Q).
Proof.
  intros Hr. unfold dist2PointToSegment.
  destruct (Num.ltb _ Num.lit_1e_12).
  - intros Hd.
    pose proof (square_bound _ _ _ Hr Hd) as [Hx1 Hx2].
    rewrite Qplus_comm in Hd.
    pose proof (square_bound _ _ _ Hr Hd) as [Hy1 Hy2].
    pose proof (min_le_l (xy_x a) (xy_x b)). pose proof (max_ge_l (xy_x a) (xy_x b)).
    pose proof (min_le_l (xy_y a) (xy_y b)). pose proof (max_ge_l (xy_y a) (xy_y b)).
    repeat split; lra.
  - set (t := Num.max 0 (Num.min 1 _)).
    pose proof (clamp01 ltac:(match goal with t := Num.max 0 (Num.min 1 ?u) |- _ => exact u end))
      as [Ht0 Ht1].
    fold t in Ht0, Ht1. clearbody t.
    intros Hd.
    pose proof (square_bound _ _ _ Hr Hd) as [Hx1 Hx2].
    rewrite Qplus_comm in Hd.
    pose proof (square_bound _ _ _ Hr Hd) as [Hy1 Hy2].
    pose proof (clamp_between (xy_x a) (xy_x b - xy_x a) t Ht0 Ht1) as [Bx1 Bx2].
    pose proof (clamp_between (xy_y a) (xy_y b - xy_y a) t Ht0 Ht1) as [By1 By2].
    assert (Num.min (xy_x a) (xy_x b) <= Num.min (xy_x a) (xy_x a + (xy_x b - xy_x a)))%Q.
    { destruct (min_spec (xy_x a) (xy_x a + (xy_x b - xy_x a))) as [[? ->]|[? ->]];
        destruct (min_spec (xy_x a) (xy_x b)) as [[? ->]|[? ->]]; lra. }
    assert (Num.max (xy_x a) (xy_x a + (xy_x b - xy_x a)) <= Num.max (xy_x a) (xy_x b))%Q.
    { destruct (max_spec (xy_x a) (xy_x a + (xy_x b - xy_x a))) as [[? ->]|[? ->]];
        destruct (max_spec (xy_x a) (xy_x b)) as [[? ->]|[? ->]]; lra. }
    assert (Num.min (xy_y a) (xy_y b) <= Num.min (xy_y a) (xy_y a + (xy_y b - xy_y a)))%Q.
    { destruct (min_spec (xy_y a) (xy_y a + (xy_y b - xy_y a))) as [[? ->]|[? ->]];
        destruct (min_spec (xy_y a) (xy_y b)) as [[? ->]|[? ->]]; lra. }
    assert (Num.max (xy_y a) (xy_y a + (xy_y b - xy_y a)) <= Num.max (xy_y a) (xy_y b))%Q.
    { destruct (max_spec (xy_y a) (xy_y a + (xy_y b - xy_y a))) as [[? ->]|[? ->]];
        destruct (max_spec (xy_y a) (xy_y b)) as [[? ->]|[? ->]]; lra. }
    repeat split; lra.
Qed.

Lemma built_nonempty (items : list SpawnXYZ) (c : Q) (p : SpawnXYZ) :
  p ∈ items ->
  (Z.of_nat (size (cells (buildSpatialIndex items c xy_of))) =? 0) = false.
Proof.
  intros Hp. apply Z.eqb_neq. intros Hsize.
  assert (size (cells (buildSpatialIndex items c xy_of)) = 0%nat) as H0 by lia.
  apply map_size_empty_iff in H0.
  pose proof (build_bucketAt items c xy_of
                (cellOf xy_of (Num.max Num.lit_1e_6 c) p)) as Hb.
  unfold bucketAt in Hb. rewrite H0, lookup_empty in Hb. simpl in Hb.
  assert (p ∈ filter (fun item =>
            cellOf xy_of (Num.max Num.lit_1e_6 c) item
            = cellOf xy_of (Num.max Num.lit_1e_6 c) p) items) as Hin.
  { by apply list_elem_of_filter. }
  rewrite <- Hb in Hin. by apply elem_of_nil in Hin.
Qed.

(** With a positive radius, the scan of the grid finds an obstruction exactly
    when some item is within the radius of the segment. *)
Lemma segmentAvoidsDense_scan (a b : XY) (items : list SpawnXYZ) (c r : Q) :
  (0 < r)%Q ->
  segmentAvoidsDense a b (Some (buildSpatialIndex items c xy_of)) r = true <->
  (forall p : SpawnXYZ,
     p ∈ items -> (r * r < dist2PointToSegment (xy_of p) a b)%Q).
Proof.
  intros Hr. pose proof (build_cellSize_pos items c xy_of) as Hc.
  unfold segmentAvoidsDense.
  apply ltb_lt in Hr as Hr'. rewrite Hr'. simpl negb. cbv iota.
  set (index := buildSpatialIndex items c xy_of) in *.
  split.
  - intros Hscan p Hp. apply leb_gt.
    destruct (Num.leb (dist2PointToSegment (xy_of p) a b) (r * r)) eqn:Hd; [|done].
    exfalso. pose proof (built_nonempty items c p Hp) as Hne.
    fold index in Hne. rewrite Hne in Hscan.
    apply leb_le in Hd as Hd'.
    apply segment_box in Hd' as [[Hx1 Hx2] [Hy1 Hy2]]; [|lra].
    rewrite forallb_forall in Hscan.
    specialize (Hscan (toCell (spawn_y p) (cellSize index))).
    rewrite forallb_forall in Hscan.
    lapply Hscan.
    2:{ apply list_elem_of_In, elem_of_zrange.
        split; apply toCell_mono; done. }
    clear Hscan. intros Hscan.
    specialize (Hscan (toCell (spawn_x p) (cellSize index))).
    lapply Hscan.
    2:{ apply list_elem_of_In, elem_of_zrange.
        split; apply toCell_mono; done. }
    clear Hscan.
    rewrite (lookup_bucketAt _ _
      (forallb (fun dense =>
         negb (Num.leb (dist2PointToSegment
                          (mkXY (spawn_x dense) (spawn_y dense)) a b) (r * r))))
      true) by done.
    unfold index at 1. rewrite build_bucketAt.
    rewrite forallb_forall. intros Hall.
    specialize (Hall p). lapply Hall.
    + change (mkXY (spawn_x p) (spawn_y p)) with (xy_of p). rewrite Hd. discriminate.
    + apply list_elem_of_In, list_elem_of_filter. split; [|done]. reflexivity.
  - intros Hall.
    destruct (_ =? 0); [done|].
    apply forallb_forall. intros cy _. apply forallb_forall. intros cx _.
    rewrite (lookup_bucketAt _ _
      (forallb (fun dense =>
         negb (Num.leb (dist2PointToSegment
                          (mkXY (spawn_x dense) (spawn_y dense)) a b) (r * r))))
      true) by done.
    unfold index. rewrite build_bucketAt.
    apply forallb_forall. intros p Hp.
    apply list_elem_of_In, list_elem_of_filter in Hp as [_ Hp].
    apply negb_true_iff, leb_gt. by apply Hall.
Qed.

(** Away from the short-segment guard the distance of the code is the
    closest-point distance. *)
Lemma dist2PointToSegment_closest (p a b : XY) :
  (Num.lit_1e_12 <= segLen2 a b)%Q ->
  dist2PointToSegment p a b = closestPointDist2 p a b.
Proof.
  intros Hlen. unfold dist2PointToSegment, closestPointDist2.
  apply ltb_ge in Hlen. unfold segLen2 in Hlen. by rewrite Hlen.
Qed.

(** The midpoint of a segment that is not short is at distance 0 from it. *)
Lemma midpoint_dist2 (p a b : XY) :
  (Num.lit_1e_12 <= segLen2 a b)%Q -> isMidpoint p a b ->
  (dist2PointToSegment p a b == 0)%Q.
Proof.
  intros Hlen [Hx Hy]. unfold dist2PointToSegment.
  apply ltb_ge in Hlen as Hlen'. unfold segLen2 in Hlen'. rewrite Hlen'.
  unfold segLen2, Num.lit_1e_12 in Hlen.
  set (abx := (xy_x b - xy_x a)%Q) in *.
  set (aby := (xy_y b - xy_y a)%Q) in *.
  set (L := (abx * abx + aby * aby)%Q) in *.
  assert (0 < L)%Q as HL by lra.
  set (t := (((xy_x p - xy_x a) * abx + (xy_y p - xy_y a) * aby) / L)%Q).
  assert (t == 1 # 2)%Q as Ht.
  { unfold t. apply Qmult_inj_r with L; [lra|].
    unfold Qdiv. rewrite <- Qmult_assoc, (Qmult_comm (/ L)), Qmult_inv_r by lra.
    unfold L, abx, aby. nra. }
  destruct (min_spec 1 t) as [[Hm _]|[Hm ->]]; [lra|].
  destruct (max_spec 0 t) as [[HM ->]|[HM _]]; [|lra].
  clearbody t. unfold abx, aby. clear Hlen' Hlen HL L. nra.
Qed.




(** ** The tuner *)

Lemma floor_nonpositive (w : Q) : (w <= 0)%Q -> Z.max 0 (Num.floor w) = 0.
Proof.
  intros Hw. unfold Num.floor.
  pose proof (Qfloor_resp_le w 0 Hw) as H. change (Qfloor 0) with 0 in H. lia.
Qed.

Lemma tune_null (sqrt : Q -> Q) (points : list SpawnXYZ) (center : XY)
    (maxWaypoints : Q) :
  points = [] \/ Z.max 0 (Num.floor maxWaypoints) = 0 ->
  tuneAutoRouteParams sqrt points center maxWaypoints = Ok None.
Proof.
  intros [->|Hw]; unfold tuneAutoRouteParams.
  - by destruct (_ =? 0).
  - by rewrite Hw.
Qed.

(** C6.  [tuneAutoRouteParams] returns [null] when [points] is empty and
    when [maxWaypoints <= 0], that is when [floor(maxWaypoints)] clamped at 0
    is 0, whatever the centre. *)
Theorem tuneAutoRouteParams_null (sqrt : Q -> Q) (points : list SpawnXYZ)
    (center : XY) (maxWaypoints : Q) :
  points = [] \/ (maxWaypoints <= 0)%Q \/
  Z.max 0 (Num.floor maxWaypoints) = 0 ->
  tuneAutoRouteParams sqrt points center maxWaypoints = Ok None.
Proof.
  intros Hdeg. unfold tuneAutoRouteParams.
  assert (points = [] \/ Z.max 0 (Num.floor maxWaypoints) = 0) as [->|Hcap].
  { destruct Hdeg as [H|[H|H]]; [by left| |by right].
    right. unfold Num.floor.
    pose proof (Qfloor_resp_le maxWaypoints 0 H) as Hfl.
    change (Qfloor 0) with 0 in Hfl. lia. }
  - destruct (Z.max 0 (Num.floor maxWaypoints) =? 0); reflexivity.
  - rewrite Hcap. reflexivity.
Qed.

Lemma tuneAutoRouteParams_null_witness :
  tuneAutoRouteParams (fun q => q) scenarioPoints (mkXY 0 0) (1 # 2) = Ok None.
Proof.
  apply (tuneAutoRouteParams_null (fun q => q) scenarioPoints (mkXY 0 0) (1 # 2)).
  right. right. reflexivity.
Defined.

Lemma forSteps_ok (step : option Best -> Q -> result (option Best))
    (stepCandidates : list Q) :
  (forall best v, exists best', step best v = Ok best') ->
  forall best, exists best', forSteps step stepCandidates best = Ok best'.
Proof.
  intros Hstep. induction stepCandidates as [|v rest IH]; intros best; simpl.
  - by exists best.
  - destruct (Hstep best v) as [best' ->]. simpl. apply IH.
Qed.

Lemma forClusters_ok (body : option Best -> Q -> result (option Best))
    (clusterCandidates : list Q) :
  (forall best v, exists best', body best v = Ok best') ->
  forall best, exists best', forClusters body clusterCandidates best = Ok best'.
Proof.
  intros Hbody. induction clusterCandidates as [|v rest IH]; intros best; simpl.
  - by exists best.
  - destruct (Hbody best v) as [best' ->]. simpl. apply IH.
Qed.

Lemma tryStep_ok (basePoints : list SpawnXYZ) (denseIds : gset Z) (center : XY)
    (cappedWaypoints : Z) (clusterRadius areaBase dirtySupportRadius : Q)
    (best : option Best) (maxStepDistance : Q) :
  exists best',
    tryStep basePoints denseIds center cappedWaypoints clusterRadius areaBase
      dirtySupportRadius best maxStepDistance = Ok best'.
Proof.
  unfold tryStep.
  match goal with
  | |- context [generateAutoRoute ?pts ?ids ?st] =>
      destruct (generateAutoRoute_spec pts ids st) as (r & -> & _)
  end.
  simpl. destruct best as [b|]; [|by eexists].
  repeat match goal with
         | |- context [if ?c then _ else _] => destruct c
         end; by eexists.
Qed.

Lemma tryCluster_ok (sqrt : Q -> Q) (basePoints : list SpawnXYZ) (center : XY)
    (cappedWaypoints : Z) (baseSpacing dirtySupportRadius : Q)
    (best : option Best) (clusterRadius : Q) :
  exists best',
    tryCluster sqrt basePoints center cappedWaypoints baseSpacing
      dirtySupportRadius best clusterRadius = Ok best'.
Proof.
  unfold tryCluster. destruct (_ =? 0); [by eexists|].
  apply forSteps_ok. intros. apply tryStep_ok.
Qed.

Lemma tune_ok (sqrt : Q -> Q) (points : list SpawnXYZ) (center : XY)
    (maxWaypoints : Q) :
  exists r, tuneAutoRouteParams sqrt points center maxWaypoints = Ok r.
Proof.
  unfold tuneAutoRouteParams.
  destruct (_ =? 0); [by eexists|]. destruct (_ =? 0); [by eexists|].
  match goal with
  | |- context [forClusters ?body ?l ?b] =>
      destruct (forClusters_ok body l) with (best := b) as [best' ->]
  end.
  - intros. apply tryCluster_ok.
  - simpl. by eexists.
Qed.

(** C8.  For the four points (0,0), (10,0), (20,0), (100,100) with ids 1 to 4,
    no dense id, centre (0,0), area radius 50, step 15, ten waypoints and no
    avoidance, [generateAutoRoute] returns the route (0,0), (10,0), (20,0) in
    that order with the ids of the input, [stats.inArea = 3] and
    [stats.picked = 3]; and so it does whichever way four distinct ids among
    1 to 4 are given to the points. *)
Theorem generateAutoRoute_scenario :
  generateAutoRoute scenarioPoints ∅ scenarioSettings
  = Ok (mkResult [spawnAt 1 0 0; spawnAt 2 10 0; spawnAt 3 20 0]
          (Stats.mk 4 3 0 3 3)) /\
  Forall (fun ids =>
    exists r : AutoRouteResult,
      generateAutoRoute (scenarioWithIds ids) ∅ scenarioSettings = Ok r /\
      route r = take 3 (scenarioWithIds ids) /\
      Stats.inArea (stats r) = 3 /\ Stats.picked (stats r) = 3)
    (permutations [1; 2; 3; 4]).
Proof.
  split; [vm_compute; reflexivity|].
  repeat (apply Forall_cons; split;
          [eexists; split; [vm_compute; reflexivity|];
           split; [reflexivity|]; split; reflexivity|]).
  apply Forall_nil_2.
Qed.



(** * Further properties of the code *)

(** ** The grid: buckets and radius queries *)


Lemma filter_disjoint_perm {A : Type} (P R : A -> Prop)
    `{!forall x, Decision (P x)} `{!forall x, Decision (R x)} (l : list A) :
  (forall x, P x -> R x -> False) ->
  filter P l ++ filter R l ≡ₚ filter (fun x => P x \/ R x) l.
Proof.
  intros Hdisj. induction l as [|x l IH]; [done|].
  rewrite !filter_cons.
  destruct (decide (P x)) as [HP|HP]; destruct (decide (R x)) as [HR|HR];
    destruct (decide (P x \/ R x)) as [HPR|HPR];
    try (exfalso; tauto); try (exfalso; by eauto).
  - simpl. by rewrite IH.
  - rewrite <- Permutation_middle. by rewrite IH.
  - done.
Qed.

Lemma flat_map_perm {A B : Type} (f g : A -> list B) (l : list A) :
  (forall x, f x ≡ₚ g x) -> flat_map f l ≡ₚ flat_map g l.
Proof.
  intros Hfg. induction l as [|x l IH]; simpl; [done|]. by rewrite Hfg, IH.
Qed.

Lemma filter_perm_iff {A : Type} (P1 P2 : A -> Prop)
    `{!forall x, Decision (P1 x)} `{!forall x, Decision (P2 x)} (l : list A) :
  (forall x, P1 x <-> P2 x) -> filter P1 l ≡ₚ filter P2 l.
Proof. intros Hiff. by rewrite (list_filter_iff P1 P2). Qed.

(** Collecting, over distinct offsets [v], the items whose key is [c + v]
    gives the items whose key is one of them, each once. *)
Lemma flat_map_filter_keys {A : Type} (P : A -> Prop)
    `{!forall x, Decision (P x)} (k : A -> Z) (c : Z) (vs : list Z)
    (l : list A) :
  NoDup vs ->
  flat_map (fun v => filter (fun o => P o /\ k o = c + v) l) vs
  ≡ₚ filter (fun o => P o /\ (k o - c) ∈ vs) l.
Proof.
  intros Hnd. induction Hnd as [|v vs Hv Hnd IH]; simpl.
  - induction l as [|x l IHl]; [done|].
    rewrite filter_cons_False; [done|]. intros [_ Hx]. by apply elem_of_nil in Hx.
  - rewrite IH, filter_disjoint_perm.
    + apply filter_perm_iff. intros o.
      rewrite elem_of_cons. split.
      * intros [[? ?]|[? ?]]; (split; [done|]); [left; lia | by right].
      * intros [? [?|?]]; [left; split; [done | lia] | by right].
    + intros o [_ Hk] [_ Hin]. apply Hv. by replace v with (k o - c) by lia.
Qed.


(** ** Neighbour counts: bounds, growth with the radius, dense ids *)

Lemma neighborCount_lookup (points : list SpawnXYZ) (radius : Q) (p : SpawnXYZ) :
  NoDup (map spawn_id points) -> p ∈ points ->
  computeNeighborCounts points radius !! spawn_id p
  = Some (if Num.ltb 0 radius then bruteForceCount points radius p else 1).
Proof.
  intros Hnd Hp. destruct (Num.ltb 0 radius) eqn:Hr.
  - unfold computeNeighborCounts.
    destruct (Z.eqb_spec (Z.of_nat (length points)) 0) as [H0|H0].
    { destruct points; [by apply elem_of_nil in Hp | discriminate]. }
    rewrite Hr. simpl.
    rewrite (fold_insert_at
               (countAround (buildSpatialIndex points radius xy_of)
                  (radius * radius)
                  (Num.ceil (radius
                     / cellSize (buildSpatialIndex points radius xy_of)))))
      by done.
    f_equal. apply countAround_brute. by apply ltb_lt.
  - by apply counts_one.
Qed.

Lemma length_filter_mono {A : Type} (P R : A -> Prop)
    `{!forall x, Decision (P x)} `{!forall x, Decision (R x)} (l : list A) :
  (forall x, P x -> R x) ->
  (length (filter P l) <= length (filter R l))%nat.
Proof.
  intros HPR. induction l as [|x l IH]; [done|].
  rewrite !filter_cons.
  destruct (decide (P x)) as [HP|HP]; destruct (decide (R x)) as [HR|HR];
    rewrite ?length_cons; try lia.
  exfalso. auto.
Qed.

Lemma bruteForceCount_bounds (points : list SpawnXYZ) (radius : Q)
    (p : SpawnXYZ) :
  p ∈ points ->
  1 <= bruteForceCount points radius p <= Z.of_nat (length points).
Proof.
  intros Hp. unfold bruteForceCount. split.
  - assert (p ∈ filter (fun other =>
        (dist2 (xy_of other) (xy_of p) <= radius * radius)%Q) points) as Hin.
    { apply list_elem_of_filter. split; [|done]. unfold dist2. nra. }
    destruct (filter _ points); [by apply elem_of_nil in Hin|].
    rewrite length_cons. lia.
  - apply inj_le, length_filter.
Qed.

Lemma bruteForceCount_mono (points : list SpawnXYZ) (r r' : Q) (p : SpawnXYZ) :
  (0 <= r)%Q -> (r <= r')%Q ->
  bruteForceCount points r p <= bruteForceCount points r' p.
Proof.
  intros H0 Hr. unfold bruteForceCount. apply inj_le, length_filter_mono.
  intros o Ho. nra.
Qed.



Lemma idsWhere_fold (test : Z -> bool) (counts : gmap Z Z)
    (points : list SpawnXYZ) (ids : gset Z) (i : Z) :
  i ∈ fold_left (fun ids point =>
         let count := countOr1 counts (spawn_id point) in
         if test count then {[spawn_id point]} ∪ ids else ids) points ids
  <-> i ∈ ids \/
      exists p : SpawnXYZ,
        p ∈ points /\ spawn_id p = i /\ test (countOr1 counts i) = true.
Proof.
  revert ids. induction points as [|q points IH]; intros ids; simpl.
  - split; [by left|]. intros [H|(p & Hp & _)]; [done|by apply elem_of_nil in Hp].
  - rewrite IH. cbv beta zeta. split.
    + intros [H|(p & Hp & Hid & Ht)].
      * destruct (test (countOr1 counts (spawn_id q))) eqn:Ht; [|by left].
        apply elem_of_union in H as [H|H]; [|by left].
        apply elem_of_singleton in H as ->. right. exists q.
        split; [apply list_elem_of_here | done].
      * right. exists p. split; [by apply list_elem_of_further | done].
    + intros [H|(p & Hp & Hid & Ht)].
      * left. destruct (test (countOr1 counts (spawn_id q))); [|done].
        apply elem_of_union. by right.
      * apply elem_of_cons in Hp as [->|Hp].
        -- left. rewrite Hid, Ht. apply elem_of_union. left.
           by apply elem_of_singleton.
        -- right. by exists p.
Qed.



(** ** Distances and the cost of a route *)

Lemma dist2_sym (a b : XY) : (dist2 a b == dist2 b a)%Q.
Proof. unfold dist2. ring. Qed.

Lemma sq_nonneg (u : Q) : (0 <= u * u)%Q.
Proof. destruct (Qlt_le_dec u 0); nra. Qed.

Lemma dist2_nonneg (a b : XY) : (0 <= dist2 a b)%Q.
Proof.
  unfold dist2.
  pose proof (sq_nonneg (xy_x a - xy_x b)).
  pose proof (sq_nonneg (xy_y a - xy_y b)). lra.
Qed.

Lemma routeCost_from_shift (route : list SpawnXYZ) (c : Q) :
  (routeCost_from c route == c + routeCost_from 0 route)%Q.
Proof.
  revert c. induction route as [|a [|b rest] IH]; intros c; simpl; try lra.
  simpl in IH. rewrite (IH (c + dist2 (xy_of a) (xy_of b))%Q).
  rewrite (IH (0 + dist2 (xy_of a) (xy_of b))%Q). lra.
Qed.

Lemma routeCost_cons (a : SpawnXYZ) (route : list SpawnXYZ) :
  (routeCost (a :: route)
   == stepFrom (head route) a + routeCost route)%Q.
Proof.
  unfold routeCost. destruct route as [|b rest]; [simpl; lra|].
  change (routeCost_from 0 (a :: b :: rest))
    with (routeCost_from (0 + dist2 (xy_of a) (xy_of b)) (b :: rest)).
  pose proof (routeCost_from_shift (b :: rest) (0 + dist2 (xy_of a) (xy_of b))).
  pose proof (dist2_sym (xy_of a) (xy_of b)).
  change (stepFrom (head (b :: rest)) a) with (dist2 (xy_of b) (xy_of a)). lra.
Qed.

Lemma routeCost_nonneg (route : list SpawnXYZ) : (0 <= routeCost route)%Q.
Proof.
  induction route as [|a route IH]; [unfold routeCost; simpl; lra|].
  pose proof (routeCost_cons a route) as Hc. unfold stepFrom in Hc.
  destruct (head route) as [c|]; [pose proof (dist2_nonneg (xy_of c) (xy_of a))|];
    lra.
Qed.

Lemma routeCost_snoc (route : list SpawnXYZ) (b : SpawnXYZ) :
  (routeCost (route ++ [b]) == routeCost route + stepFrom (last route) b)%Q.
Proof.
  induction route as [|a route IH].
  - unfold routeCost. simpl. lra.
  - change ((a :: route) ++ [b]) with (a :: (route ++ [b])).
    pose proof (routeCost_cons a (route ++ [b])) as H1.
    pose proof (routeCost_cons a route) as H2.
    destruct route as [|c route].
    + pose proof (dist2_sym (xy_of a) (xy_of b)).
      unfold routeCost, stepFrom in *. simpl in *. lra.
    + change (last (a :: c :: route)) with (last (c :: route)).
      change (head ((c :: route) ++ [b])) with (head (c :: route)) in H1. lra.
Qed.


(** The squared distance from [p] to the point at parameter [s], as a
    polynomial in [s]. *)
Lemma dist2_pointAt (p a b : XY) (s : Q) :
  (dist2 p (pointAt a b s)
   == dist2 p a
      - 2 * s * ((xy_x p - xy_x a) * (xy_x b - xy_x a)
                 + (xy_y p - xy_y a) * (xy_y b - xy_y a))
      + s * s * segLen2 a b)%Q.
Proof. unfold dist2, pointAt, segLen2. simpl. ring. Qed.

Lemma clamp_cases (t : Q) :
  ((1 <= t)%Q /\ Num.max 0 (Num.min 1 t) = 1%Q) \/
  ((0 <= t)%Q /\ (t < 1)%Q /\ Num.max 0 (Num.min 1 t) = t) \/
  ((t < 0)%Q /\ Num.max 0 (Num.min 1 t) = 0%Q).
Proof.
  destruct (min_spec 1 t) as [[Hm ->]|[Hm ->]].
  - left. split; [done|]. destruct (max_spec 0 1) as [[_ ->]|[H _]]; [done|lra].
  - destruct (max_spec 0 t) as [[HM ->]|[HM ->]]; [right; left | right; right]; done.
Qed.

(** A parabola with positive leading coefficient, restricted to [0, 1], is
    least at its apex clamped to [0, 1]. *)
Lemma parabola_least (n L t T s : Q) :
  (0 < L)%Q -> (t * L == n)%Q ->
  ((1 <= t)%Q /\ T = 1%Q) \/ ((0 <= t)%Q /\ (t < 1)%Q /\ T = t) \/
  ((t < 0)%Q /\ T = 0%Q) ->
  (0 <= s)%Q -> (s <= 1)%Q ->
  (- (2 * T * n) + T * T * L <= - (2 * s * n) + s * s * L)%Q.
Proof.
  intros HL Hn Hcases Hs0 Hs1.
  assert (0 <= (s - T) * (s + T - 2 * t))%Q as Hprod.
  { destruct Hcases as [[Ht ->]|[(Ht0 & Ht1 & ->)|[Ht ->]]].
    - assert (0 <= (1 - s) * (2 * t - s - 1))%Q
        by (apply Qmult_le_0_compat; lra). nra.
    - pose proof (sq_nonneg (s - t)). nra.
    - assert (0 <= s * (s - 2 * t))%Q by (apply Qmult_le_0_compat; lra). nra. }
  assert (0 <= L * ((s - T) * (s + T - 2 * t)))%Q as Hkey
    by (apply Qmult_le_0_compat; lra).
  assert (t * L * s == n * s)%Q as E1 by (by rewrite Hn).
  assert (t * L * T == n * T)%Q as E2 by (by rewrite Hn).
  nra.
Qed.

(** X6.  On a segment whose squared length is at least 1e-12,
    [dist2PointToSegment] is the least squared distance from [p] to a point
    of the segment: it is the squared distance to one of its points, and no
    point of the segment is closer. *)
Theorem dist2PointToSegment_least (p a b : XY) :
  (Num.lit_1e_12 <= segLen2 a b)%Q ->
  (exists t : Q,
     (0 <= t)%Q /\ (t <= 1)%Q /\
     dist2PointToSegment p a b = dist2 p (pointAt a b t)) /\
  (forall s : Q,
     (0 <= s)%Q -> (s <= 1)%Q ->
     (dist2PointToSegment p a b <= dist2 p (pointAt a b s))%Q).
Proof.
  intros Hlen.
  assert (0 < segLen2 a b)%Q as HL by (unfold Num.lit_1e_12 in Hlen; lra).
  set (n := ((xy_x p - xy_x a) * (xy_x b - xy_x a)
             + (xy_y p - xy_y a) * (xy_y b - xy_y a))%Q).
  set (t := (n / segLen2 a b)%Q).
  assert (dist2PointToSegment p a b
          = dist2 p (pointAt a b (Num.max 0 (Num.min 1 t)))) as Hd.
  { unfold dist2PointToSegment. apply ltb_ge in Hlen. unfold segLen2 in Hlen.
    by rewrite Hlen. }
  rewrite Hd. split.
  - exists (Num.max 0 (Num.min 1 t)).
    destruct (clamp01 t) as [H0 H1]. done.
  - intros s Hs0 Hs1.
    assert (t * segLen2 a b == n)%Q as Hn by (unfold t; field; lra).
    pose proof (parabola_least n (segLen2 a b) t (Num.max 0 (Num.min 1 t)) s
                  HL Hn (clamp_cases t) Hs0 Hs1) as Hle.
    pose proof (dist2_pointAt p a b s) as E1.
    pose proof (dist2_pointAt p a b (Num.max 0 (Num.min 1 t))) as E2.
    fold n in E1, E2. lra.
Qed.

Lemma dist2PointToSegment_least_witness :
  (dist2PointToSegment (mkXY 5 3) (mkXY 0 0) (mkXY 10 0)
   <= dist2 (mkXY 5 3) (pointAt (mkXY 0 0) (mkXY 10 0) (1 # 4)))%Q.
Proof.
  refine (proj2 (dist2PointToSegment_least (mkXY 5 3) (mkXY 0 0) (mkXY 10 0) _)
            (1 # 4) _ _); discriminate.
Defined.

(** ** Routes keep clear of dense points *)



(** ** The start candidates and the choice among their paths *)

Lemma closestToCenter_least (center : XY) (points : list SpawnXYZ) :
  points <> [] ->
  exists c : SpawnXYZ,
    closestToCenter center points = Some c /\ c ∈ points /\
    forall p : SpawnXYZ,
      p ∈ points -> (dist2 center (xy_of c) <= dist2 center (xy_of p))%Q.
Proof.
  intros Hne. unfold closestToCenter.
  assert (forall (rest done : list SpawnXYZ) (st : option SpawnXYZ * Num.ext),
            match fst st with
            | None => done = [] /\ snd st = Num.PosInf
            | Some c =>
                c ∈ done /\ snd st = Num.Fin (dist2 center (xy_of c)) /\
                forall p, p ∈ done ->
                  (dist2 center (xy_of c) <= dist2 center (xy_of p))%Q
            end ->
            match fst (fold_left (closestStep center) rest st) with
            | None => done ++ rest = []
            | Some c =>
                c ∈ done ++ rest /\
                forall p, p ∈ done ++ rest ->
                  (dist2 center (xy_of c) <= dist2 center (xy_of p))%Q
            end) as Hfold.
  { induction rest as [|q rest IH]; intros done [best bestD2] Hst; simpl in *.
    - rewrite app_nil_r. destruct best as [c|]; [|by destruct Hst].
      destruct Hst as (Hc & _ & Hmin). done.
    - replace (done ++ q :: rest) with ((done ++ [q]) ++ rest)
        by (by rewrite <- app_assoc).
      apply IH. unfold closestStep. simpl.
      destruct best as [c|].
      + destruct Hst as (Hc & -> & Hmin). simpl.
        destruct (Num.ltb _ _) eqn:Hlt; simpl.
        * apply ltb_lt in Hlt. split; [set_solver|]. split; [done|].
          intros p Hp. apply elem_of_app in Hp as [Hp|Hp].
          -- specialize (Hmin p Hp). lra.
          -- apply list_elem_of_singleton in Hp as ->. lra.
        * apply ltb_ge in Hlt. split; [set_solver|]. split; [done|].
          intros p Hp. apply elem_of_app in Hp as [Hp|Hp]; [auto|].
          by apply list_elem_of_singleton in Hp as ->.
      + destruct Hst as [-> ->]. simpl. split; [set_solver|]. split; [done|].
        intros p Hp. apply list_elem_of_singleton in Hp as ->. lra. }
  specialize (Hfold points [] (None, Num.PosInf) (conj eq_refl eq_refl)).
  simpl in Hfold.
  destruct (fst (fold_left (closestStep center) points (None, Num.PosInf)))
    as [c|]; [|done].
  exists c. destruct Hfold as [Hc Hmin]. done.
Qed.

Lemma startCandidates_ok (points : list SpawnXYZ) (denseIds : gset Z)
    (settings : AutoRouteSettings) :
  safeInArea points denseIds settings <> [] ->
  exists (starts : list SpawnXYZ) (c : SpawnXYZ),
    startCandidatesOf points denseIds settings = Ok starts /\
    closestToCenter (Settings.center settings)
      (safeInArea points denseIds settings) = Some c /\
    starts <> [] /\ (length starts <= 13)%nat /\
    (forall s, s ∈ starts -> s ∈ safeInArea points denseIds settings) /\
    (exists s, s ∈ starts /\ spawn_id s = spawn_id c).
Proof.
  intros Hne. unfold startCandidatesOf. cbv zeta.
  set (safe := safeInArea points denseIds settings) in *.
  set (scored := sort compareStarts _).
  assert (length scored = length safe) as Hlen.
  { unfold scored. by rewrite sort_perm, length_map. }
  assert (forall p, p ∈ map point scored -> p ∈ safe) as Hscored.
  { intros p Hp. unfold scored in Hp. rewrite sort_perm in Hp.
    rewrite map_map in Hp. simpl in Hp. by rewrite map_id in Hp. }
  destruct (takeStarts_ok scored
              (seq 0 (Z.to_nat (Z.min 12 (Z.of_nat (length scored))))) [])
    as (starts & Hstarts & Hin & Hcount).
  { apply Forall_forall. intros i Hi. apply list_elem_of_In, in_seq in Hi. lia. }
  rewrite Hstarts. simpl. rewrite length_seq in Hcount. simpl in Hcount.
  destruct (closestToCenter_least (Settings.center settings) safe Hne)
    as (c & Hc & Hcin & _).
  rewrite Hc. eexists. exists c. split; [reflexivity|]. split; [done|].
  assert (forall s, s ∈ starts -> s ∈ safe) as Hs.
  { intros s Hs. destruct (Hin s Hs) as [H|H]; [by apply elem_of_nil in H|auto]. }
  assert (starts <> []) as Hsne.
  { destruct starts; [|done]. destruct safe; [done|]. simpl in *. lia. }
  destruct (existsb _ starts) eqn:Hex; simpl.
  - split; [done|]. split; [lia|]. split; [done|].
    apply existsb_exists in Hex as (s & Hsin & Heq).
    exists s. split; [by apply list_elem_of_In | by apply Z.eqb_eq].
  - split; [by destruct starts|]. split; [rewrite length_app; simpl; lia|].
    split.
    + intros s Hsin. apply elem_of_app in Hsin as [Hsin|Hsin]; [auto|].
      by apply list_elem_of_singleton in Hsin as ->.
    + exists c. split; [|done]. apply elem_of_app. right.
      by apply list_elem_of_singleton.
Qed.

(** X10.  When some in-area point is safe, [closestToCenter] is a safe
    in-area point no other is closer to the centre than; the start
    candidates are between 1 and 13 safe in-area points, and one of them has
    the id of that closest point. *)
Theorem startCandidates_closest (points : list SpawnXYZ) (denseIds : gset Z)
    (settings : AutoRouteSettings) :
  safeInArea points denseIds settings <> [] ->
  exists (starts : list SpawnXYZ) (c : SpawnXYZ),
    startCandidatesOf points denseIds settings = Ok starts /\
    closestToCenter (Settings.center settings)
      (safeInArea points denseIds settings) = Some c /\
    c ∈ safeInArea points denseIds settings /\
    (forall p : SpawnXYZ,
       p ∈ safeInArea points denseIds settings ->
       (dist2 (Settings.center settings) (xy_of c)
        <= dist2 (Settings.center settings) (xy_of p))%Q) /\
    (1 <= length starts <= 13)%nat /\
    (forall s, s ∈ starts -> s ∈ safeInArea points denseIds settings) /\
    (exists s, s ∈ starts /\ spawn_id s = spawn_id c).
Proof.
  intros Hne.
  destruct (startCandidates_ok points denseIds settings Hne)
    as (starts & c & Hstarts & Hc & Hsne & Hlen & Hsafe & Hid).
  destruct (closestToCenter_least (Settings.center settings) _ Hne)
    as (c' & Hc' & Hcin & Hmin).
  assert (c' = c) as -> by congruence.
  exists starts, c. repeat (split; [done|]).
  split; [|done]. split; [|done]. destruct starts; [done|]. simpl. lia.
Qed.

Lemma startCandidates_closest_witness :
  exists (starts : list SpawnXYZ) (c : SpawnXYZ),
    startCandidatesOf scenarioPoints ∅ scenarioSettings = Ok starts /\
    closestToCenter (mkXY 0 0) (safeInArea scenarioPoints ∅ scenarioSettings)
      = Some c /\
    c ∈ safeInArea scenarioPoints ∅ scenarioSettings /\
    (forall p : SpawnXYZ,
       p ∈ safeInArea scenarioPoints ∅ scenarioSettings ->
       (dist2 (mkXY 0 0) (xy_of c) <= dist2 (mkXY 0 0) (xy_of p))%Q) /\
    (1 <= length starts <= 13)%nat /\
    (forall s, s ∈ starts -> s ∈ safeInArea scenarioPoints ∅ scenarioSettings) /\
    (exists s, s ∈ starts /\ spawn_id s = spawn_id c).
Proof.
  apply (startCandidates_closest scenarioPoints ∅ scenarioSettings).
  discriminate.
Defined.

Lemma query_complete (items : list SpawnXYZ) (c : Q) (center : XY) (radius : Q)
    (p : SpawnXYZ) :
  (0 < radius)%Q -> p ∈ items -> within center (radius * radius) p = true ->
  p ∈ queryPointsWithin (buildSpatialIndex items c xy_of) center radius.
Proof.
  intros Hr Hp Hw. unfold queryPointsWithin.
  apply ltb_lt in Hr as Hr'. rewrite Hr'. cbn [negb].
  rewrite (built_nonempty items c p Hp).
  pose proof (build_cellSize_pos items c xy_of) as Hc.
  set (index := buildSpatialIndex items c xy_of) in *.
  set (cs := cellSize index) in *.
  apply within_spec in Hw as Hd. unfold dist2 in Hd. simpl in Hd.
  assert (0 <= radius)%Q as Hr0 by lra.
  pose proof (square_bound _ _ _ Hr0 Hd) as [Hx1 Hx2].
  rewrite Qplus_comm in Hd.
  pose proof (square_bound _ _ _ Hr0 Hd) as [Hy1 Hy2].
  assert (toCell (xy_x center) cs - Num.ceil (radius / cs)
          <= toCell (spawn_x p) cs
          <= toCell (xy_x center) cs + Num.ceil (radius / cs)) as Hwx
    by (apply toCell_window; [done | lra | lra]).
  assert (toCell (xy_y center) cs - Num.ceil (radius / cs)
          <= toCell (spawn_y p) cs
          <= toCell (xy_y center) cs + Num.ceil (radius / cs)) as Hwy
    by (apply toCell_window; [done | lra | lra]).
  apply list_elem_of_In, in_flat_map.
  exists (toCell (spawn_y p) cs - toCell (xy_y center) cs). split.
  { apply list_elem_of_In, elem_of_zrange. lia. }
  apply in_flat_map.
  exists (toCell (spawn_x p) cs - toCell (xy_x center) cs). split.
  { apply list_elem_of_In, elem_of_zrange. lia. }
  rewrite (lookup_bucketAt _ _
    (fun bucket => filter (fun point => within center (radius * radius) point = true) bucket) [])
    by done.
  unfold index. rewrite build_bucketAt.
  apply list_elem_of_In, list_elem_of_filter. split; [done|].
  apply list_elem_of_filter. split; [|done].
  change ((toCell (spawn_x p) cs, toCell (spawn_y p) cs)
          = (toCell (xy_x center) cs
               + (toCell (spawn_x p) cs - toCell (xy_x center) cs),
             toCell (xy_y center) cs
               + (toCell (spawn_y p) cs - toCell (xy_y center) cs))).
  f_equal; lia.
Qed.

Lemma bestOfStarts_best (build : option SpawnXYZ -> result (list SpawnXYZ))
    (starts : list SpawnXYZ) :
  (forall s, s ∈ starts -> exists r, build (Some s) = Ok r) ->
  forall r0 : list SpawnXYZ,
    exists r : list SpawnXYZ,
      bestOfStarts build starts r0 (routeCost r0) = Ok r /\
      (r = r0 \/ exists s, s ∈ starts /\ build (Some s) = Ok r) /\
      (length r0 <= length r)%nat /\
      (length r0 = length r -> (routeCost r <= routeCost r0)%Q) /\
      forall s rs,
        s ∈ starts -> build (Some s) = Ok rs ->
        (length rs <= length r)%nat /\
        (length rs = length r -> (routeCost r <= routeCost rs)%Q).
Proof.
  induction starts as [|s starts IH]; intros Hbuild r0; simpl.
  - exists r0. split; [done|]. split; [by left|]. split; [done|].
    split; [intros; lra|]. intros s rs Hs. by apply elem_of_nil in Hs.
  - destruct (Hbuild s) as [rs Hrs]; [apply list_elem_of_here|].
    rewrite Hrs. simpl.
    assert (forall s', s' ∈ starts -> exists r, build (Some s') = Ok r) as Hrest.
    { intros s' Hs'. apply Hbuild. by apply list_elem_of_further. }
    assert (forall r1 : list SpawnXYZ,
              (r1 = r0 \/ r1 = rs) ->
              (length r0 <= length r1)%nat -> (length rs <= length r1)%nat ->
              (length r0 = length r1 -> (routeCost r1 <= routeCost r0)%Q) ->
              (length rs = length r1 -> (routeCost r1 <= routeCost rs)%Q) ->
              exists r,
                bestOfStarts build starts r1 (routeCost r1) = Ok r /\
                (r = r0 \/ exists s', s' ∈ s :: starts /\ build (Some s') = Ok r) /\
                (length r0 <= length r)%nat /\
                (length r0 = length r -> (routeCost r <= routeCost r0)%Q) /\
                forall s' rs',
                  s' ∈ s :: starts -> build (Some s') = Ok rs' ->
                  (length rs' <= length r)%nat /\
                  (length rs' = length r -> (routeCost r <= routeCost rs')%Q))
      as Hnext.
    { intros r1 Hr1 Hl0 Hls Hc0 Hcs.
      destruct (IH Hrest r1) as (r & Hr & Hfrom & Hlen & Hcost & Hall).
      exists r. split; [done|]. split.
      { destruct Hfrom as [->|(s' & Hs' & Hb')].
        - destruct Hr1 as [-> | ->]; [by left|]. right. exists s.
          split; [apply list_elem_of_here | done].
        - right. exists s'. split; [by apply list_elem_of_further | done]. }
      split; [lia|]. split.
      { intros Heq. assert (length r0 = length r1) as E1 by lia.
        assert (length r1 = length r) as E2 by lia.
        specialize (Hc0 E1). specialize (Hcost E2). lra. }
      intros s' rs' Hs' Hb'. apply elem_of_cons in Hs' as [->|Hs'].
      - assert (rs' = rs) as -> by congruence. split; [lia|].
        intros Heq. assert (length rs = length r1) as E1 by lia.
        assert (length r1 = length r) as E2 by lia.
        specialize (Hcs E1). specialize (Hcost E2). lra.
      - exact (Hall s' rs' Hs' Hb'). }
    destruct (Z.ltb_spec (Z.of_nat (length r0)) (Z.of_nat (length rs))) as [Hlt|Hge].
    { apply Hnext; [by right|lia|lia|intros; lia|intros; lra]. }
    destruct (Z.eqb_spec (Z.of_nat (length rs)) (Z.of_nat (length r0))) as [Heq|Hne].
    2:{ apply Hnext; [by left|lia|lia|intros; lra|intros; lia]. }
    cbv zeta. destruct (Num.ltb (routeCost rs) (routeCost r0)) eqn:Hc.
    + apply ltb_lt in Hc.
      apply Hnext; [by right|lia|lia|intros; lra|intros; lra].
    + apply ltb_ge in Hc.
      apply Hnext; [by left|lia|lia|intros; lra|intros; lra].
Qed.

Lemma generateAutoRoute_nondegenerate (points : list SpawnXYZ)
    (denseIds : gset Z) (settings : AutoRouteSettings) :
  cappedWaypoints (Settings.maxWaypoints settings) <> 0 ->
  safeInArea points denseIds settings <> [] ->
  generateAutoRoute points denseIds settings =
  (let* starts := startCandidatesOf points denseIds settings in
   let build :=
     buildGreedyPath settings (safeInArea points denseIds settings)
       (safeIndexOf points denseIds settings)
       (denseIndexOf points denseIds settings)
       (stepNeighborCountsOf points denseIds settings)
       (cappedWaypoints (Settings.maxWaypoints settings))
       (Settings.maxStepDistance settings) (maxStep2Of settings)
       (Settings.avoidDenseTravelRadius settings) in
   let* first :=
     build (match head starts with
            | Some s => Some s
            | None => head (safeInArea points denseIds settings)
            end) in
   let* bestRoute := bestOfStarts build (tail starts) first (routeCost first) in
   Ok (mkResult bestRoute
         (Stats.mk (Z.of_nat (length points))
            (Z.of_nat (length (inArea points settings)))
            (Z.of_nat (length (denseInArea points denseIds settings)))
            (Z.of_nat (length (safeInArea points denseIds settings)))
            (Z.of_nat (length bestRoute))))).
Proof.
  intros Hcap Hsafe. unfold generateAutoRoute, startCandidatesOf. cbv zeta.
  destruct (Z.eqb_spec (cappedWaypoints (Settings.maxWaypoints settings)) 0)
    as [H0|_]; [done|].
  destruct (Z.eqb_spec
              (Z.of_nat (length (safeInArea points denseIds settings))) 0)
    as [H0|_].
  { destruct (safeInArea points denseIds settings); [done | discriminate]. }
  cbn [orb].
  fold (stepNeighborCountsOf points denseIds settings).
  fold (safeIndexOf points denseIds settings).
  fold (maxStep2Of settings).
  destruct (takeStarts _ _ _); reflexivity.
Qed.

(** ** The greedy path: where it starts and why it stops *)

Section GreedyMore.

Variable settings : AutoRouteSettings.
Variable safePoints : list SpawnXYZ.
Variable safeIndex : option (SpatialIndex SpawnXYZ).
Variable denseIndex : option (SpatialIndex SpawnXYZ).
Variable stepNeighborCounts : gmap Z Z.
Variable maxWaypoints : Z.
Variable maxStep : Q.
Variable maxStep2 : Num.ext.
Variable avoidRadius : Q.

Hypothesis index_sound :
  forall (index : SpatialIndex SpawnXYZ) (c : XY) (p : SpawnXYZ),
    safeIndex = Some index ->
    p ∈ queryPointsWithin index c maxStep -> p ∈ safePoints.

Local Abbreviation consider' :=
  (consider settings safePoints safeIndex denseIndex stepNeighborCounts maxStep
     maxStep2 avoidRadius).
Local Abbreviation greedyLoop' :=
  (greedyLoop settings safePoints safeIndex denseIndex stepNeighborCounts
     maxWaypoints maxStep maxStep2 avoidRadius).
Local Abbreviation forwardDegree' :=
  (forwardDegree safePoints safeIndex maxStep maxStep2).
Local Abbreviation eligible' := (eligible denseIndex maxStep2 avoidRadius).
Local Abbreviation routeInv' :=
  (routeInv safePoints denseIndex maxStep2 avoidRadius).
Local Abbreviation candidatesOf current :=
  (match indexed safeIndex maxStep maxStep2 with
   | Some index => queryPointsWithin index (xy_of current) maxStep
   | None => safePoints
   end).

Lemma forwardDegree_nonneg (visited : gset Z) (candidate : SpawnXYZ) :
  (size visited <= length safePoints)%nat ->
  0 <= forwardDegree' visited candidate.
Proof.
  intros Hsize. unfold forwardDegree.
  destruct (indexed safeIndex maxStep maxStep2) as [index|]; [|lia].
  assert (forall (l : list SpawnXYZ) (d : Z),
            0 <= d ->
            0 <= fold_left (fun degree neighbor =>
                   if spawn_id neighbor =? spawn_id candidate then degree
                   else if bool_decide (spawn_id neighbor ∈ visited) then degree
                   else degree + 1) l d) as Hfold.
  { induction l as [|x l IH]; intros d Hd; simpl; [done|].
    apply IH. destruct (_ =? _); [done|]. case_bool_decide; lia. }
  by apply Hfold.
Qed.

Lemma consider_keeps (visited : gset Z) (current : SpawnXYZ) (st : Pick)
    (candidate : SpawnXYZ) :
  best st <> None -> best (consider' visited current st candidate) <> None.
Proof.
  intros Hst. unfold consider.
  repeat match goal with
         | |- context [if ?c then _ else _] => destruct c
         end; simpl; done.
Qed.

Lemma consider_takes (visited : gset Z) (current : SpawnXYZ) (st : Pick)
    (candidate : SpawnXYZ) :
  bestDegree st = -1 -> 0 <= forwardDegree' visited candidate ->
  (spawn_id candidate =? spawn_id current) = false ->
  eligible' visited current candidate ->
  best (consider' visited current st candidate) = Some candidate.
Proof.
  intros Hdeg Hfwd Hid (Hv & Hstep & Hseg). unfold consider.
  rewrite Hid, bool_decide_eq_false_2, Hstep, Hseg by done. simpl.
  rewrite Hdeg.
  destruct (Z.ltb_spec (-1) (forwardDegree' visited candidate)); [done|lia].
Qed.

Lemma consider_unpicked (visited : gset Z) (current : SpawnXYZ) (st : Pick)
    (candidate : SpawnXYZ) :
  best (consider' visited current st candidate) = None ->
  consider' visited current st candidate = st.
Proof.
  unfold consider.
  repeat match goal with
         | |- context [if ?c then _ else _] => destruct c
         end; simpl; done.
Qed.

Lemma fold_keeps (visited : gset Z) (current : SpawnXYZ)
    (candidates : list SpawnXYZ) (st : Pick) :
  best st <> None ->
  best (fold_left (consider' visited current) candidates st) <> None.
Proof.
  revert st. induction candidates as [|cand rest IH]; intros st Hst; simpl.
  - done.
  - apply IH. by apply consider_keeps.
Qed.

(** When the loop over the candidates picks nothing, no candidate was
    open. *)
Lemma pick_none (visited : gset Z) (current : SpawnXYZ)
    (candidates : list SpawnXYZ) (st : Pick) :
  (size visited <= length safePoints)%nat ->
  bestDegree st = -1 ->
  best (fold_left (consider' visited current) candidates st) = None ->
  forall cand : SpawnXYZ,
    cand ∈ candidates ->
    (spawn_id cand =? spawn_id current) = false ->
    eligible' visited current cand -> False.
Proof.
  intros Hsize. revert st.
  induction candidates as [|c rest IH]; intros st Hdeg Hnone cand Hin Hid He.
  - by apply elem_of_nil in Hin.
  - simpl in Hnone.
    destruct (best (consider' visited current st c)) eqn:Hb.
    { apply (fold_keeps visited current rest) in Hnone; [done|].
      by rewrite Hb. }
    pose proof (consider_unpicked visited current st c Hb) as Hsame.
    apply elem_of_cons in Hin as [->|Hin].
    + rewrite (consider_takes visited current st c) in Hb; try done.
      by apply forwardDegree_nonneg.
    + rewrite Hsame in Hnone. by apply (IH st Hdeg Hnone cand).
Qed.

Lemma routeInv_size (route : list SpawnXYZ) (visited : gset Z) :
  routeInv' route visited ->
  (size visited <= length safePoints)%nat.
Proof.
  intros [_ Hvis Hnd Hsafe _].
  assert (visited = list_to_set (map spawn_id route)) as ->.
  { apply set_eq. intros i. rewrite Hvis, elem_of_list_to_set. done. }
  rewrite size_list_to_set by done.
  rewrite <- (length_map spawn_id safePoints).
  apply nodup_length_le; [done|].
  intros i Hi. apply list_elem_of_fmap in Hi as (p & -> & Hp).
  apply list_elem_of_fmap. exists p. split; [done|].
  rewrite Forall_forall in Hsafe. by apply Hsafe.
Qed.

(** The loop keeps the first waypoint, and stops short of [maxWaypoints] only
    where no candidate is open. *)
Lemma greedyLoop_stops (fuel : nat) :
  forall (route : list SpawnXYZ) (visited : gset Z),
    routeInv' route visited ->
    Z.of_nat (length route) <= maxWaypoints ->
    maxWaypoints - Z.of_nat (length route) <= Z.of_nat fuel ->
    exists (route' : list SpawnXYZ) (visited' : gset Z),
      greedyLoop' fuel route visited = Ok route' /\
      routeInv' route' visited' /\
      Z.of_nat (length route') <= maxWaypoints /\
      head route' = head route /\
      (Z.of_nat (length route') = maxWaypoints \/
       exists c : SpawnXYZ,
         last route' = Some c /\
         forall cand : SpawnXYZ,
           cand ∈ candidatesOf c ->
           spawn_id cand ∉ map spawn_id route' ->
           ~ stepOk denseIndex maxStep2 avoidRadius c cand).
Proof.
  induction fuel as [|fuel IH]; intros route visited Hinv Hlen Hfuel.
  - exists route, visited. simpl.
    destruct (Z.ltb_spec (Z.of_nat (length route)) maxWaypoints); [lia|].
    simpl. repeat (split; [done|]). left. lia.
  - simpl.
    destruct (Z.ltb_spec (Z.of_nat (length route)) maxWaypoints) as [Hlt|Hge]; simpl.
    2:{ exists route, visited. repeat (split; [done|]). left. lia. }
    destruct (last route) as [current|] eqn:Hlast.
    2:{ apply last_None in Hlast. by destruct Hinv. }
    simpl.
    destruct (best (fold_left (consider' visited current) (candidatesOf current)
                      noPick)) as [b|] eqn:Hbest.
    + destruct (pick_fold settings safePoints safeIndex denseIndex
                  stepNeighborCounts maxStep maxStep2 avoidRadius visited
                  current (candidatesOf current) noPick)
        as [Hnone|(b' & Hb' & Hin & He)].
      { rewrite Hbest in Hnone. discriminate. }
      assert (b' = b) as -> by congruence.
      apply (candidates_safe safePoints safeIndex maxStep maxStep2 index_sound)
        in Hin.
      destruct (IH (route ++ [b]) ({[spawn_id b]} ∪ visited))
        as (r' & v' & Hr' & Hi' & Hl' & Hhead & Hstop).
      * by eapply routeInv_snoc.
      * rewrite length_app. simpl. lia.
      * rewrite length_app. simpl. lia.
      * exists r', v'. repeat (split; [done|]). split; [|done].
        rewrite Hhead. destruct route; [by destruct Hinv | done].
    + exists route, visited. repeat (split; [done|]). right.
      exists current. split; [done|].
      intros cand Hcand Hnew Hstep.
      pose proof (routeInv_size route visited Hinv) as Hsize.
      destruct Hinv as [Hne Hvis Hnd Hsafe Hsteps].
      apply (pick_none visited current (candidatesOf current) noPick Hsize
               eq_refl Hbest cand Hcand).
      * apply Z.eqb_neq. intros Heq. apply Hnew. rewrite Heq.
        apply list_elem_of_fmap. exists current. split; [done|].
        rewrite last_lookup in Hlast. by eapply list_elem_of_lookup_2.
      * split; [|done]. intros Hv. apply Hnew. by apply Hvis.
Qed.

End GreedyMore.

Lemma greedyFrom_ok (points : list SpawnXYZ) (denseIds : gset Z)
    (settings : AutoRouteSettings) (s : SpawnXYZ) :
  s ∈ safeInArea points denseIds settings ->
  1 <= cappedWaypoints (Settings.maxWaypoints settings) ->
  exists route' : list SpawnXYZ,
    greedyFrom points denseIds settings s = Ok route' /\
    head route' = Some s /\
    (Z.of_nat (length route') = cappedWaypoints (Settings.maxWaypoints settings) \/
     forall c q : SpawnXYZ,
       last route' = Some c ->
       q ∈ safeInArea points denseIds settings ->
       spawn_id q ∉ map spawn_id route' ->
       barred points denseIds settings c q).
Proof.
  intros Hs Hcap. unfold greedyFrom, buildGreedyPath. simpl.
  set (safe := safeInArea points denseIds settings) in *.
  assert (forall (index : SpatialIndex SpawnXYZ) (c : XY) (p : SpawnXYZ),
            safeIndexOf points denseIds settings = Some index ->
            p ∈ queryPointsWithin index c (Settings.maxStepDistance settings) ->
            p ∈ safe) as Hsound.
  { intros index c p Hidx Hp. unfold safeIndexOf in Hidx.
    destruct (Num.ltb 0 _); [|done]. injection Hidx as <-.
    by apply query_sound in Hp as [Hp _]. }
  destruct (greedyLoop_stops settings safe (safeIndexOf points denseIds settings)
              (denseIndexOf points denseIds settings)
              (stepNeighborCountsOf points denseIds settings)
              (cappedWaypoints (Settings.maxWaypoints settings))
              (Settings.maxStepDistance settings) (maxStep2Of settings)
              (Settings.avoidDenseTravelRadius settings) Hsound
              (Z.to_nat (cappedWaypoints (Settings.maxWaypoints settings)))
              [s] {[spawn_id s]})
    as (r' & v' & Hr' & _ & _ & Hhead & Hstop).
  { split.
    - done.
    - intros i. simpl. rewrite elem_of_singleton, list_elem_of_singleton. done.
    - simpl. apply NoDup_singleton.
    - by apply Forall_singleton.
    - apply consecutive_single. }
  { simpl. lia. }
  { simpl. lia. }
  exists r'. split; [done|]. split; [done|].
  destruct Hstop as [Hfull|(c & Hlast & Hstuck)]; [by left|]. right.
  intros c' q Hlast' Hq Hnew.
  assert (c' = c) as -> by congruence.
  assert (~ stepOk (denseIndexOf points denseIds settings) (maxStep2Of settings)
            (Settings.avoidDenseTravelRadius settings) c q -> 
          barred points denseIds settings c q) as Hbar.
  { intros Hno. unfold stepOk in Hno. unfold barred.
    destruct (Num.gt_ext (dist2 (xy_of c) (xy_of q)) (maxStep2Of settings)) eqn:Hgt.
    - left. unfold maxStep2Of in Hgt.
      destruct (Num.ltb 0 (Settings.maxStepDistance settings)) eqn:Hpos;
        simpl in Hgt; [|done].
      split; [by apply ltb_lt | by apply ltb_lt].
    - right. apply not_true_is_false. intros Hseg. by apply Hno. }
  unfold indexed, safeIndexOf in Hstuck.
  destruct (Num.ltb 0 (Settings.maxStepDistance settings)) eqn:Hpos.
  - assert (Num.isFinite (maxStep2Of settings) = true) as Hfin.
    { unfold maxStep2Of. by rewrite Hpos. }
    rewrite Hfin in Hstuck. cbn [andb] in Hstuck.
    destruct (within (xy_of c)
                (Settings.maxStepDistance settings
                 * Settings.maxStepDistance settings) q) eqn:Hw.
    + apply Hbar, Hstuck; [|done].
      apply query_complete; [by apply ltb_lt | done | done].
    + left. split; [by apply ltb_lt|].
      unfold within in Hw. apply leb_gt in Hw.
      change (Settings.maxStepDistance settings * Settings.maxStepDistance settings
              < dist2 (xy_of q) (xy_of c))%Q in Hw.
      pose proof (dist2_sym (xy_of q) (xy_of c)). lra.
  - apply Hbar, Hstuck; done.
Qed.

(** X8.  With a budget of at least one waypoint and a safe in-area point,
    the returned route is a greedy path from one of the start candidates and
    begins with that candidate; no start candidate gives a longer greedy
    path, and none gives one as long that costs less. *)
Theorem generateAutoRoute_best_path (points : list SpawnXYZ)
    (denseIds : gset Z) (settings : AutoRouteSettings) :
  1 <= Num.floor (Settings.maxWaypoints settings) ->
  safeInArea points denseIds settings <> [] ->
  exists (r : AutoRouteResult) (starts : list SpawnXYZ),
    generateAutoRoute points denseIds settings = Ok r /\
    startCandidatesOf points denseIds settings = Ok starts /\
    (exists s : SpawnXYZ,
       s ∈ starts /\ greedyFrom points denseIds settings s = Ok (route r) /\
       head (route r) = Some s) /\
    (forall s : SpawnXYZ,
       s ∈ starts ->
       exists rs : list SpawnXYZ,
         greedyFrom points denseIds settings s = Ok rs /\
         (length rs <= length (route r))%nat /\
         (length rs = length (route r) ->
          (routeCost (route r) <= routeCost rs)%Q)).
Proof.
  intros Hw Hne.
  assert (1 <= cappedWaypoints (Settings.maxWaypoints settings)) as Hcap
    by (rewrite cappedWaypoints_max; lia).
  rewrite generateAutoRoute_nondegenerate by (done || lia).
  destruct (startCandidates_ok points denseIds settings Hne)
    as (starts & c & Hstarts & _ & Hsne & _ & Hsafe & _).
  rewrite Hstarts. simpl.
  destruct starts as [|s0 rest]; [done|]. simpl.
  assert (forall s, s ∈ s0 :: rest ->
            exists rs, greedyFrom points denseIds settings s = Ok rs /\
                       head rs = Some s) as Hgreedy.
  { intros s Hs. destruct (greedyFrom_ok points denseIds settings s)
      as (rs & Hrs & Hhead & _); [by apply Hsafe | done |]. by exists rs. }
  destruct (Hgreedy s0) as (r0 & Hr0 & Hh0); [apply list_elem_of_here|].
  change (buildGreedyPath settings (safeInArea points denseIds settings)
            (safeIndexOf points denseIds settings)
            (denseIndexOf points denseIds settings)
            (stepNeighborCountsOf points denseIds settings)
            (cappedWaypoints (Settings.maxWaypoints settings))
            (Settings.maxStepDistance settings) (maxStep2Of settings)
            (Settings.avoidDenseTravelRadius settings) (Some s0))
    with (greedyFrom points denseIds settings s0).
  rewrite Hr0. simpl.
  match goal with
  | |- context [bestOfStarts ?build rest r0 (routeCost r0)] =>
      destruct (bestOfStarts_best build rest) with (r0 := r0)
        as (r & Hr & Hfrom & Hlen & Hcost & Hall)
  end.
  { intros s Hs. destruct (Hgreedy s) as (rs & Hrs & _);
      [by apply list_elem_of_further|]. by exists rs. }
  rewrite Hr. simpl. eexists. exists (s0 :: rest).
  split; [reflexivity|]. split; [done|]. simpl. split.
  - destruct Hfrom as [->|(s & Hs & Hb)].
    + exists s0. split; [apply list_elem_of_here | done].
    + exists s. split; [by apply list_elem_of_further|]. split; [done|].
      destruct (Hgreedy s) as (rs & Hrs & Hhs); [by apply list_elem_of_further|].
      change (greedyFrom points denseIds settings s = Ok r) in Hb. congruence.
  - intros s Hs. apply elem_of_cons in Hs as [->|Hs].
    + exists r0. split; [done|]. split; [done|]. intros Heq. by apply Hcost.
    + destruct (Hgreedy s) as (rs & Hrs & _); [by apply list_elem_of_further|].
      exists rs. split; [done|]. by apply (Hall s rs).
Qed.

Lemma generateAutoRoute_best_path_witness :
  exists (r : AutoRouteResult) (starts : list SpawnXYZ),
    generateAutoRoute scenarioPoints ∅ scenarioSettings = Ok r /\
    startCandidatesOf scenarioPoints ∅ scenarioSettings = Ok starts /\
    (exists s : SpawnXYZ,
       s ∈ starts /\
       greedyFrom scenarioPoints ∅ scenarioSettings s = Ok (route r) /\
       head (route r) = Some s) /\
    (forall s : SpawnXYZ,
       s ∈ starts ->
       exists rs : list SpawnXYZ,
         greedyFrom scenarioPoints ∅ scenarioSettings s = Ok rs /\
         (length rs <= length (route r))%nat /\
         (length rs = length (route r) ->
          (routeCost (route r) <= routeCost rs)%Q)).
Proof.
  apply (generateAutoRoute_best_path scenarioPoints ∅ scenarioSettings).
  - vm_compute. discriminate.
  - discriminate.
Defined.

(** X9.  The returned route either uses the whole budget of
    [max(0, floor(maxWaypoints))] waypoints or cannot be continued: from its
    last waypoint, every safe in-area point whose id is not yet on the route
    is farther than a bounded [maxStepDistance] or has its segment barred by
    a dense point. *)
Theorem generateAutoRoute_stops (points : list SpawnXYZ) (denseIds : gset Z)
    (settings : AutoRouteSettings) :
  exists r : AutoRouteResult,
    generateAutoRoute points denseIds settings = Ok r /\
    (Z.of_nat (length (route r))
       = Z.max 0 (Num.floor (Settings.maxWaypoints settings)) \/
     forall c q : SpawnXYZ,
       last (route r) = Some c ->
       q ∈ safeInArea points denseIds settings ->
       spawn_id q ∉ map spawn_id (route r) ->
       barred points denseIds settings c q).
Proof.
  destruct (generateAutoRoute_spec points denseIds settings)
    as (r & Hr & _ & Hempty & _).
  exists r. split; [done|].
  rewrite <- cappedWaypoints_max.
  pose proof (cappedWaypoints_nonneg (Settings.maxWaypoints settings)) as Hnn.
  destruct (decide (cappedWaypoints (Settings.maxWaypoints settings) = 0)) as [H0|H0].
  { left. rewrite Hempty by (by left). simpl. lia. }
  destruct (safeInArea points denseIds settings) as [|p0 safe'] eqn:Hsafe.
  { right. intros c q _ Hq. by apply elem_of_nil in Hq. }
  assert (safeInArea points denseIds settings <> []) as Hne by (by rewrite Hsafe).
  rewrite <- Hsafe.
  rewrite generateAutoRoute_nondegenerate in Hr by done.
  destruct (startCandidates_ok points denseIds settings Hne)
    as (starts & c & Hstarts & _ & Hsne & _ & Hin & _).
  rewrite Hstarts in Hr. simpl in Hr.
  destruct starts as [|s0 rest]; [done|]. simpl in Hr.
  assert (forall s, s ∈ s0 :: rest ->
            exists rs, greedyFrom points denseIds settings s = Ok rs /\
              (Z.of_nat (length rs)
                 = cappedWaypoints (Settings.maxWaypoints settings) \/
               forall c q : SpawnXYZ,
                 last rs = Some c ->
                 q ∈ safeInArea points denseIds settings ->
                 spawn_id q ∉ map spawn_id rs ->
                 barred points denseIds settings c q)) as Hgreedy.
  { intros s Hs. destruct (greedyFrom_ok points denseIds settings s)
      as (rs & Hrs & _ & Hstop); [by apply Hin | lia |]. by exists rs. }
  destruct (Hgreedy s0) as (r0 & Hr0 & Hstop0); [apply list_elem_of_here|].
  change (buildGreedyPath settings (safeInArea points denseIds settings)
            (safeIndexOf points denseIds settings)
            (denseIndexOf points denseIds settings)
            (stepNeighborCountsOf points denseIds settings)
            (cappedWaypoints (Settings.maxWaypoints settings))
            (Settings.maxStepDistance settings) (maxStep2Of settings)
            (Settings.avoidDenseTravelRadius settings) (Some s0))
    with (greedyFrom points denseIds settings s0) in Hr.
  rewrite Hr0 in Hr. simpl in Hr.
  match type of Hr with
  | context [bestOfStarts ?build rest r0 (routeCost r0)] =>
      destruct (bestOfStarts_best build rest) with (r0 := r0)
        as (rb & Hrb & Hfrom & _)
  end.
  { intros s Hs. destruct (Hgreedy s) as (rs & Hrs & _);
      [by apply list_elem_of_further|]. by exists rs. }
  rewrite Hrb in Hr. simpl in Hr. injection Hr as <-. simpl.
  destruct Hfrom as [->|(s & Hs & Hb)]; [done|].
  destruct (Hgreedy s) as (rs & Hrs & Hstop); [by apply list_elem_of_further|].
  change (greedyFrom points denseIds settings s = Ok rb) in Hb.
  assert (rs = rb) as <- by congruence. done.
Qed.

(** ** The tuner's helpers *)

Lemma sort_insert_ascending (a : Q) (l : list Q) :
  StronglySorted Qle l ->
  StronglySorted Qle (sort_insert (fun a b => (a - b)%Q) a l).
Proof.
  induction l as [|b l IH]; intros Hl; simpl.
  - repeat constructor.
  - apply StronglySorted_inv in Hl as [Hl Hb].
    destruct (Num.ltb (a - b) 0) eqn:Hab.
    + apply ltb_lt in Hab. constructor; [by constructor|].
      constructor; [lra|]. eapply Forall_impl; [exact Hb|].
      intros x Hx. simpl in Hx. lra.
    + apply ltb_ge in Hab. constructor; [by apply IH|].
      rewrite sort_insert_perm. constructor; [lra | done].
Qed.

Lemma sort_ascending (l : list Q) :
  StronglySorted Qle (sort (fun a b => (a - b)%Q) l).
Proof.
  unfold sort.
  assert (forall acc, StronglySorted Qle acc ->
            StronglySorted Qle
              (fold_left (fun acc a => sort_insert (fun a b => (a - b)%Q) a acc)
                 l acc)) as H.
  { induction l as [|a l IH]; intros acc Hacc; simpl; [done|].
    apply IH. by apply sort_insert_ascending. }
  apply H. constructor.
Qed.

Lemma apart_snoc (result : list Q) (u v : Q) :
  StronglySorted apart result -> last result = Some u -> apart u v ->
  StronglySorted apart (result ++ [v]).
Proof.
  unfold apart. induction result as [|x result IH]; intros Hs Hlast Huv; [done|].
  apply StronglySorted_inv in Hs as [Hs Hx].
  destruct result as [|y result].
  - simpl in *. injection Hlast as ->. repeat constructor. done.
  - change (last (x :: y :: result)) with (last (y :: result)) in Hlast.
    specialize (IH Hs Hlast Huv).
    change ((x :: y :: result) ++ [v]) with (x :: ((y :: result) ++ [v])).
    constructor; [done|].
    apply Forall_app. split; [done|]. apply Forall_singleton.
    assert (u ∈ y :: result) as Hu.
    { rewrite last_lookup in Hlast. by eapply list_elem_of_lookup_2. }
    rewrite Forall_forall in Hx. specialize (Hx u Hu). simpl in Hx.
    unfold Num.lit_1e_9 in *. lra.
Qed.

(** The loop of [uniqueSorted] over an ascending list. *)
Lemma uniqueStep_fold (rest : list Q) :
  forall (result : list Q) (last_kept : Num.ext),
    StronglySorted Qle rest ->
    StronglySorted apart result ->
    match last result with
    | None => result = []
    | Some u => last_kept = Num.Fin u /\ Forall (Qle u) rest
    end ->
    let out := fst (fold_left uniqueStep rest (result, last_kept)) in
    StronglySorted apart out /\
    (forall u, u ∈ out -> u ∈ result \/ u ∈ rest) /\
    (forall u, u ∈ result -> u ∈ out) /\
    (forall v, v ∈ rest ->
       exists u, u ∈ out /\ (u <= v)%Q /\ (v <= u + Num.lit_1e_9)%Q).
Proof.
  induction rest as [|value rest IH]; intros result last_kept Hrest Hres Hlast;
    simpl.
  - split; [done|]. split; [by left|]. split; [done|].
    intros v Hv. by apply elem_of_nil in Hv.
  - apply StronglySorted_inv in Hrest as [Hrest Hvalue].
    assert (forall res' lk',
              (forall u, u ∈ res' -> u ∈ result \/ u = value) ->
              (forall u, u ∈ result -> u ∈ res') ->
              (exists u, u ∈ res' /\ (u <= value)%Q /\
                         (value <= u + Num.lit_1e_9)%Q) ->
              StronglySorted apart res' ->
              match last res' with
              | None => res' = []
              | Some u => lk' = Num.Fin u /\ Forall (Qle u) rest
              end ->
              let out := fst (fold_left uniqueStep rest (res', lk')) in
              StronglySorted apart out /\
              (forall u, u ∈ out -> u ∈ result \/ u ∈ value :: rest) /\
              (forall u, u ∈ result -> u ∈ out) /\
              (forall v, v ∈ value :: rest ->
                 exists u, u ∈ out /\ (u <= v)%Q /\ (v <= u + Num.lit_1e_9)%Q))
      as Hnext.
    { intros res' lk' Hsub Hsup Hcov Hs' Hl'.
      destruct (IH res' lk' Hrest Hs' Hl') as (Ha & Hb & Hc & Hd).
      split; [done|]. split.
      { intros u Hu. destruct (Hb u Hu) as [H|H].
        - destruct (Hsub u H) as [H'| ->]; [by left|]. right. apply list_elem_of_here.
        - right. by apply list_elem_of_further. }
      split; [auto|].
      intros v Hv. apply elem_of_cons in Hv as [->|Hv]; [|auto].
      destruct Hcov as (u & Hu & Hle). exists u. split; [auto | done]. }
    unfold uniqueStep at 2.
    destruct (last result) as [u|] eqn:Hlu.
    + destruct Hlast as [-> Hall].
      apply Forall_cons in Hall as [Huv Hall].
      assert (result <> []) as Hne by (intros ->; discriminate).
      assert ((Z.of_nat (length result) =? 0) = false) as Hlen0.
      { destruct result; [done|]. done. }
      rewrite Hlen0. cbn [orb Num.absDiff Num.ext_gt].
      assert (Num.abs (value - u) = (value - u)%Q) as Habs.
      { unfold Num.abs. assert (Num.leb 0 (value - u) = true) as ->; [|done].
        apply leb_le. lra. }
      rewrite Habs.
      destruct (Num.ltb Num.lit_1e_9 (value - u)) eqn:Hgap.
      * apply ltb_lt in Hgap. apply Hnext.
        -- intros x Hx. apply elem_of_app in Hx as [Hx|Hx]; [by left|].
           right. by apply list_elem_of_singleton in Hx.
        -- intros x Hx. apply elem_of_app. by left.
        -- exists value. split; [|unfold Num.lit_1e_9; lra].
           apply elem_of_app. right. by apply list_elem_of_singleton.
        -- apply (apart_snoc result u value); [done|done|]. unfold apart. lra.
        -- rewrite last_snoc. split; [done|]. done.
      * apply ltb_ge in Hgap. apply Hnext.
        -- intros x Hx. by left.
        -- done.
        -- exists u. split; [|lra].
           rewrite last_lookup in Hlu. by eapply list_elem_of_lookup_2.
        -- done.
        -- rewrite Hlu. split; [done|]. done.
    + subst result. cbn [length Z.of_nat Z.eqb orb app].
      apply Hnext.
      * intros x Hx. right. by apply list_elem_of_singleton in Hx.
      * intros x Hx. by apply elem_of_nil in Hx.
      * exists value. split; [apply list_elem_of_here | unfold Num.lit_1e_9; lra].
      * repeat constructor.
      * simpl. split; [done|]. done.
Qed.

(** X11.  [uniqueSorted] returns positive values of its input, in ascending
    order and more than 1e-9 apart; and every positive input value is at most
    1e-9 above one of the values returned. *)
Theorem uniqueSorted_spec (values : list Q) :
  StronglySorted apart (uniqueSorted values) /\
  (forall u : Q, u ∈ uniqueSorted values -> u ∈ values /\ (0 < u)%Q) /\
  (forall v : Q,
     v ∈ values -> (0 < v)%Q ->
     exists u : Q,
       u ∈ uniqueSorted values /\ (u <= v)%Q /\ (v <= u + Num.lit_1e_9)%Q).
Proof.
  unfold uniqueSorted. cbv zeta.
  set (cleaned := filter (fun value => Num.ltb 0 value = true) values).
  destruct (uniqueStep_fold (sort (fun a b => (a - b)%Q) cleaned) [] Num.NegInf)
    as (Hsorted & Hfrom & _ & Hcover).
  { apply sort_ascending. }
  { constructor. }
  { done. }
  split; [done|]. split.
  - intros u Hu. destruct (Hfrom u Hu) as [H|H]; [by apply elem_of_nil in H|].
    rewrite sort_perm in H. unfold cleaned in H.
    apply list_elem_of_filter in H as [Hpos Hin]. split; [done|].
    by apply ltb_lt.
  - intros v Hv Hpos. apply Hcover. rewrite sort_perm.
    apply list_elem_of_filter. split; [by apply ltb_lt | done].
Qed.

Lemma tryStep_result (basePoints : list SpawnXYZ) (denseIds : gset Z)
    (center : XY) (cappedWaypoints : Z) (clusterRadius areaBase
    dirtySupportRadius : Q) (best : option Best) (maxStepDistance : Q)
    (best' : option Best) :
  tryStep basePoints denseIds center cappedWaypoints clusterRadius areaBase
    dirtySupportRadius best maxStepDistance = Ok best' ->
  best' = best \/
  exists (b : Best),
    best' = Some b /\
    params b
    = Tuned.mk clusterRadius (areaBase + maxStepDistance * (7 # 20))
        maxStepDistance
        (Num.max (clusterRadius * (23 # 20)) (maxStepDistance * (1 # 4)))
        dirtySupportRadius.
Proof.
  unfold tryStep.
  destruct (generateAutoRoute _ _ _) as [r|e]; simpl; [|done].
  destruct best as [b|].
  - repeat match goal with
           | |- context [if ?c then _ else _] => destruct c
           end; intros [= <-]; (by left) || (right; eexists; split; reflexivity).
  - intros [= <-]. right. eexists. split; reflexivity.
Qed.

Lemma params_tunedOk (clusterRadius areaBase step dirtySupportRadius : Q) :
  (0 < clusterRadius)%Q -> (clusterRadius * (21 # 20) < step)%Q ->
  (0 < dirtySupportRadius)%Q ->
  tunedOk (Tuned.mk clusterRadius (areaBase + step * (7 # 20)) step
             (Num.max (clusterRadius * (23 # 20)) (step * (1 # 4)))
             dirtySupportRadius).
Proof.
  intros Hc Hs Hd. unfold tunedOk. simpl.
  repeat (split; [done|]). split; [|done].
  destruct (max_spec (clusterRadius * (23 # 20)) (step * (1 # 4)))
    as [[H ->]|[H ->]]; lra.
Qed.

Lemma forSteps_tunedOk (basePoints : list SpawnXYZ) (denseIds : gset Z)
    (center : XY) (cappedWaypoints : Z) (clusterRadius areaBase
    dirtySupportRadius : Q) (stepCandidates : list Q) :
  (0 < clusterRadius)%Q -> (0 < dirtySupportRadius)%Q ->
  Forall (fun step => (clusterRadius * (21 # 20) < step)%Q) stepCandidates ->
  forall best best' : option Best,
    (forall b, best = Some b -> tunedOk (params b)) ->
    forSteps
      (tryStep basePoints denseIds center cappedWaypoints clusterRadius areaBase
         dirtySupportRadius) stepCandidates best = Ok best' ->
    forall b, best' = Some b -> tunedOk (params b).
Proof.
  intros Hc Hd. induction stepCandidates as [|step rest IH];
    intros Hall best best' Hbest; simpl.
  - intros [= <-]. done.
  - apply Forall_cons in Hall as [Hstep Hall].
    destruct (tryStep _ _ _ _ _ _ _ best step) as [best1|e] eqn:Htry; simpl;
      [|done].
    apply IH; [done|].
    apply tryStep_result in Htry as [->|(b1 & -> & Hp)]; [done|].
    intros b [= <-]. rewrite Hp. by apply params_tunedOk.
Qed.

Lemma uniqueSorted_positive (values : list Q) :
  Forall (fun u => (0 < u)%Q) (uniqueSorted values).
Proof.
  unfold uniqueSorted. cbv zeta.
  set (cleaned := filter (fun value => Num.ltb 0 value = true) values).
  destruct (uniqueStep_fold (sort (fun a b => (a - b)%Q) cleaned) [] Num.NegInf)
    as (_ & Hfrom & _); [apply sort_ascending | constructor | done |].
  apply Forall_forall. intros u Hu.
  destruct (Hfrom u Hu) as [H|H]; [by apply elem_of_nil in H|].
  rewrite sort_perm in H. apply list_elem_of_filter in H as [Hpos _].
  by apply ltb_lt.
Qed.

Lemma tryCluster_tunedOk (sqrt : Q -> Q) (basePoints : list SpawnXYZ)
    (center : XY) (cappedWaypoints : Z) (baseSpacing dirtySupportRadius : Q)
    (best best' : option Best) (clusterRadius : Q) :
  (0 < clusterRadius)%Q -> (0 < dirtySupportRadius)%Q ->
  (forall b, best = Some b -> tunedOk (params b)) ->
  tryCluster sqrt basePoints center cappedWaypoints baseSpacing
    dirtySupportRadius best clusterRadius = Ok best' ->
  forall b, best' = Some b -> tunedOk (params b).
Proof.
  intros Hc Hd Hbest. unfold tryCluster.
  destruct (_ =? 0); [by intros [= <-]|].
  apply forSteps_tunedOk; [done|done| |done].
  apply Forall_forall. intros step Hstep.
  apply list_elem_of_filter in Hstep as [Hgt _]. by apply ltb_lt.
Qed.

Lemma forClusters_tunedOk (sqrt : Q -> Q) (basePoints : list SpawnXYZ)
    (center : XY) (cappedWaypoints : Z) (baseSpacing dirtySupportRadius : Q)
    (clusterCandidates : list Q) :
  (0 < dirtySupportRadius)%Q ->
  Forall (fun c => (0 < c)%Q) clusterCandidates ->
  forall best best' : option Best,
    (forall b, best = Some b -> tunedOk (params b)) ->
    forClusters
      (tryCluster sqrt basePoints center cappedWaypoints baseSpacing
         dirtySupportRadius) clusterCandidates best = Ok best' ->
    forall b, best' = Some b -> tunedOk (params b).
Proof.
  intros Hd. induction clusterCandidates as [|c rest IH];
    intros Hall best best' Hbest; simpl.
  - intros [= <-]. done.
  - apply Forall_cons in Hall as [Hc Hall].
    destruct (tryCluster _ _ _ _ _ _ best c) as [best1|e] eqn:Htry; simpl;
      [|done].
    apply IH; [done|].
    by apply (tryCluster_tunedOk sqrt basePoints center cappedWaypoints
                baseSpacing dirtySupportRadius best best1 c).
Qed.

(** X13.  Whatever [tuneAutoRouteParams] returns other than [null] has a
    positive cluster radius, a step distance more than 1.05 times the cluster
    radius, the avoidance radius [max(1.15 * clusterRadius,
    0.25 * maxStepDistance)], positive, and a positive dirty-support
    radius. *)
Theorem tuneAutoRouteParams_tunedOk (sqrt : Q -> Q) (points : list SpawnXYZ)
    (center : XY) (maxWaypoints : Q) (p : TunedAutoRouteParams) :
  tuneAutoRouteParams sqrt points center maxWaypoints = Ok (Some p) ->
  tunedOk p.
Proof.
  unfold tuneAutoRouteParams.
  destruct (_ =? 0); [done|]. destruct (_ =? 0); [done|]. cbv zeta.
  set (baseSpacing := match estimateBaseSpacing sqrt _ with
                      | Num.Fin raw => if Num.ltb 0 raw then raw else 200%Q
                      | _ => 200%Q
                      end).
  assert (0 < baseSpacing)%Q as Hbase.
  { unfold baseSpacing. destruct (estimateBaseSpacing sqrt _) as [|raw|]; try done.
    destruct (Num.ltb 0 raw) eqn:Hraw; [by apply ltb_lt | done]. }
  destruct (forClusters _ _ None) as [best|e] eqn:Hfor; simpl; [|done].
  destruct best as [b|]; [|done]. intros [= <-].
  eapply forClusters_tunedOk in Hfor; [exact Hfor| | |done|reflexivity].
  - lra.
  - apply uniqueSorted_positive.
Qed.

Lemma tuneAutoRouteParams_tunedOk_witness :
  exists p : TunedAutoRouteParams,
    tuneAutoRouteParams (fun q => inject_Z (Z.sqrt (Qfloor q)))
      (scenarioPoints ++ [spawnAt 5 50 50]) (mkXY 0 0) 3 = Ok (Some p) /\
    tunedOk p.
Proof.
  eexists. split; [vm_compute; reflexivity|].
  apply (tuneAutoRouteParams_tunedOk (fun q => inject_Z (Z.sqrt (Qfloor q)))
           (scenarioPoints ++ [spawnAt 5 50 50]) (mkXY 0 0) 3).
  vm_compute. reflexivity.
Defined.

Ltac comparisons :=
  repeat match goal with
         | H : Num.ltb _ _ = true |- _ => apply ltb_lt in H
         | H : Num.ltb _ _ = false |- _ => apply ltb_ge in H
         end.

Lemma boundsStep_box (b : Bounds) (seen : list SpawnXYZ) (p : SpawnXYZ) :
  boxOf b seen -> boxOf (boundsStep b p) (seen ++ [p]).
Proof.
  destruct b as [[|x0|] [|x1|] [|y0|] [|y1|]]; unfold boxOf; simpl; try done.
  - intros (Hbox & (px0 & Hpx0 & Ex0) & (px1 & Hpx1 & Ex1)
            & (py0 & Hpy0 & Ey0) & (py1 & Hpy1 & Ey1)).
    unfold boundsStep. simpl.
    assert (forall q, q ∈ seen -> q ∈ seen ++ [p]) as Hold
      by (intros q Hq; apply elem_of_app; by left).
    assert (p ∈ seen ++ [p]) as Hnew
      by (apply elem_of_app; right; by apply list_elem_of_singleton).
    destruct (Num.ltb (spawn_x p) x0) eqn:C1; simpl;
      destruct (Num.ltb x1 (spawn_x p)) eqn:C2; simpl;
      destruct (Num.ltb (spawn_y p) y0) eqn:C3; simpl;
      destruct (Num.ltb y1 (spawn_y p)) eqn:C4; simpl; comparisons;
      (split;
       [intros q Hq; apply elem_of_app in Hq as [Hq|Hq];
        [destruct (Hbox q Hq) as (? & ? & ? & ?); repeat split; lra
        |apply list_elem_of_singleton in Hq as ->; repeat split; lra]
       |repeat split; eauto]).
  - intros ->. unfold boundsStep. simpl.
    assert (p ∈ [] ++ [p]) as Hnew by apply list_elem_of_here.
    split; [|repeat split; eauto].
    intros q Hq. apply list_elem_of_singleton in Hq as ->. repeat split; lra.
Qed.

Lemma bounds_fold (rest seen : list SpawnXYZ) (b : Bounds) :
  boxOf b seen -> boxOf (fold_left boundsStep rest b) (seen ++ rest).
Proof.
  revert seen b. induction rest as [|p rest IH]; intros seen b Hb; simpl.
  - by rewrite app_nil_r.
  - replace (seen ++ p :: rest) with ((seen ++ [p]) ++ rest)
      by (by rewrite <- app_assoc).
    apply IH. by apply boundsStep_box.
Qed.

(** X12.  [estimateBaseSpacing] is [Infinity] without a point.  With at
    least one point, and a [Math.sqrt] that is positive on positive
    numbers, it is a finite number that is never negative, and is 0 exactly
    when all the points are at one position. *)
Theorem estimateBaseSpacing_spec (sqrt : Q -> Q) (points : list SpawnXYZ) :
  (forall u : Q, (0 < u)%Q -> (0 < sqrt u)%Q) ->
  estimateBaseSpacing sqrt [] = Num.PosInf /\
  (points <> [] ->
   exists q : Q,
     estimateBaseSpacing sqrt points = Num.Fin q /\ (0 <= q)%Q /\
     ((q == 0)%Q <-> coincide points)).
Proof.
  intros Hsqrt. split; [reflexivity|]. intros Hne.
  pose proof (bounds_fold points []
                (mkBounds Num.PosInf Num.NegInf Num.PosInf Num.NegInf) eq_refl)
    as Hbox.
  simpl in Hbox. unfold estimateBaseSpacing. cbv zeta.
  destruct (fold_left boundsStep points _) as [[|x0|] [|x1|] [|y0|] [|y1|]];
    unfold boxOf in Hbox; simpl in Hbox; try done.
  simpl.
  destruct Hbox as (Hbox & (px0 & Hpx0 & Ex0) & (px1 & Hpx1 & Ex1)
                    & (py0 & Hpy0 & Ey0) & (py1 & Hpy1 & Ey1)).
  assert (x0 <= x1)%Q as Hw.
  { destruct (Hbox px0 Hpx0) as (_ & H & _). by rewrite Ex0 in H. }
  assert (y0 <= y1)%Q as Hh.
  { destruct (Hbox py0 Hpy0) as (_ & _ & _ & H). by rewrite Ey0 in H. }
  set (n := inject_Z (Z.max 1 (Z.of_nat (length points)))).
  assert (0 < n)%Q as Hn.
  { unfold n. change 0%Q with (inject_Z 0). rewrite <- Zlt_Qlt. lia. }
  assert (coincide points <-> (x1 - x0 == 0)%Q /\ (y1 - y0 == 0)%Q) as Hco.
  { split.
    - intros Hc. destruct (Hc px0 px1 Hpx0 Hpx1) as [Hx _].
      destruct (Hc py0 py1 Hpy0 Hpy1) as [_ Hy].
      rewrite Ex0, Ex1 in Hx. rewrite Ey0, Ey1 in Hy. split; lra.
    - intros [Hx Hy] a b Ha Hb.
      destruct (Hbox a Ha) as (? & ? & ? & ?).
      destruct (Hbox b Hb) as (? & ? & ? & ?). split; lra. }
  destruct (Num.ltb 0 ((x1 - x0) * (y1 - y0))) eqn:Harea.
  - apply ltb_lt in Harea. eexists. split; [reflexivity|].
    assert (0 < sqrt ((x1 - x0) * (y1 - y0) / n))%Q as Hpos.
    { apply Hsqrt. apply Qlt_shift_div_l; [done|]. lra. }
    split; [lra|]. rewrite Hco. split; [intros H; lra|].
    intros [Hx Hy]. exfalso.
    assert ((x1 - x0) * (y1 - y0) == 0)%Q by (rewrite Hx; ring). lra.
  - apply ltb_ge in Harea.
    assert (Num.abs (x1 - x0) = (x1 - x0)%Q) as ->.
    { unfold Num.abs. assert (Num.leb 0 (x1 - x0) = true) as ->; [|done].
      apply leb_le. lra. }
    assert (Num.abs (y1 - y0) = (y1 - y0)%Q) as ->.
    { unfold Num.abs. assert (Num.leb 0 (y1 - y0) = true) as ->; [|done].
      apply leb_le. lra. }
    destruct (Num.ltb 0 (Num.max (x1 - x0) (y1 - y0))) eqn:Hext.
    + apply ltb_lt in Hext. eexists. split; [reflexivity|].
      assert (0 < Num.max (x1 - x0) (y1 - y0) / sqrt n)%Q as Hpos.
      { apply Qlt_shift_div_l; [by apply Hsqrt|]. lra. }
      split; [lra|]. rewrite Hco. split; [intros H; lra|].
      intros [Hx Hy]. exfalso.
      destruct (max_spec (x1 - x0) (y1 - y0)) as [[_ E]|[_ E]];
        rewrite E in Hext; lra.
    + apply ltb_ge in Hext. exists 0%Q. split; [done|]. split; [lra|].
      rewrite Hco. split; [|done]. intros _.
      destruct (max_spec (x1 - x0) (y1 - y0)) as [[? E]|[? E]];
        rewrite E in Hext; split; lra.
Qed.

Lemma estimateBaseSpacing_spec_witness :
  exists q : Q,
    estimateBaseSpacing (fun u => u) scenarioPoints = Num.Fin q /\ (0 <= q)%Q /\
    ((q == 0)%Q <-> coincide scenarioPoints).
Proof.
  refine (proj2 (estimateBaseSpacing_spec (fun u => u) scenarioPoints _) _).
  - intros u Hu. exact Hu.
  - discriminate.
Defined.

(** ** The viewer: [clamp], the wheel zoom and the level colours *)

Lemma clamp_split (value min max : Q) :
  ((max <= min)%Q \/ (max <= value)%Q) /\ clamp value min max = max \/
  (min <= value)%Q /\ (value < max)%Q /\ clamp value min max = value \/
  (value < min)%Q /\ (min < max)%Q /\ clamp value min max = min.
Proof.
  unfold clamp.
  destruct (max_spec min value) as [[H1 E1] | [H1 E1]]; rewrite E1;
    destruct (min_spec max value) as [[H2 E2] | [H2 E2]];
    destruct (min_spec max min) as [[H3 E3] | [H3 E3]];
    rewrite ?E2, ?E3; auto 6.
Qed.

Lemma clamp_bounds (value min max : Q) :
  (min <= max)%Q ->
  (min <= clamp value min max)%Q /\ (clamp value min max <= max)%Q.
Proof.
  intros Hmm.
  destruct (clamp_split value min max)
    as [[H ->] | [(H1 & H2 & ->) | (H1 & H2 & ->)]]; split; lra.
Qed.

(** X14.  With [min <= max], [clamp] returns a number of [[min, max]], the
    value itself when it is in that range, and clamping twice changes
    nothing more; with [max < min] it returns [max] whatever the value. *)
Theorem clamp_spec (value min max : Q) :
  ((min <= max)%Q ->
   (min <= clamp value min max)%Q /\ (clamp value min max <= max)%Q /\
   ((min <= value)%Q -> (value <= max)%Q ->
    (clamp value min max == value)%Q) /\
   (clamp (clamp value min max) min max == clamp value min max)%Q) /\
  ((max < min)%Q -> clamp value min max = max).
Proof.
  split.
  - intros Hmm. destruct (clamp_bounds value min max Hmm) as [Hlo Hhi].
    repeat split; try done.
    + intros H1 H2.
      destruct (clamp_split value min max)
        as [[H ->] | [(H3 & H4 & ->) | (H3 & H4 & ->)]]; lra.
    + generalize dependent (clamp value min max). intros c Hlo Hhi.
      destruct (clamp_split c min max)
        as [[H ->] | [(H3 & H4 & ->) | (H3 & H4 & ->)]]; lra.
  - intros Hlt.
    destruct (clamp_split value min max)
      as [[H E] | [(H3 & H4 & E) | (H3 & H4 & E)]]; try done; lra.
Qed.



Lemma Math_round_integer (n : Z) : Math_round (inject_Z n) = n.
Proof.
  unfold Math_round.
  pose proof (Qfloor_le (inject_Z n + (1 # 2))) as Hle.
  pose proof (Qlt_floor (inject_Z n + (1 # 2))) as Hlt.
  set (k := Qfloor (inject_Z n + (1 # 2))) in *.
  revert Hle Hlt. unfold Qle, Qlt. simpl. lia.
Qed.

Lemma palette_lookup (i : Z) :
  0 <= i < 6 -> exists colour, at_index palette i = Some colour /\
                               colour ∈ palette.
Proof.
  intros Hi.
  assert (i = 0 \/ i = 1 \/ i = 2 \/ i = 3 \/ i = 4 \/ i = 5) as Hc by lia.
  clear Hi. destruct Hc as [-> | [-> | [-> | [-> | [-> | ->]]]]];
    eexists; (split; [reflexivity|]); unfold palette; set_solver.
Qed.


(** ** The viewer: world and image *)



(** ** The viewer: [solveLinear3x3] *)

Lemma solves_3 (a0 a1 a2 b0 b1 b2 c0 c1 c2 v0 v1 v2 x0 x1 x2 : Q) :
  solves [[a0; a1; a2]; [b0; b1; b2]; [c0; c1; c2]] [v0; v1; v2] [x0; x1; x2]
  <-> (a0 * x0 + a1 * x1 + a2 * x2 == v0)%Q /\
      (b0 * x0 + b1 * x1 + b2 * x2 == v1)%Q /\
      (c0 * x0 + c1 * x1 + c2 * x2 == v2)%Q.
Proof.
  unfold solves. rewrite !Forall2_cons. cbn [dot zip_with foldr].
  split.
  - intros (A & B & C & _). repeat split; lra.
  - intros (A & B & C). repeat split; try lra. constructor.
Qed.

Lemma unitColumns_3 (k : nat) (a0 a1 a2 b0 b1 b2 c0 c1 c2 : Q) :
  unitColumns k [[a0; a1; a2]; [b0; b1; b2]; [c0; c1; c2]]
  <-> ((1 <= k)%nat -> (a0 == 1)%Q /\ (b0 == 0)%Q /\ (c0 == 0)%Q) /\
      ((2 <= k)%nat -> (a1 == 0)%Q /\ (b1 == 1)%Q /\ (c1 == 0)%Q) /\
      ((3 <= k)%nat -> (a2 == 0)%Q /\ (b2 == 0)%Q /\ (c2 == 1)%Q).
Proof.
  unfold unitColumns. split.
  - intros H. split; [|split]; intros Hk; repeat split.
    + exact (H 0 0 _ _ ltac:(lia) eq_refl eq_refl)%nat.
    + exact (H 1 0 _ _ ltac:(lia) eq_refl eq_refl)%nat.
    + exact (H 2 0 _ _ ltac:(lia) eq_refl eq_refl)%nat.
    + exact (H 0 1 _ _ ltac:(lia) eq_refl eq_refl)%nat.
    + exact (H 1 1 _ _ ltac:(lia) eq_refl eq_refl)%nat.
    + exact (H 2 1 _ _ ltac:(lia) eq_refl eq_refl)%nat.
    + exact (H 0 2 _ _ ltac:(lia) eq_refl eq_refl)%nat.
    + exact (H 1 2 _ _ ltac:(lia) eq_refl eq_refl)%nat.
    + exact (H 2 2 _ _ ltac:(lia) eq_refl eq_refl)%nat.
  - intros (H1 & H2 & H3) i j r q Hj Hr Hq.
    destruct i as [|[|[|i]]]; simpl in Hr; try discriminate;
      injection Hr as <-;
      destruct j as [|[|[|j]]]; simpl in Hq; try discriminate;
      injection Hq as <-; cbn [Nat.eqb];
      first [ apply H1; lia | apply H2; lia | apply H3; lia ].
Qed.

Lemma is3x3_inv (m : list (list Q)) (v : list Q) :
  is3x3 m v ->
  exists a0 a1 a2 b0 b1 b2 c0 c1 c2 v0 v1 v2 : Q,
    m = [[a0; a1; a2]; [b0; b1; b2]; [c0; c1; c2]] /\ v = [v0; v1; v2].
Proof.
  intros (Hm & Hrows & Hv).
  destruct m as [|ra [|rb [|rc [|]]]]; try discriminate.
  destruct v as [|v0 [|v1 [|v2 [|]]]]; try discriminate.
  apply Forall_cons in Hrows as [Ha Hrows].
  apply Forall_cons in Hrows as [Hb Hrows].
  apply Forall_cons in Hrows as [Hc _].
  destruct ra as [|a0 [|a1 [|a2 [|]]]]; try discriminate.
  destruct rb as [|b0 [|b1 [|b2 [|]]]]; try discriminate.
  destruct rc as [|c0 [|c1 [|c2 [|]]]]; try discriminate.
  by exists a0, a1, a2, b0, b1, b2, c0, c1, c2, v0, v1, v2.
Qed.

(** A pivot the test [Math.abs(m[pivot][index]) < 1e-12] lets through is
    not zero. *)
Lemma pivot_nonzero (p : Q) :
  Num.ltb (Num.abs p) Num.lit_1e_12 = false -> ~ (p == 0)%Q.
Proof.
  intros H E. apply ltb_ge in H. revert H.
  unfold Num.abs, Num.leb.
  destruct (Qle_bool 0 p); rewrite E; unfold Num.lit_1e_12, Qle; simpl; lia.
Qed.

(** Symbolic runs of one turn of the loop on a 3 x 3 matrix of variables. *)
Ltac run :=
  cbv [solveLinear3x3 solveLoop pivotStep choosePivot eliminate subtractRow
       divideRow columnsFrom entryAt rowAt numberAt andThen seq Nat.sub
       Nat.eqb lookup list_lookup insert list_insert].

Ltac branch :=
  match goal with
  | |- context [if Num.ltb (Num.abs ?x) ?y then _ else _] =>
      is_var x; destruct (Num.ltb (Num.abs x) y) eqn:?
  end.

Ltac pivots :=
  repeat match goal with
         | H : Num.ltb (Num.abs _) Num.lit_1e_12 = false |- _ =>
             apply pivot_nonzero in H
         end.

Ltac units :=
  repeat match goal with
         | H : (?x == _)%Q |- _ => is_var x; rewrite ?H; clear H
         end.

Ltac forwards A B C :=
  rewrite <- ?A, <- ?B, <- ?C; units; field; assumption.

Ltac backwards :=
  match goal with
  | P : (?np == ?vp / ?f)%Q |- _ =>
      let Ep := fresh "Ep" in
      assert (vp == f * np)%Q as Ep by (rewrite P; field; assumption);
      repeat match goal with
             | R : (?nr == ?vr - ?m * (vp / f))%Q |- _ =>
                 let Er := fresh "Er" in
                 assert (vr == nr + m * np)%Q as Er
                   by (rewrite R, P; field; assumption);
                 clear R
             end;
      clear P
  end;
  match goal with
  | E : (?v == _)%Q |- (_ == ?v)%Q => rewrite E
  end;
  repeat match goal with
         | E : (?v == _ * _)%Q |- _ => clear E
         | E : (?v == _ + _)%Q |- _ => clear E
         end;
  units; field; assumption.

Ltac stepped :=
  repeat (run; branch); run;
  (eexists; split; [reflexivity|]); try exact I;
  pivots; cbv beta iota;
  (split; [unfold is3x3; simpl; repeat split; repeat constructor|]);
  (split;
   [ apply unitColumns_3;
     (split; [|split]); intros ?; try lia; repeat split; units; field;
     assumption
   | intros x0 x1 x2; rewrite !solves_3;
     (split;
      [ intros (A & B & C); repeat split; forwards A B C
      | intros (A & B & C); repeat split; backwards ]) ]).

(** One turn of the loop of [solveLinear3x3] on a 3 x 3 system whose first
    [index] columns are unit columns: it returns; when it does not give up,
    the new system is 3 x 3 again, has one more unit column, and has the
    same solutions. *)
Lemma pivotStep_spec (index : nat) (m : list (list Q)) (v : list Q) :
  (index < 3)%nat -> is3x3 m v -> unitColumns index m ->
  exists next,
    pivotStep m v index = Done next /\
    match next with
    | None => True
    | Some (m', v') =>
        is3x3 m' v' /\ unitColumns (S index) m' /\
        forall x0 x1 x2 : Q,
          solves m v [x0; x1; x2] <-> solves m' v' [x0; x1; x2]
    end.
Proof.
  intros Hindex H33 Hu.
  destruct (is3x3_inv m v H33)
    as (a0 & a1 & a2 & b0 & b1 & b2 & c0 & c1 & c2 & v0 & v1 & v2 & -> & ->).
  clear H33. apply unitColumns_3 in Hu. destruct Hu as (U1 & U2 & U3).
  destruct index as [|[|[|index]]]; [| | |lia]; clear U3 Hindex.
  - clear U1 U2. stepped.
  - clear U2. destruct (U1 ltac:(lia)) as (Ua & Ub & Uc). clear U1.
    stepped.
  - destruct (U1 ltac:(lia)) as (Ua & Ub & Uc).
    destruct (U2 ltac:(lia)) as (Ua' & Ub' & Uc'). clear U1 U2.
    stepped.
Qed.

(** After the three turns every column is a unit column, so the system
    left reads [x = v]: the solutions of the system given are the vectors
    equal to the one returned. *)
Lemma solveLinear3x3_answer (a0 a1 a2 b0 b1 b2 c0 c1 c2 v0 v1 v2 : Q) :
  let matrix := [[a0; a1; a2]; [b0; b1; b2]; [c0; c1; c2]] in
  let vector := [v0; v1; v2] in
  exists answer : option (list Q),
    solveLinear3x3 matrix vector = Done answer /\
    forall x : list Q,
      answer = Some x ->
      exists x0 x1 x2 : Q,
        x = [x0; x1; x2] /\
        forall y0 y1 y2 : Q,
          solves matrix vector [y0; y1; y2]
          <-> (y0 == x0)%Q /\ (y1 == x1)%Q /\ (y2 == x2)%Q.
Proof.
  intros matrix vector.
  assert (is3x3 matrix vector) as H0
    by (unfold is3x3; simpl; repeat split; repeat constructor).
  assert (unitColumns 0 matrix) as U0 by (intros i j r q Hj; lia).
  unfold solveLinear3x3. cbn [solveLoop].
  destruct (pivotStep_spec 0 matrix vector ltac:(lia) H0 U0)
    as (next1 & -> & H1).
  cbn [andThen].
  destruct next1 as [[m1 w1]|]; [|exists None; split; [done|]; discriminate].
  destruct H1 as (H1 & U1 & S1).
  destruct (pivotStep_spec 1 m1 w1 ltac:(lia) H1 U1) as (next2 & -> & H2).
  cbn [andThen].
  destruct next2 as [[m2 w2]|]; [|exists None; split; [done|]; discriminate].
  destruct H2 as (H2 & U2 & S2).
  destruct (pivotStep_spec 2 m2 w2 ltac:(lia) H2 U2) as (next3 & -> & H3).
  cbn [andThen].
  destruct next3 as [[m3 w3]|]; [|exists None; split; [done|]; discriminate].
  destruct H3 as (H3 & U3 & S3).
  exists (Some w3). split; [done|]. intros x [= <-].
  destruct (is3x3_inv m3 w3 H3)
    as (p0 & p1 & p2 & q0 & q1 & q2 & r0 & r1 & r2 & x0 & x1 & x2
        & -> & ->).
  apply unitColumns_3 in U3. destruct U3 as (C1 & C2 & C3).
  destruct (C1 ltac:(lia)) as (Ep0 & Eq0 & Er0).
  destruct (C2 ltac:(lia)) as (Ep1 & Eq1 & Er1).
  destruct (C3 ltac:(lia)) as (Ep2 & Eq2 & Er2).
  exists x0, x1, x2. split; [done|].
  intros y0 y1 y2. rewrite S1, S2, S3, solves_3.
  rewrite Ep0, Ep1, Ep2, Eq0, Eq1, Eq2, Er0, Er1, Er2.
  split; intros (A & B & C); repeat split; lra.
Qed.


(** ** The viewer: the affine map baked from the anchors *)

(** The matrix of the three world anchors is far from singular: whatever
    the vector, [solveLinear3x3] finds a solution. *)
Lemma kingdoms_solvable (v0 v1 v2 : Q) :
  exists x : list Q,
    solveLinear3x3
      [ [xy_x (KINGDOMS_ANCHOR_WORLD KeyA);
         xy_y (KINGDOMS_ANCHOR_WORLD KeyA); 1%Q];
        [xy_x (KINGDOMS_ANCHOR_WORLD KeyB);
         xy_y (KINGDOMS_ANCHOR_WORLD KeyB); 1%Q];
        [xy_x (KINGDOMS_ANCHOR_WORLD KeyC);
         xy_y (KINGDOMS_ANCHOR_WORLD KeyC); 1%Q] ]
      [v0; v1; v2] = Done (Some x).
Proof.
  cbv [KINGDOMS_ANCHOR_WORLD xy_x xy_y].
  repeat (run;
          match goal with
          | |- context [if ?test then _ else _] =>
              let b := eval vm_compute in test in
              change test with b; cbv iota
          end).
  run. eexists. reflexivity.
Qed.



(** ** The viewer: the points [createAutoRoute] works on *)

Lemma sampleLoop_spec (points : list SpawnXYZ) (stride : nat) :
  (0 < stride)%nat ->
  forall (fuel index : nat) (sampled : list SpawnXYZ),
    (length points <= index + fuel)%nat ->
    (index < length points + stride)%nat ->
    exists rest : list SpawnXYZ,
      sampleLoop fuel points stride index sampled = Ok (sampled ++ rest) /\
      rest `sublist_of` drop index points /\
      head rest = points !! index /\
      (length points <= index + length rest * stride)%nat /\
      (index + length rest * stride < length points + stride)%nat.
Proof.
  intros Hstride.
  induction fuel as [|fuel IH]; intros index sampled Hfuel Hindex.
  - exists []. cbn [sampleLoop].
    rewrite (proj2 (lookup_ge_None points index)) by lia.
    rewrite app_nil_r.
    repeat split; try done; try apply sublist_nil_l; simpl; lia.
  - cbn [sampleLoop].
    destruct (points !! index) as [point|] eqn:Hpoint.
    + pose proof (lookup_lt_Some _ _ _ Hpoint) as Hlt.
      destruct (IH (index + stride)%nat (sampled ++ [point]) ltac:(lia)
                  ltac:(lia))
        as (rest & Hrun & Hsub & Hhead & Hlo & Hhi).
      exists (point :: rest). rewrite Hrun, <- app_assoc. simpl.
      repeat split; try done.
      * rewrite (drop_S _ _ _ Hpoint). apply sublist_skip.
        etrans; [exact Hsub|].
        replace (index + stride)%nat with (S index + (stride - 1))%nat by lia.
        rewrite <- drop_drop. apply sublist_drop.
      * lia.
      * lia.
    + pose proof (proj1 (lookup_ge_None points index) Hpoint) as Hge.
      exists []. rewrite app_nil_r.
      repeat split; try done; try apply sublist_nil_l; simpl; lia.
Qed.

(** The stride [Math.ceil(points.length / limit)] of the sample. *)
Lemma stride_bounds (n : Z) :
  let stride := Num.ceil (inject_Z n / inject_Z tuneLimit) in
  n <= 8000 * stride /\ 8000 * (stride - 1) < n.
Proof.
  intros stride. unfold tuneLimit in stride.
  pose proof (Qle_ceiling (inject_Z n / inject_Z 8000)) as H1.
  pose proof (Qceiling_lt (inject_Z n / inject_Z 8000)) as H2.
  fold (Num.ceil (inject_Z n / inject_Z 8000)) in H1, H2.
  fold stride in H1, H2.
  assert (inject_Z n == (inject_Z n / inject_Z 8000) * inject_Z 8000)%Q
    as En by (field; discriminate).
  replace (inject_Z (stride - 1)) with (inject_Z stride - 1)%Q in H2.
  2: { unfold Z.sub. rewrite inject_Z_plus. reflexivity. }
  change (inject_Z 8000) with 8000%Q in *.
  split.
  - rewrite Zle_Qle, inject_Z_mult.
    change (inject_Z 8000) with 8000%Q. lra.
  - rewrite Zlt_Qlt, inject_Z_mult.
    replace (inject_Z (stride - 1)) with (inject_Z stride - 1)%Q.
    2: { unfold Z.sub. rewrite inject_Z_plus. reflexivity. }
    change (inject_Z 8000) with 8000%Q. lra.
Qed.

Lemma tunePointsOf_ok (points : list SpawnXYZ) :
  exists sampled : list SpawnXYZ, tunePointsOf points = Ok sampled.
Proof.
  unfold tunePointsOf.
  destruct (Z.ltb_spec tuneLimit (Z.of_nat (length points))) as [Hbig|Hsmall];
    [|by eexists].
  destruct (stride_bounds (Z.of_nat (length points))) as [Hlo Hhi].
  unfold tuneLimit in Hbig. cbv zeta in Hlo, Hhi.
  destruct (sampleLoop_spec points
              (Z.to_nat (Num.ceil (inject_Z (Z.of_nat (length points))
                                   / inject_Z tuneLimit)))
              ltac:(lia) (length points) 0%nat [] ltac:(lia) ltac:(lia))
    as (rest & Hrun & _).
  exists rest. exact Hrun.
Qed.

(** X20.  The points [createAutoRoute] tunes on are the points themselves
    when there are at most 8000; when there are more, they are a sample
    taken in order from the points, of more than 4000 and at most 8000
    points, that starts with the first point ([tuneLimit] is 8000). *)
Theorem tunePointsOf_spec (points : list SpawnXYZ) :
  exists sampled : list SpawnXYZ,
    tunePointsOf points = Ok sampled /\
    sampled `sublist_of` points /\
    Z.of_nat (length sampled) <= tuneLimit /\
    (Z.of_nat (length points) <= tuneLimit -> sampled = points) /\
    (tuneLimit < Z.of_nat (length points) ->
     tuneLimit < 2 * Z.of_nat (length sampled) /\
     head sampled = head points).
Proof.
  unfold tunePointsOf.
  destruct (Z.ltb_spec tuneLimit (Z.of_nat (length points))) as [Hbig|Hsmall].
  - destruct (stride_bounds (Z.of_nat (length points))) as [Hlo Hhi].
    cbv zeta in Hlo, Hhi.
    set (stride := Num.ceil (inject_Z (Z.of_nat (length points))
                             / inject_Z tuneLimit)) in *.
    unfold tuneLimit in Hbig |- *.
    assert (0 < Z.to_nat stride)%nat as Hpos by lia.
    destruct (sampleLoop_spec points (Z.to_nat stride) Hpos (length points)
                0%nat [] ltac:(lia) ltac:(lia))
      as (rest & Hrun & Hsub & Hhead & Hcover & Hlast).
    exists rest. rewrite Hrun. simpl. rewrite drop_0 in Hsub.
    split; [done|]. split; [done|].
    assert (Z.of_nat (length points)
            <= Z.of_nat (length rest) * stride) as Hc by nia.
    assert (Z.of_nat (length rest) * stride
            < Z.of_nat (length points) + stride) as Hl by nia.
    repeat split.
    + nia.
    + lia.
    + nia.
    + rewrite Hhead. by destruct points.
  - exists points. repeat split; try done; lia.
Qed.

Lemma filter_ext_elem {A : Type} (P R : A -> Prop)
    `{!forall x, Decision (P x)} `{!forall x, Decision (R x)} (l : list A) :
  (forall x, x ∈ l -> (P x <-> R x)) -> filter P l = filter R l.
Proof.
  induction l as [|x l IH]; intros Hiff; [done|].
  rewrite !filter_cons.
  assert (filter P l = filter R l) as ->.
  { apply IH. intros y Hy. apply Hiff. by apply list_elem_of_further. }
  pose proof (Hiff x (list_elem_of_here x l)) as Hx.
  destruct (decide (P x)), (decide (R x)); tauto.
Qed.

Lemma elem_of_idsWhere (test : Z -> bool) (counts : gmap Z Z)
    (points : list SpawnXYZ) (i : Z) :
  i ∈ idsWhere test counts points
  <-> exists p : SpawnXYZ,
        p ∈ points /\ spawn_id p = i /\ test (countOr1 counts i) = true.
Proof.
  unfold idsWhere. rewrite idsWhere_fold. split; [|by right].
  intros [Hin|H]; [by apply elem_of_empty in Hin | done].
Qed.

(** The points whose id is not in the set of ids with fewer than [least]
    neighbours are the points with at least [least] neighbours. *)
Lemma filter_supported (least : Z) (counts : gmap Z Z)
    (points : list SpawnXYZ) :
  filter (fun point =>
    spawn_id point ∉ idsWhere (fun count => count <? least) counts points)
    points
  = filter (fun point => least <= countOr1 counts (spawn_id point)) points.
Proof.
  apply filter_ext_elem. intros p Hp. rewrite elem_of_idsWhere. split.
  - intros Hnot. destruct (Z.ltb_spec (countOr1 counts (spawn_id p)) least)
      as [Hlt|Hge]; [|done].
    exfalso. apply Hnot. exists p. repeat split; try done.
  - intros Hge (q & Hq & Hid & Htest). apply Z.ltb_lt in Htest. lia.
Qed.

Lemma usableOf_cases (points : list SpawnXYZ) (dirtyCounts : gmap Z Z)
    (autoMaxWaypoints : Q) :
  let supported (least : Z) :=
    filter (fun point => least <= countOr1 dirtyCounts (spawn_id point))
      points in
  let dirty (least : Z) :=
    idsWhere (fun count => count <? least) dirtyCounts points in
  let few :=
    (inject_Z (Z.of_nat (length (supported 3%Z)))
     < Num.min (inject_Z (Z.of_nat (length points)))
         (Num.max 60 (autoMaxWaypoints * 3)))%Q in
  (few /\
   usableOf points dirtyCounts autoMaxWaypoints
   = mkUsable (supported 2) (dirty 2) 2) \/
  (~ few /\
   usableOf points dirtyCounts autoMaxWaypoints
   = mkUsable (supported 3) (dirty 3) 3).
Proof.
  intros supported dirty few.
  assert (length (supported 3%Z) <= length (supported 2%Z))%nat as Hmono.
  { apply length_filter_mono. intros x. lia. }
  unfold usableOf. cbv zeta.
  rewrite !filter_supported. fold (supported 3). fold (supported 2).
  destruct (Num.ltb _ _) eqn:Hfew.
  - apply ltb_lt in Hfew. left. split; [exact Hfew|].
    by rewrite (proj2 (Nat.leb_le _ _) Hmono).
  - apply ltb_ge in Hfew. right. split; [|done].
    unfold few. lra.
Qed.

Lemma usableOf_keeps (points : list SpawnXYZ) (dirtyCounts : gmap Z Z)
    (autoMaxWaypoints : Q) :
  let usable := usableOf points dirtyCounts autoMaxWaypoints in
  usablePoints usable
  = filter (fun point =>
      usedSupportCount usable <= countOr1 dirtyCounts (spawn_id point))
      points.
Proof.
  intros usable. unfold usable.
  by destruct (usableOf_cases points dirtyCounts autoMaxWaypoints)
    as [[_ ->] | [_ ->]].
Qed.

(** X21.  The dirty-point filter of [createAutoRoute] keeps the points with
    at least [usedSupportCount] neighbours in [dirtyCounts], their own count
    included, and marks as dirty the ids of the others.  The support count
    is 3, and is relaxed to 2 exactly when fewer points have 3 neighbours
    than [min(points.length, max(60, autoMaxWaypoints * 3))]. *)
Theorem usableOf_spec (points : list SpawnXYZ) (dirtyCounts : gmap Z Z)
    (autoMaxWaypoints : Q) :
  let usable := usableOf points dirtyCounts autoMaxWaypoints in
  let supported (least : Z) :=
    filter (fun point => least <= countOr1 dirtyCounts (spawn_id point))
      points in
  usablePoints usable = supported (usedSupportCount usable) /\
  (forall i : Z,
     i ∈ dirtyIds usable <->
     exists p : SpawnXYZ,
       p ∈ points /\ spawn_id p = i /\
       countOr1 dirtyCounts i < usedSupportCount usable) /\
  (usedSupportCount usable = 2 \/ usedSupportCount usable = 3) /\
  (usedSupportCount usable = 2 <->
   (inject_Z (Z.of_nat (length (supported 3%Z)))
    < Num.min (inject_Z (Z.of_nat (length points)))
        (Num.max 60 (autoMaxWaypoints * 3)))%Q).
Proof.
  intros usable supported.
  assert (forall least i,
            i ∈ idsWhere (fun count => count <? least) dirtyCounts points <->
            exists p : SpawnXYZ,
              p ∈ points /\ spawn_id p = i /\ countOr1 dirtyCounts i < least)
    as Hids.
  { intros least i. rewrite elem_of_idsWhere. split.
    - intros (p & Hp & Hid & Htest).
      exists p. repeat split; try done. by apply Z.ltb_lt.
    - intros (p & Hp & Hid & Hlt). exists p.
      repeat split; try done. by apply Z.ltb_lt. }
  unfold usable.
  destruct (usableOf_cases points dirtyCounts autoMaxWaypoints)
    as [[Hfew ->] | [Hfew ->]];
    cbn [usablePoints dirtyIds usedSupportCount].
  - repeat split; try done; try apply Hids; auto.
  - repeat split; try done; try apply Hids; auto.
Qed.


(** ** The viewer: the viewport after a resize *)


